(** * Sensitive-data detection: scorers, line clustering and entity location

    A shallow embedding of [app/backend/scripts/myregex.py] (normalisers,
    scorers, e-mail repair candidates, IBAN checksum) and of the geometric
    part of [app/backend/scripts/ocr.py] (overlap ratio, line clustering,
    span-to-token mapping, de-duplication), followed by the properties that
    the specification states about them, and by further properties of the
    same code, of the matcher ([find_matches_for_type], [extract_entities],
    over an abstract regex engine), of [read_text_boxes] from the OCR tokens
    on, and of [_clamp_rect] of the blurring scripts.

    Modelling conventions.
    - A Python [str] is a [list ascii]; the embedding covers ASCII text.
      [str.isspace] and the regex class [\s] are the ASCII white-space
      characters (codes 9-13 and 28-32); [\d] and [str.isdigit] are [0-9];
      [str.upper] maps [a-z] to [A-Z].
    - A Python [float] is an exact rational of [Q]; the literals of the
      source ([0.7], [0.85], ...) are the same decimal literals here.  Every
      comparison made by the code is between such rationals.
    - A compiled regular expression used with [match] / [search] / [sub] is
      a recogniser or a scanner written by hand next to the pattern it
      stands for; the pattern is quoted in the comment above it.
    - A Python [set] of strings is a duplicate-free list in insertion order;
      what is computed from it does not depend on the order.
    - Loops are folds; a [while] loop carries a fuel argument, and the fuel
      given is shown to be enough. *)

From Stdlib Require Import Ascii String DecimalString.
From Stdlib Require Import List ZArith QArith Qminmax Lia Bool.
From Stdlib Require Import Permutation Sorted Arith ListSet Lqa.
Import ListNotations.
Local Open Scope nat_scope.

(** ** Strings and character classes *)

Definition str := list ascii.

Definition L (s : string) : str := list_ascii_of_string s.

Definition ord (c : ascii) : nat := nat_of_ascii c.

Definition in_range (lo hi : nat) (c : ascii) : bool :=
  (lo <=? ord c)%nat && (ord c <=? hi)%nat.

Definition is_char (x c : ascii) : bool := Ascii.eqb c x.

(** [\s] and [str.isspace]. *)
Definition is_space (c : ascii) : bool := in_range 9 13 c || in_range 28 32 c.
(** [\d], [[0-9]] and [str.isdigit]. *)
Definition is_digit (c : ascii) : bool := in_range 48 57 c.
(** [[A-Z]]. *)
Definition is_upper (c : ascii) : bool := in_range 65 90 c.
(** [[a-z]]. *)
Definition is_lower (c : ascii) : bool := in_range 97 122 c.
(** [[A-Za-z]], and [[A-Z]] under [re.IGNORECASE]. *)
Definition is_alpha (c : ascii) : bool := is_upper c || is_lower c.
(** [[A-Z0-9]]. *)
Definition is_upper_alnum (c : ascii) : bool := is_upper c || is_digit c.
(** [[./-]]. *)
Definition is_date_sep (c : ascii) : bool :=
  is_char "." c || is_char "/" c || is_char "-" c.
(** [[A-Za-z0-9._%+-]]: the local part of an address. *)
Definition is_local_char (c : ascii) : bool :=
  is_alpha c || is_digit c || is_char "." c || is_char "_" c
  || is_char "%" c || is_char "+" c || is_char "-" c.
(** [[A-Za-z0-9.-]]: the domain of an address. *)
Definition is_domain_char (c : ascii) : bool :=
  is_alpha c || is_digit c || is_char "." c || is_char "-" c.
(** [[0-9\s().-]]: the body of a phone number. *)
Definition is_phone_char (c : ascii) : bool :=
  is_digit c || is_space c || is_char "(" c || is_char ")" c
  || is_char "." c || is_char "-" c.

Definition str_eqb (a b : str) : bool :=
  if list_eq_dec ascii_dec a b then true else false.

(** [c in text]. *)
Definition contains (x : ascii) (t : str) : bool := existsb (is_char x) t.

(** [text.upper()]. *)
Definition upper_char (c : ascii) : ascii :=
  if is_lower c then ascii_of_nat (ord c - 32) else c.
Definition upper (t : str) : str := map upper_char t.

(** [text.replace(old, new)] for one-character [old] and [new]. *)
Definition replace_char (old new : ascii) (t : str) : str :=
  map (fun c => if is_char old c then new else c) t.

(** [text.replace(old, empty)] for a one-character [old]. *)
Definition delete_char (old : ascii) (t : str) : str :=
  filter (fun c => negb (is_char old c)) t.

Fixpoint drop_while (p : ascii -> bool) (t : str) : str :=
  match t with
  | [] => []
  | c :: r => if p c then drop_while p r else t
  end.

Fixpoint take_while (p : ascii -> bool) (t : str) : str :=
  match t with
  | [] => []
  | c :: r => if p c then c :: take_while p r else []
  end.

Definition lstrip (t : str) : str := drop_while is_space t.
Definition rstrip (t : str) : str := rev (drop_while is_space (rev t)).
(** [text.strip()]. *)
Definition strip (t : str) : str := rstrip (lstrip t).

(** What a final [$] does to an anchored pattern: the pattern ends at the
    end of the string, or just before a newline that ends the string.
    [body] returns the groups of the match. *)
Definition at_dollar {A : Type} (body : str -> option A) (t : str) : option A :=
  match body t with
  | Some g => Some g
  | None =>
      match rev t with
      | c :: r => if is_char "010" c then body (rev r) else None
      | [] => None
      end
  end.

Definition matched {A : Type} (m : option A) : bool :=
  match m with Some _ => true | None => false end.

Definition guard (b : bool) : option unit := if b then Some tt else None.

(** ** Normalisers *)

(** One pass of [text.replace("  ", " ")]: occurrences are taken from the
    left and do not overlap. *)
Fixpoint replace_double_space (t : str) : str :=
  match t with
  | [] => []
  | c :: r =>
      match r with
      | d :: r' =>
          if is_char " " c && is_char " " d
          then " "%char :: replace_double_space r'
          else c :: replace_double_space r
      | [] => [c]
      end
  end.

(** ["  " in text]. *)
Fixpoint has_double_space (t : str) : bool :=
  match t with
  | [] => false
  | c :: r =>
      match r with
      | d :: _ => (is_char " " c && is_char " " d) || has_double_space r
      | [] => false
      end
  end.

(** [while "  " in text: text = text.replace("  ", " ")]. *)
Fixpoint collapse_loop (fuel : nat) (t : str) : str :=
  match fuel with
  | O => t
  | S f =>
      if has_double_space t then collapse_loop f (replace_double_space t)
      else t
  end.

Definition normalize_spaces (text : str) : str :=
  let text :=
    replace_char "010" " " (replace_char "013" " " (replace_char "009" " " text)) in
  let text := collapse_loop (length text) text in
  strip text.

(** [re.sub(r"\s*X\s*", X, text)] where [X] is one character of the class
    [p], which holds no white space.  The scan goes from the left: white
    space is dropped when it follows a character of [p] ([after]) or when
    the run it starts leads to one ([sep_ahead]); everything else is
    copied. *)
Fixpoint sep_ahead (p : ascii -> bool) (t : str) : bool :=
  match t with
  | [] => false
  | c :: r => if is_space c then sep_ahead p r else p c
  end.

Fixpoint sub_around (p : ascii -> bool) (after : bool) (t : str) : str :=
  match t with
  | [] => []
  | c :: r =>
      if p c then c :: sub_around p true r
      else if is_space c then
        if after || sep_ahead p r then sub_around p after r
        else c :: sub_around p false r
      else c :: sub_around p false r
  end.

(** [re.sub(r"\s+", " ", text)]. *)
Fixpoint sub_ws_runs (in_run : bool) (t : str) : str :=
  match t with
  | [] => []
  | c :: r =>
      if is_space c then
        if in_run then sub_ws_runs true r else " "%char :: sub_ws_runs true r
      else c :: sub_ws_runs false r
  end.

(** [re.sub(r"([A-Za-z0-9._%+-]+)@([A-Za-z0-9.-]+)_([A-Za-z]{2,})$",
            r"\1@\2.\3", text)].
    Read from the end of the string: at least two letters, an underscore, a
    non-empty run of domain characters, an [@] and a character of the local
    part.  The underscore is the only character that changes. *)
Definition sub_trailing_underscore (t : str) : str :=
  let r := rev t in
  let tld := take_while is_alpha r in
  match drop_while is_alpha r with
  | u :: r1 =>
      let dom := take_while is_domain_char r1 in
      match drop_while is_domain_char r1 with
      | a :: l :: _ =>
          if is_char "_" u && (2 <=? length tld)%nat
             && negb (length dom =? 0)%nat
             && is_char "@" a && is_local_char l
          then rev (tld ++ "."%char :: r1)
          else t
      | _ => t
      end
  | [] => t
  end.

Definition normalize_email (text : str) : str :=
  let text := normalize_spaces text in
  let text := sub_around (is_char "@") false text in
  let text := sub_around (is_char ".") false text in
  let text := sub_around (is_char "_") false text in
  sub_trailing_underscore text.

Definition normalize_date_token (text : str) : str :=
  let text := normalize_spaces text in
  sub_around is_date_sep false text.

Definition normalize_phone (text : str) : str :=
  let text := normalize_spaces text in
  sub_ws_runs false text.

Definition normalize_iban (text : str) : str :=
  let cleaned := filter (fun c => negb (is_space c)) (upper text) in
  if (4 <=? length cleaned)%nat then
    let check_digits := firstn 2 (skipn 2 cleaned) in
    if contains "O" check_digits then
      firstn 2 cleaned ++ replace_char "O" "0" check_digits ++ skipn 4 cleaned
    else cleaned
  else cleaned.

(** [re.sub(r"\D", "", text)]. *)
Definition digits_only (text : str) : str := filter is_digit text.

(** [int(text)] on a string of decimal digits, and [int(ch)] on one. *)
Definition int_of_char (c : ascii) : Z := Z.of_nat (ord c) - 48.
Definition int_of_digits (t : str) : Z :=
  fold_left (fun acc c => acc * 10 + int_of_char c)%Z t 0%Z.

(** [str(n)] for an integer. *)
Definition str_of_Z (n : Z) : str := L (NilZero.string_of_int (Z.to_int n)).

(** ** Strict patterns *)

(** [EMAIL_REGEX = ^[A-Z0-9._%+-]+@[A-Z0-9.-]+\.[A-Z]{2,}$], ignoring case.
    No class holds [@] and the last class holds no dot, so the local part is
    the longest run before the [@] and the top-level domain the longest run
    of letters at the end. *)
Definition EMAIL_REGEX_body (t : str) : option unit :=
  let loc := take_while is_local_char t in
  match drop_while is_local_char t with
  | a :: rest =>
      let r := rev rest in
      let tld := take_while is_alpha r in
      match drop_while is_alpha r with
      | d :: dom =>
          guard (is_char "@" a && negb (length loc =? 0)%nat
                 && is_char "." d && (2 <=? length tld)%nat
                 && negb (length dom =? 0)%nat && forallb is_domain_char dom)
      | [] => None
      end
  | [] => None
  end.

Definition EMAIL_REGEX_match (t : str) : bool :=
  matched (at_dollar EMAIL_REGEX_body t).

(** [IBAN_REGEX = ^[A-Z]{2}\d{2}[A-Z0-9]{11,30}$]. *)
Definition IBAN_REGEX_body (t : str) : option unit :=
  match t with
  | a :: b :: c :: d :: rest =>
      guard (is_upper a && is_upper b && is_digit c && is_digit d
             && forallb is_upper_alnum rest
             && (11 <=? length rest)%nat && (length rest <=? 30)%nat)
  | _ => None
  end.

Definition IBAN_REGEX_match (t : str) : bool :=
  matched (at_dollar IBAN_REGEX_body t).

(** [PHONE_REGEX = ^(?:\+|0)[0-9][0-9\s().-]{5,}$]. *)
Definition PHONE_REGEX_body (t : str) : option unit :=
  match t with
  | a :: b :: rest =>
      guard ((is_char "+" a || is_char "0" a) && is_digit b
             && forallb is_phone_char rest && (5 <=? length rest)%nat)
  | _ => None
  end.

Definition PHONE_REGEX_match (t : str) : bool :=
  matched (at_dollar PHONE_REGEX_body t).

(** The groups of the date patterns: [0?[1-9]|[12][0-9]|3[01]] (day),
    [0?[1-9]|1[0-2]] (month), [\d{2}|\d{4}] and [\d{4}] (year). *)
Definition day_group (d : str) : bool :=
  match d with
  | [a] => in_range 49 57 a
  | [a; b] =>
      (is_char "0" a && in_range 49 57 b)
      || ((is_char "1" a || is_char "2" a) && is_digit b)
      || (is_char "3" a && (is_char "0" b || is_char "1" b))
  | _ => false
  end.

Definition month_group (d : str) : bool :=
  match d with
  | [a] => in_range 49 57 a
  | [a; b] =>
      (is_char "0" a && in_range 49 57 b)
      || (is_char "1" a && in_range 48 50 b)
  | _ => false
  end.

Definition year24_group (d : str) : bool :=
  forallb is_digit d && ((length d =? 2)%nat || (length d =? 4)%nat).

Definition year4_group (d : str) : bool :=
  forallb is_digit d && (length d =? 4)%nat.

(** The frame both date patterns share: [^(g1)[./-](g2)[./-](g3)$] with
    three groups of digits.  A group that a separator follows is the longest
    run of digits there. *)
Definition date_frame (g1 g2 g3 : str -> bool) (t : str)
  : option (str * str * str) :=
  let p1 := take_while is_digit t in
  match drop_while is_digit t with
  | s1 :: r1 =>
      let p2 := take_while is_digit r1 in
      match drop_while is_digit r1 with
      | s2 :: p3 =>
          if is_date_sep s1 && is_date_sep s2 && g1 p1 && g2 p2 && g3 p3
          then Some (p1, p2, p3) else None
      | [] => None
      end
  | [] => None
  end.

(** [DATE_REGEXES]: day, month, year of two or four digits; and year of four
    digits, month, day. *)
Definition DATE_REGEXES : list (str -> option (str * str * str)) :=
  [ at_dollar (date_frame day_group month_group year24_group);
    at_dollar (date_frame year4_group month_group day_group) ].

(** ** Scores *)

Definition clamp_score (value : Q) : Q := Qmax 0.0 (Qmin 1.0 value)%Q.

Definition Qltb (x y : Q) : bool := negb (Qle_bool y x).

(** The suffixes of a string, the places where [re.search] tries a pattern. *)
Fixpoint tails (t : str) : list str :=
  match t with
  | [] => [[]]
  | _ :: r => t :: tails r
  end.

(** [\d{1,4}[./-]\d{1,2}[./-]\d{1,4}] at the start of [t]. *)
Definition date_shape_here (t : str) : bool :=
  let p1 := take_while is_digit t in
  match drop_while is_digit t with
  | s1 :: r1 =>
      let p2 := take_while is_digit r1 in
      match drop_while is_digit r1 with
      | s2 :: c :: _ =>
          is_date_sep s1 && is_date_sep s2
          && (1 <=? length p1)%nat && (length p1 <=? 4)%nat
          && (1 <=? length p2)%nat && (length p2 <=? 2)%nat
          && is_digit c
      | _ => false
      end
  | [] => false
  end.

(** [re.findall(r"\d+", text)]: the maximal runs of digits, [cur] being the
    run under way, last digit first. *)
Fixpoint findall_digits (cur : str) (t : str) : list str :=
  match t with
  | [] => match cur with [] => [] | _ => [rev cur] end
  | c :: r =>
      if is_digit c then findall_digits (c :: cur) r
      else match cur with
           | [] => findall_digits [] r
           | _ => rev cur :: findall_digits [] r
           end
  end.

Fixpoint score_date_loop (regexes : list (str -> option (str * str * str)))
  (cleaned : str) : option (bool * Q) :=
  match regexes with
  | [] => None
  | regex :: rest =>
      match regex cleaned with
      | Some (p0, p1, p2) =>
          let '(year, month, day) :=
            if (length p0 =? 4)%nat
            then (int_of_digits p0, int_of_digits p1, int_of_digits p2)
            else (int_of_digits p2, int_of_digits p1, int_of_digits p0) in
          if ((1 <=? month) && (month <=? 12) && (1 <=? day) && (day <=? 31)
              && (1900 <=? year) && (year <=? 2100))%Z
          then Some (true, 1.0%Q)
          else Some (true, 0.85%Q)
      | None => score_date_loop rest cleaned
      end
  end.

Definition score_date (text : str) : bool * Q :=
  let cleaned := normalize_spaces text in
  match score_date_loop DATE_REGEXES cleaned with
  | Some r => r
  | None =>
      let score := 0.0%Q in
      let score :=
        if existsb date_shape_here (tails cleaned) then (score + 0.4)%Q else score in
      let score := if existsb is_date_sep cleaned then (score + 0.2)%Q else score in
      let nums := findall_digits [] cleaned in
      let score := if (3 <=? length nums)%nat then (score + 0.2)%Q else score in
      let score :=
        if existsb (fun n => (length n =? 4)%nat) nums then (score + 0.2)%Q
        else score in
      (false, clamp_score score)
  end.

(** [ord(ch) - 55] written in decimal for a letter, the digit itself for a
    digit. *)
Definition convert_char (ch : ascii) : str :=
  if is_digit ch then [ch] else str_of_Z (Z.of_nat (ord ch) - 55).

Definition iban_checksum_ok (iban : str) : bool :=
  let iban := normalize_iban iban in
  if negb (IBAN_REGEX_match iban) then false
  else
    let rearranged := skipn 4 iban ++ firstn 4 iban in
    let converted := flat_map convert_char rearranged in
    let remainder :=
      fold_left (fun remainder ch => (remainder * 10 + int_of_char ch) mod 97)%Z
                converted 0%Z in
    (remainder =? 1)%Z.

(** [re.match(r"^[A-Z]{2}", t)], [re.match(r"^[A-Z]{2}\d{2}", t)] and
    [re.match(r"^[A-Z0-9]+$", t)]. *)
Definition starts_two_letters (t : str) : bool :=
  match t with
  | a :: b :: _ => is_upper a && is_upper b
  | _ => false
  end.

Definition starts_two_letters_two_digits (t : str) : bool :=
  match t with
  | a :: b :: c :: d :: _ => is_upper a && is_upper b && is_digit c && is_digit d
  | _ => false
  end.

Definition all_upper_alnum (t : str) : bool :=
  matched (at_dollar
             (fun t => guard (negb (length t =? 0)%nat && forallb is_upper_alnum t))
             t).

Definition score_iban (text : str) : bool * Q :=
  let cleaned := normalize_iban text in
  if IBAN_REGEX_match cleaned then
    (true, if iban_checksum_ok cleaned then 1.0%Q else 0.7%Q)
  else
    let score := 0.0%Q in
    let score := if starts_two_letters cleaned then (score + 0.3)%Q else score in
    let score :=
      if starts_two_letters_two_digits cleaned then (score + 0.2)%Q else score in
    let length := length cleaned in
    let score :=
      if (12 <=? length)%nat && (length <=? 34)%nat then (score + 0.2)%Q else score in
    let score := if all_upper_alnum cleaned then (score + 0.2)%Q else score in
    let score := if (15 <=? length)%nat then (score + 0.1)%Q else score in
    (false, clamp_score score).

(** [re.search(r"^\+?\d", t)]. *)
Definition starts_plus_digit (t : str) : bool :=
  match t with
  | a :: r =>
      is_digit a
      || (is_char "+" a && match r with b :: _ => is_digit b | [] => false end)
  | [] => false
  end.

Definition score_phone (text : str) : bool * Q :=
  let cleaned := normalize_phone text in
  if PHONE_REGEX_match cleaned then
    let digit_count := length (digits_only cleaned) in
    if (7 <=? digit_count)%nat && (digit_count <=? 15)%nat then (true, 1.0%Q)
    else (true, 0.8%Q)
  else
    let score := 0.0%Q in
    let digit_count := length (digits_only cleaned) in
    let score := if (7 <=? digit_count)%nat then (score + 0.4)%Q else score in
    let score := if (digit_count <=? 15)%nat then (score + 0.2)%Q else score in
    let score :=
      if existsb (fun c => is_char "+" c || is_char "(" c || is_char ")" c
                           || is_char "-" c || is_space c) cleaned
      then (score + 0.2)%Q else score in
    let score := if starts_plus_digit cleaned then (score + 0.2)%Q else score in
    (false, clamp_score score).

(** ** Edit distance *)

(** One row of the table: [prev] is [dp[i-1][j-1:]], [left] is [dp[i][j-1]]
    and the result is [dp[i][j:]]. *)
Fixpoint dp_row (ai : ascii) (b : str) (prev : list nat) (left : nat)
  : list nat :=
  match b, prev with
  | bj :: b', diag :: ((up :: _) as prev') =>
      let cost := if Ascii.eqb ai bj then 0 else 1 in
      let v := Nat.min (Nat.min (up + 1) (left + 1)) (diag + cost) in
      v :: dp_row ai b' prev' v
  | _, _ => []
  end.

(** The rows for the characters [a[i:]], from row [i], which is [prev]; the
    result is the last row.  Only the row above is read, so only it is
    kept. *)
Fixpoint dp_rows (a b : str) (i : nat) (prev : list nat) : list nat :=
  match a with
  | [] => prev
  | ai :: a' => dp_rows a' b (S i) (S i :: dp_row ai b prev (S i))
  end.

Definition edit_distance (a b : str) : nat :=
  if str_eqb a b then 0
  else match a, b with
       | [], _ => length b
       | _, [] => length a
       | _, _ => last (dp_rows a b 0 (seq 0 (S (length b)))) 0
       end.

(** ** Repair candidates of an address *)

Definition COMMON_TLDS : list str :=
  map L ["com"; "net"; "org"; "de"; "at"; "ch"; "fr"; "es"; "it"; "nl"; "be";
         "uk"; "co"; "edu"; "gov"; "info"; "io"]%string.

Definition str_dec : forall a b : str, {a = b} + {a <> b} :=
  list_eq_dec ascii_dec.

Definition _add_email_candidate (candidates : list str) (candidate : str)
  : list str :=
  if EMAIL_REGEX_match candidate then set_add str_dec candidate candidates
  else candidates.

Definition _add_domain_fixes (candidates : list str) (local domain : str)
  : list str :=
  match local, domain with
  | [], _ | _, [] => candidates
  | _, _ =>
      if contains "." domain then
        _add_email_candidate candidates (local ++ "@"%char :: domain)
      else
        let candidates :=
          fold_left
            (fun cs i =>
               _add_email_candidate cs
                 (local ++ "@"%char :: firstn i domain ++ "."%char :: skipn i domain))
            (seq 1 (length domain - 1)) candidates in
        fold_left
          (fun cs tld =>
             _add_email_candidate cs (local ++ "@"%char :: domain ++ "."%char :: tld))
          COMMON_TLDS candidates
  end.

(** The three calls made for one split into [local] and [domain]. *)
Definition add_split_fixes (candidates : list str) (local domain : str)
  : list str :=
  let candidates := _add_domain_fixes candidates local domain in
  if contains "_" domain then
    let candidates :=
      _add_domain_fixes candidates local (replace_char "_" "." domain) in
    _add_domain_fixes candidates local (delete_char "_" domain)
  else candidates.

Definition email_candidates (text : str) : list str :=
  let candidates := _add_email_candidate [] text in
  if contains "@" text then
    let local := take_while (fun c => negb (is_char "@" c)) text in
    let domain := tl (drop_while (fun c => negb (is_char "@" c)) text) in
    add_split_fixes candidates local domain
  else
    fold_left
      (fun cs i => add_split_fixes cs (firstn i text) (skipn i text))
      (seq 1 (length text - 1)) candidates.

(** The closeness of one candidate: [1.0 - edits / max(len(candidate), 1)]. *)
Definition closeness (cleaned candidate : str) : Q :=
  let edits := edit_distance cleaned candidate in
  let denom := Nat.max (length candidate) 1 in
  (1.0 - inject_Z (Z.of_nat edits) / inject_Z (Z.of_nat denom))%Q.

Definition score_email (text : str) : bool * Q :=
  let cleaned := normalize_email text in
  if EMAIL_REGEX_match cleaned then (true, 1.0%Q)
  else
    let candidates := email_candidates cleaned in
    match candidates with
    | [] => (false, 0.0%Q)
    | _ =>
        let best_score :=
          fold_left
            (fun best_score candidate =>
               let score := closeness cleaned candidate in
               if Qltb best_score score then score else best_score)
            candidates 0.0%Q in
        (false, clamp_score best_score)
    end.

(** ** Entity types, the scorer and the validity test *)

Inductive entity_type : Type := Date | Iban | Phone | Email.

Definition score_entity (t : entity_type) (text : str) : bool * Q :=
  match t with
  | Date => score_date text
  | Iban => score_iban text
  | Phone => score_phone text
  | Email => score_email text
  end.

Definition is_valid_date (text : str) : bool := fst (score_date text).

Definition is_valid_email (text : str) : bool :=
  EMAIL_REGEX_match (normalize_email text).

Definition is_valid_iban (text : str) : bool :=
  let cleaned := normalize_iban text in
  if negb (IBAN_REGEX_match cleaned) then false
  else iban_checksum_ok cleaned.

Definition is_valid_phone (text : str) : bool :=
  let cleaned := normalize_phone text in
  if existsb is_alpha cleaned then false
  else
    let digit_count := length (digits_only cleaned) in
    if (digit_count <? 7)%nat || (15 <? digit_count)%nat then false
    else if negb (PHONE_REGEX_match cleaned) then false
    else if negb (existsb (fun c => is_char "+" c || is_char "(" c
                                    || is_char ")" c || is_space c
                                    || is_char "." c || is_char "-" c) cleaned)
    then false
    else true.

Definition is_valid_entity (t : entity_type) (text : str) : bool :=
  match t with
  | Date => is_valid_date text
  | Iban => is_valid_iban text
  | Phone => is_valid_phone text
  | Email => is_valid_email text
  end.

(** [classify_text]: the four scores, in the order of the dictionary, and
    the first type of the highest score. *)
Record classification : Type := mk_classification
  { best : entity_type; best_score : Q;
    results : list (entity_type * (bool * Q)) }.

Definition classify_text (text : str) : classification :=
  let date := (Date, score_date text) in
  let results :=
    [date; (Iban, score_iban text); (Phone, score_phone text);
     (Email, score_email text)] in
  let best_type :=
    fold_left
      (fun b x => if Qltb (snd (snd b)) (snd (snd x)) then x else b)
      results date in
  {| best := fst best_type; best_score := snd (snd best_type);
     results := results |}.

(** The entry of a type in the results. *)
Definition result_of (t : entity_type) (c : classification)
  : option (bool * Q) :=
  match filter (fun x => match fst x, t with
                         | Date, Date | Iban, Iban | Phone, Phone
                         | Email, Email => true
                         | _, _ => false
                         end) (results c) with
  | x :: _ => Some (snd x)
  | [] => None
  end.

(** The normaliser the matcher applies to a match of each type. *)
Definition normalize (t : entity_type) (text : str) : str :=
  match t with
  | Date => normalize_date_token text
  | Iban => normalize_iban text
  | Phone => normalize_phone text
  | Email => normalize_email text
  end.

(** ** Geometry of the detections *)

(** The dictionary [_bbox_metrics] builds for a token, which a line copies
    and then updates. *)
Record box : Type := mk_box
  { min_x : Q; max_x : Q; min_y : Q; max_y : Q; height : Q }.

Record item : Type := mk_item { text : str; conf : Q; item_box : box }.

Record line : Type := mk_line { items : list item; line_box : box }.

(** [min] and [max] of a non-empty sequence: the first of the smallest, or
    of the largest, elements. *)
Definition min_of (first : Q) (rest : list Q) : Q := fold_left Qmin rest first.
Definition max_of (first : Q) (rest : list Q) : Q := fold_left Qmax rest first.

(** [_bbox_metrics] on a polygon of at least one point. *)
Definition _bbox_metrics (pt : Q * Q) (bbox : list (Q * Q)) : box :=
  let min_x := min_of (fst pt) (map fst bbox) in
  let max_x := max_of (fst pt) (map fst bbox) in
  let min_y := min_of (snd pt) (map snd bbox) in
  let max_y := max_of (snd pt) (map snd bbox) in
  {| min_x := min_x; max_x := max_x; min_y := min_y; max_y := max_y;
     height := (max_y - min_y)%Q |}.

(** [x or 1.0]. *)
Definition or_one (x : Q) : Q := if Qeq_bool x 0 then 1.0%Q else x.

Definition _overlap_ratio (line_box item_box : box) : Q :=
  let overlap :=
    Qmax 0.0 (Qmin (max_y line_box) (max_y item_box)
              - Qmax (min_y line_box) (min_y item_box))%Q in
  let denom := or_one (Qmin (height line_box) (height item_box)) in
  (overlap / denom)%Q.

(** ** Sorting *)

(** [sorted] and [list.sort] are stable: the result is the one ordered
    permutation in which elements of equal keys keep their order.  [ltb] is
    [<] on the keys. *)
Section Sorting.
Context {A : Type} (ltb : A -> A -> bool).

Fixpoint insert_sorted (x : A) (l : list A) : list A :=
  match l with
  | [] => [x]
  | y :: r => if ltb y x then y :: insert_sorted x r else x :: y :: r
  end.

Definition sorted_by (l : list A) : list A := fold_right insert_sorted [] l.
End Sorting.

(** [<] on the tuples [(min_y, min_x)]: the first components decide unless
    they are equal. *)
Definition key_ltb (k1 k2 : Q * Q) : bool :=
  Qltb (fst k1) (fst k2)
  || (Qeq_bool (fst k1) (fst k2) && Qltb (snd k1) (snd k2)).

Definition box_key (b : box) : Q * Q := (min_y b, min_x b).

Definition item_ltb (a b : item) : bool :=
  key_ltb (box_key (item_box a)) (box_key (item_box b)).

Definition item_x_ltb (a b : item) : bool :=
  Qltb (min_x (item_box a)) (min_x (item_box b)).

Definition line_ltb (a b : line) : bool :=
  key_ltb (box_key (line_box a)) (box_key (line_box b)).

(** ** Line clustering *)

(** The inner loop over the lines: [i] is the index of the line at the head,
    [matched] the index of the best line so far. *)
Fixpoint best_line (lines : list line) (b : box) (i : nat)
  (matched : option nat) (best_ratio : Q) : option nat * Q :=
  match lines with
  | [] => (matched, best_ratio)
  | ln :: rest =>
      let ratio := _overlap_ratio (line_box ln) b in
      if Qltb best_ratio ratio then best_line rest b (S i) (Some i) ratio
      else best_line rest b (S i) matched best_ratio
  end.

(** What the loop does to the matched line. *)
Definition absorb (matched : line) (it : item) : line :=
  let lb := line_box matched in
  let ib := item_box it in
  let min_y' := Qmin (min_y lb) (min_y ib) in
  let max_y' := Qmax (max_y lb) (max_y ib) in
  {| items := items matched ++ [it];
     line_box :=
       {| min_x := Qmin (min_x lb) (min_x ib);
          max_x := Qmax (max_x lb) (max_x ib);
          min_y := min_y';
          max_y := max_y';
          height := (max_y' - min_y')%Q |} |}.

Definition new_line (it : item) : line :=
  {| items := [it]; line_box := item_box it |}.

Fixpoint update_nth {A : Type} (i : nat) (f : A -> A) (l : list A) : list A :=
  match l, i with
  | [], _ => []
  | x :: r, O => f x :: r
  | x :: r, S i' => x :: update_nth i' f r
  end.

(** The body of the outer loop, for one token. *)
Definition place (y_overlap_thresh : Q) (lines : list line) (it : item)
  : list line :=
  match best_line lines (item_box it) 0 None 0.0%Q with
  | (Some i, best_ratio) =>
      if Qle_bool y_overlap_thresh best_ratio
      then update_nth i (fun ln => absorb ln it) lines
      else lines ++ [new_line it]
  | (None, _) => lines ++ [new_line it]
  end.

Definition sort_line_items (ln : line) : line :=
  {| items := sorted_by item_x_ltb (items ln); line_box := line_box ln |}.

Definition cluster_loop (y_overlap_thresh : Q) (sorted_items : list item)
  : list line :=
  fold_left (place y_overlap_thresh) sorted_items [].

Definition _group_items_into_lines (items : list item) (y_overlap_thresh : Q)
  : list line :=
  let lines := cluster_loop y_overlap_thresh (sorted_by item_ltb items) in
  let lines := map sort_line_items lines in
  sorted_by line_ltb lines.

(** ** Locating entities *)

Record found : Type := mk_found
  { raw : str; normalized : str; span : nat * nat }.

(** The box [_merge_boxes] returns: it has no height. *)
Record merged_box : Type := mk_merged
  { m_min_x : Q; m_min_y : Q; m_max_x : Q; m_max_y : Q }.

Record result : Type := mk_result
  { value : str; r_raw : str; r_box : merged_box; r_conf : Q; r_score : Q;
    r_match : bool; r_type : entity_type }.

(** The loop of [_line_text_and_offsets]: [parts] are the pieces so far, in
    order, and [offsets] the triples so far. *)
Fixpoint line_text_loop (tokens : list item) (idx pos : nat)
  (parts : list str) (offsets : list (nat * nat * nat))
  : list str * list (nat * nat * nat) :=
  match tokens with
  | [] => (parts, offsets)
  | token :: rest =>
      let '(parts, pos) :=
        match parts with
        | [] => (parts, pos)
        | _ => (parts ++ [L " "], pos + 1)
        end in
      let start := pos in
      let parts := parts ++ [text token] in
      let pos := pos + length (text token) in
      line_text_loop rest (S idx) pos parts (offsets ++ [(start, pos, idx)])
  end.

Definition _line_text_and_offsets (tokens : list item)
  : str * list (nat * nat * nat) :=
  let '(parts, offsets) := line_text_loop tokens 0 0 [] [] in
  (concat parts, offsets).

Definition _token_indices_for_span (offsets : list (nat * nat * nat))
  (start end_ : nat) : list nat :=
  map (fun o => snd o)
      (filter (fun o => let '(token_start, token_end, _) := o in
                        (start <? token_end) && (token_start <? end_))
              offsets).

(** [_merge_boxes] on a non-empty list of tokens. *)
Definition _merge_boxes (token : item) (tokens : list item) : merged_box :=
  let on (f : box -> Q) := map (fun t => f (item_box t)) tokens in
  {| m_min_x := min_of (min_x (item_box token)) (on min_x);
     m_min_y := min_of (min_y (item_box token)) (on min_y);
     m_max_x := max_of (max_x (item_box token)) (on max_x);
     m_max_y := max_of (max_y (item_box token)) (on max_y) |}.

(** [round(x, 1)], counted in tenths: the nearest tenth, the even one of two
    that are equally near. *)
Definition round_1 (x : Q) : Z :=
  let n := (10 * Qnum x)%Z in
  let d := Zpos (Qden x) in
  let f := (n / d)%Z in
  let r := (n mod d)%Z in
  match (2 * r ?= d)%Z with
  | Lt => f
  | Gt => (f + 1)%Z
  | Eq => if Z.even f then f else (f + 1)%Z
  end.

Definition dedupe_key : Type := str * Z * Z * Z * Z.

Definition result_key (r : result) : dedupe_key :=
  (value r, round_1 (m_min_x (r_box r)), round_1 (m_min_y (r_box r)),
   round_1 (m_max_x (r_box r)), round_1 (m_max_y (r_box r))).

Definition key_eqb (k1 k2 : dedupe_key) : bool :=
  let '(v1, a1, b1, c1, d1) := k1 in
  let '(v2, a2, b2, c2, d2) := k2 in
  (str_eqb v1 v2 && (a1 =? a2) && (b1 =? b2) && (c1 =? c2) && (d1 =? d2))%Z.

Fixpoint dedupe_loop (results : list result) (seen : list dedupe_key)
  : list result :=
  match results with
  | [] => []
  | r :: rest =>
      let key := result_key r in
      if existsb (key_eqb key) seen then dedupe_loop rest seen
      else r :: dedupe_loop rest (key :: seen)
  end.

Definition _dedupe_results (results : list result) : list result :=
  dedupe_loop results [].

Definition result_ltb (a b : result) : bool :=
  key_ltb (m_min_y (r_box a), m_min_x (r_box a))
          (m_min_y (r_box b), m_min_x (r_box b)).

Definition option_list {A : Type} (o : option A) : list A :=
  match o with Some a => [a] | None => [] end.

(** The tokens a span touches: [token_indices] and then [selected].  Every
    index comes from [offsets], which numbers the tokens of the line. *)
Definition selected_tokens (tokens : list item)
  (offsets : list (nat * nat * nat)) (start end_ : nat) : list item :=
  let token_indices := _token_indices_for_span offsets start end_ in
  flat_map (fun idx => option_list (nth_error tokens idx)) token_indices.

(** The body of the loop over the matches of one line: [None] is
    [continue], [Some r] is the result appended. *)
Definition locate_match (tokens : list item) (offsets : list (nat * nat * nat))
  (t : entity_type) (min_score : option Q) (require_valid : bool) (m : found)
  : option result :=
  let value := normalized m in
  let '(is_match, score) := score_entity t value in
  if match min_score with Some ms => Qltb score ms | None => false end
  then None
  else if require_valid && negb (is_valid_entity t value) then None
  else
    let '(start, end_) := span m in
    let selected := selected_tokens tokens offsets start end_ in
    match selected with
    | [] => None
    | tok :: others =>
        let box := _merge_boxes tok others in
        let conf :=
          (fold_left Qplus (map conf selected) 0
           / inject_Z (Z.of_nat (length selected)))%Q in
        Some {| value := value; r_raw := raw m; r_box := box; r_conf := conf;
                r_score := score; r_match := is_match; r_type := t |}
    end.

Section Locator.
(** The matcher, [myregex.find_matches_for_type]: the locator passes it
    the text of a line and only reads the matches it returns. *)
Variable find_matches_for_type : str -> entity_type -> list found.

Definition locate_line (t : entity_type) (min_score : option Q)
  (require_valid : bool) (ln : line) : list result :=
  let tokens := items ln in
  let '(line_text, offsets) := _line_text_and_offsets tokens in
  let matches := find_matches_for_type line_text t in
  flat_map
    (fun m =>
       option_list (locate_match tokens offsets t min_score require_valid m))
    matches.

(** The results before de-duplication. *)
Definition located (lines : list line) (t : entity_type)
  (min_score : option Q) (require_valid : bool) : list result :=
  flat_map (locate_line t min_score require_valid) lines.

Definition _locate_entities_in_lines (lines : list line) (t : entity_type)
  (min_score : option Q) (require_valid : bool) : list result :=
  let results := located lines t min_score require_valid in
  let results := _dedupe_results results in
  sorted_by result_ltb results.
End Locator.

(** * Definitions used to state the properties *)


(** The numerator of the overlap ratio, and the ratio with its denominator
    floored at [1.0]. *)
Definition vertical_overlap (line_box item_box : box) : Q :=
  Qmax 0.0 (Qmin (max_y line_box) (max_y item_box)
            - Qmax (min_y line_box) (min_y item_box))%Q.

Definition floored_overlap_ratio (line_box item_box : box) : Q :=
  (vertical_overlap line_box item_box
   / Qmax 1 (Qmin (height line_box) (height item_box)))%Q.

Definition ratio_of (ln : line) (it : item) : Q :=
  _overlap_ratio (line_box ln) (item_box it).

(** The placement policy in words: the token joins the first of the lines
    whose ratio is the highest, when that ratio reaches the threshold, and
    opens a line of its own otherwise. *)
Definition placed (thresh : Q) (lines : list line) (it : item)
  (lines' : list line) : Prop :=
  (exists i ln,
      nth_error lines i = Some ln
      /\ (thresh <= ratio_of ln it)%Q
      /\ (forall ln', In ln' lines -> (ratio_of ln' it <= ratio_of ln it)%Q)
      /\ (forall j ln', j < i -> nth_error lines j = Some ln' ->
                        (ratio_of ln' it < ratio_of ln it)%Q)
      /\ lines' = update_nth i (fun l => absorb l it) lines)
  \/ ((forall ln, In ln lines -> (ratio_of ln it < thresh)%Q)
      /\ lines' = lines ++ [new_line it]).

(** Tokens placed one after the other, in the order given. *)
Inductive clustered (thresh : Q) : list line -> list item -> list line -> Prop :=
| clustered_done (lines : list line) : clustered thresh lines [] lines
| clustered_step (lines lines' lines'' : list line) (it : item) (rest : list item) :
    placed thresh lines it lines' ->
    clustered thresh lines' rest lines'' ->
    clustered thresh lines (it :: rest) lines''.

(** De-duplication in words: an entry stays, and the later entries of the
    same key go. *)
Fixpoint keep_first (results : list result) : list result :=
  match results with
  | [] => []
  | r :: rest =>
      r :: filter (fun x => negb (key_eqb (result_key x) (result_key r)))
                  (keep_first rest)
  end.

(** The number the ISO 7064 check reads off a string: a digit appends itself
    and a letter appends the two digits of [ord(letter) - 55]. *)
Definition iso7064_number (t : str) : Z :=
  fold_left
    (fun acc c =>
       if is_digit c then acc * 10 + int_of_char c
       else acc * 100 + (Z.of_nat (ord c) - 55))%Z
    t 0%Z.

(** The check itself: the first four characters go to the end, and the
    number read leaves the remainder 1 modulo 97. *)
Definition mod97_passes (iban : str) : bool :=
  (iso7064_number (skipn 4 iban ++ firstn 4 iban) mod 97 =? 1)%Z.

(** The characters that upper-casing and the removal of white space leave
    alone. *)
Definition settled (c : ascii) : Prop :=
  upper_char c = c /\ is_space c = false.

(** The score the specification gives an address that fails the grammar:
    some candidate [c] is nearest to the cleaned string in edit distance, and
    the score is one minus that distance over the length of [c], clamped. *)
Definition nearest_candidate_score (cleaned : str) (candidates : list str)
  (score : Q) : Prop :=
  exists c,
    In c candidates
    /\ (forall c', In c' candidates ->
                   edit_distance cleaned c <= edit_distance cleaned c')
    /\ (score == clamp_score
                   (1 - inject_Z (Z.of_nat (edit_distance cleaned c))
                        / inject_Z (Z.of_nat (length c))))%Q.

(** The closeness of one candidate, as the specification has it: one minus
    the edit distance over the length of the candidate, clamped. *)
Definition candidate_closeness (cleaned c : str) : Q :=
  clamp_score (1.0 - inject_Z (Z.of_nat (edit_distance cleaned c))
                     / inject_Z (Z.of_nat (length c)))%Q.

(** The strict date grammar, with the groups named: day, month and a year
    of two or four digits, or a year of four digits, month and day. *)
Inductive date_match (t : str) : str -> str -> str -> Prop :=
| day_first (d m y : str) (s1 s2 : ascii) :
    t = d ++ s1 :: m ++ s2 :: y ->
    is_date_sep s1 = true -> is_date_sep s2 = true ->
    day_group d = true -> month_group m = true -> year24_group y = true ->
    date_match t d m y
| year_first (d m y : str) (s1 s2 : ascii) :
    t = y ++ s1 :: m ++ s2 :: d ->
    is_date_sep s1 = true -> is_date_sep s2 = true ->
    year4_group y = true -> month_group m = true -> day_group d = true ->
    date_match t d m y.

(** The layouts as the specification words them: day and month of one or two
    digits, year of two or four, with no condition on their values. *)
Definition digit_run (lo hi : nat) (d : str) : bool :=
  forallb is_digit d && (lo <=? length d) && (length d <=? hi).

Definition date_layout (t : str) : bool :=
  matched (date_frame (digit_run 1 2) (digit_run 1 2) year24_group t)
  || matched (date_frame year4_group (digit_run 1 2) (digit_run 1 2) t).

(** A substring of the shape [D{1,4} sep D{1,2} sep D{1,4}]. *)
Definition has_date_shape (t : str) : Prop :=
  exists pre d1 s1 d2 s2 d3 post,
    t = pre ++ d1 ++ s1 :: d2 ++ s2 :: d3 ++ post
    /\ is_date_sep s1 = true /\ is_date_sep s2 = true
    /\ digit_run 1 4 d1 = true /\ digit_run 1 2 d2 = true
    /\ digit_run 1 4 d3 = true.

Definition bonus (b : bool) (q : Q) : Q := if b then q else 0.

(** The partial score of a string that is no date: four features, each
    with its bonus, summed and clamped. *)
Definition date_partial_score (t : str) (score : Q) : Prop :=
  exists b1 b2 b3 b4 : bool,
    (b1 = true <-> has_date_shape t)
    /\ (b2 = true <-> exists c, In c t /\ is_date_sep c = true)
    /\ (b3 = true <-> 3 <= length (findall_digits [] t))
    /\ (b4 = true <-> exists n, In n (findall_digits [] t) /\ length n = 4)
    /\ (score == clamp_score (bonus b1 0.4 + bonus b2 0.2 + bonus b3 0.2
                              + bonus b4 0.2))%Q.

(** *** Normal forms of the normalisers *)

Definition hd_space (t : str) : bool :=
  match t with c :: _ => is_space c | [] => false end.

(** No white space at either end. *)
Definition edges_clean (t : str) : Prop :=
  hd_space t = false /\ hd_space (rev t) = false.

(** No two neighbours related by [R]. *)
Definition free_of (R : ascii -> ascii -> bool) (t : str) : Prop :=
  forall pre c d post, t = pre ++ c :: d :: post -> R c d = false.

Definition double_space (c d : ascii) : bool :=
  is_char " " c && is_char " " d.

(** White space next to a character of the class [p]. *)
Definition glued (p : ascii -> bool) (c d : ascii) : bool :=
  (is_space c && p d) || (p c && is_space d).

(** Neither tab, carriage return nor newline. *)
Definition no_ctl (c : ascii) : Prop :=
  is_char "009" c = false /\ is_char "013" c = false
  /\ is_char "010" c = false.

(** What [normalize_spaces] leaves. *)
Definition spaces_normal (t : str) : Prop :=
  Forall no_ctl t /\ free_of double_space t /\ edges_clean t.

(** Two white-space characters side by side. *)
Definition space_pair (c d : ascii) : bool := is_space c && is_space d.

(** Every white-space character is a space. *)
Definition only_spaces (t : str) : Prop :=
  Forall (fun c => is_space c = true -> c = " "%char) t.

(** What the three scans of [normalize_email] leave. *)
Definition email_normal (t : str) : Prop :=
  spaces_normal t
  /\ free_of (glued (is_char "@")) t
  /\ free_of (glued (is_char ".")) t
  /\ free_of (glued (is_char "_")) t.

(** * Definitions used to state the further properties *)

(** An alignment of two strings and its cost: a character is kept,
    substituted, deleted or inserted, and all but the first cost one edit. *)
Inductive aligned : str -> str -> nat -> Prop :=
| aligned_nil : aligned [] [] 0
| aligned_keep (x : ascii) (a b : str) (n : nat) :
    aligned a b n -> aligned (x :: a) (x :: b) n
| aligned_subst (x y : ascii) (a b : str) (n : nat) :
    aligned a b n -> aligned (x :: a) (y :: b) (S n)
| aligned_delete (x : ascii) (a b : str) (n : nat) :
    aligned a b n -> aligned (x :: a) b (S n)
| aligned_insert (y : ascii) (a b : str) (n : nat) :
    aligned a b n -> aligned a (y :: b) (S n).

(** The recurrence the table of [edit_distance] follows, on the strings
    read from their last characters. *)
Fixpoint lev (a : str) : str -> nat :=
  match a with
  | [] => fun b => length b
  | x :: a' =>
      fix inner (b : str) : nat :=
        match b with
        | [] => S (length a')
        | y :: b' =>
            Nat.min (Nat.min (lev a' b + 1) (inner b' + 1))
                    (lev a' b' + (if Ascii.eqb x y then 0 else 1))
        end
  end.

(** The row of the table for the prefix whose reverse is [ra]: the entries
    from the column of the prefix whose reverse is [rb]. *)
Fixpoint row_from (ra rb rest : str) : list nat :=
  lev ra rb ::
  match rest with
  | [] => []
  | y :: rest' => row_from ra (y :: rb) rest'
  end.

(** A box lies inside another one. *)
Definition inside (outer : box) (inner : box) : Prop :=
  (min_x outer <= min_x inner)%Q /\ (max_x inner <= max_x outer)%Q
  /\ (min_y outer <= min_y inner)%Q /\ (max_y inner <= max_y outer)%Q.

(** The box of a line covers the boxes of its tokens. *)
Definition covers_items (ln : line) : Prop :=
  Forall (fun it => inside (line_box ln) (item_box it)) (items ln).

(** Two boxes share no vertical extent. *)
Definition vertically_apart (a b : box) : Prop :=
  (max_y a <= min_y b)%Q \/ (max_y b <= min_y a)%Q.

(** The texts of the tokens with one space between two of them. *)
Fixpoint join_spaces (texts : list str) : str :=
  match texts with
  | [] => []
  | t :: rest =>
      t ++ match rest with
           | [] => []
           | _ :: _ => " "%char :: join_spaces rest
           end
  end.

(** The offsets of the tokens when the first one starts at [pos] and has
    the index [idx]. *)
Fixpoint offsets_from (tokens : list item) (idx pos : nat)
  : list (nat * nat * nat) :=
  match tokens with
  | [] => []
  | t :: rest =>
      (pos, pos + length (text t), idx)
      :: offsets_from rest (S idx) (pos + length (text t) + 1)
  end.

(** [text[start:end]]. *)
Definition slice (t : str) (start end_ : nat) : str :=
  firstn (end_ - start) (skipn start t).

(** The range of a token meets the span. *)
Definition meets_span (start end_ : nat) (o : nat * nat * nat) : bool :=
  let '(token_start, token_end, _) := o in
  (start <? token_end) && (token_start <? end_).

(** ** The matcher, the extraction and the boxes of the pipeline *)

(** The compiled search patterns of [myregex]. *)
Inductive search_pattern : Type :=
| DATE_FIND_REGEX_0
| DATE_FIND_REGEX_1
| EMAIL_FIND_REGEX
| IBAN_FIND_REGEX
| PHONE_FIND_REGEX.

(** [re.search(r"[+()\s.-]", t)]. *)
Definition has_phone_punct (t : str) : bool :=
  existsb (fun c => is_char "+" c || is_char "(" c || is_char ")" c
                    || is_space c || is_char "." c || is_char "-" c) t.






(** The loop of [extract_entities] over the matches of one type. *)
Fixpoint unique_values (matches : list found) (seen : list str) : list str :=
  match matches with
  | [] => []
  | m :: rest =>
      let value := normalized m in
      if existsb (str_eqb value) seen then unique_values rest seen
      else value :: unique_values rest (value :: seen)
  end.

Section Matcher.
(** The regex engine: [finditer regex text] lists, for each match of the
    pattern from left to right, [match.group(0)] and [match.span()]. *)
Variable finditer : search_pattern -> str -> list (str * (nat * nat)).

Definition find_matches_for_type (text : str) (t : entity_type) : list found :=
  match t with
  | Date =>
      flat_map
        (fun regex =>
           map (fun m => {| raw := fst m;
                            normalized := normalize_date_token (fst m);
                            span := snd m |})
               (finditer regex text))
        [DATE_FIND_REGEX_0; DATE_FIND_REGEX_1]
  | Email =>
      map (fun m => {| raw := fst m; normalized := normalize_email (fst m);
                       span := snd m |})
          (finditer EMAIL_FIND_REGEX text)
  | Iban =>
      flat_map
        (fun m =>
           let raw := fst m in
           let normalized := normalize_iban raw in
           if (12 <=? length normalized) && (length normalized <=? 34)
           then [ {| raw := raw; normalized := normalized; span := snd m |} ]
           else [])
        (finditer IBAN_FIND_REGEX text)
  | Phone =>
      flat_map
        (fun m =>
           let raw := fst m in
           let normalized := normalize_phone raw in
           let digit_count := length (digits_only normalized) in
           if (digit_count <? 7) || (15 <? digit_count) then []
           else if existsb is_alpha normalized then []
           else if negb (has_phone_punct normalized) && (10 <? digit_count)
           then []
           else [ {| raw := raw; normalized := normalized; span := snd m |} ])
        (finditer PHONE_FIND_REGEX text)
  end.

Definition extract_entities (text : str) : list (entity_type * list str) :=
  map (fun key => (key, unique_values (find_matches_for_type text key) []))
      [Date; Iban; Phone; Email].


End Matcher.

(** [_clamp_rect] of the blurring scripts, on Python integers. *)
Definition _clamp_rect (x y w h width height : Z) : Z * Z * Z * Z :=
  let x := Z.max 0 (Z.min x (width - 1)) in
  let y := Z.max 0 (Z.min y (height - 1)) in
  let w := Z.max 1 (Z.min w (width - x)) in
  let h := Z.max 1 (Z.min h (height - y)) in
  (x, y, w, h).

(** A character no address can hold: outside the local part, not an [@]. *)
Definition foreign_char (c : ascii) : Prop :=
  is_local_char c = false /\ is_char "@" c = false.

(** A box whose height is the difference of its vertical bounds, as
    [_bbox_metrics] builds it. *)
Definition measured (b : box) : Prop :=
  (height b == max_y b - min_y b)%Q /\ (min_y b <= max_y b)%Q.

(** * Properties *)

(** ** Comparisons on rationals *)

Lemma Qltb_lt (x y : Q) : Qltb x y = true <-> (x < y)%Q.
Proof.
  unfold Qltb. rewrite negb_true_iff.
  split; intro H.
  - apply Qnot_le_lt. intro Hle. apply Qle_bool_iff in Hle. congruence.
  - destruct (Qle_bool y x) eqn:E; [|reflexivity].
    apply Qle_bool_iff in E. exfalso. exact (Qlt_not_le _ _ H E).
Qed.

Lemma Qltb_ge (x y : Q) : Qltb x y = false <-> (y <= x)%Q.
Proof.
  unfold Qltb. rewrite negb_false_iff. apply Qle_bool_iff.
Qed.


(** ** The stable insertion sort *)

Section SortingFacts.
Context {A : Type} (ltb : A -> A -> bool).
Hypothesis ltb_asym : forall a b, ltb a b = true -> ltb b a = false.

Lemma insert_sorted_perm (x : A) (l : list A) :
  Permutation (x :: l) (insert_sorted ltb x l).
Proof.
  induction l as [|y r IH]; simpl.
  - apply Permutation_refl.
  - destruct (ltb y x).
    + eapply perm_trans; [apply perm_swap|]. apply perm_skip, IH.
    + apply Permutation_refl.
Qed.

Lemma sorted_by_perm (l : list A) : Permutation l (sorted_by ltb l).
Proof.
  induction l as [|x l IH]; simpl.
  - apply perm_nil.
  - eapply perm_trans; [apply perm_skip, IH|]. apply insert_sorted_perm.
Qed.



End SortingFacts.





(** ** The overlap ratio *)

Lemma overlap_ratio_unfold (lb ib : box) :
  _overlap_ratio lb ib
  = (vertical_overlap lb ib / or_one (Qmin (height lb) (height ib)))%Q.
Proof. reflexivity. Qed.

(** C4, as the specification words it, fails: two boxes of height one half
    that coincide have ratio 1, where a denominator floored at 1.0 would
    give one half. *)
Lemma overlap_ratio_not_floored :
  let b := {| min_x := 0; max_x := 10; min_y := 0; max_y := 1 # 2;
              height := 1 # 2 |} in
  (_overlap_ratio b b == 1)%Q
  /\ (floored_overlap_ratio b b == 1 # 2)%Q
  /\ ~ (_overlap_ratio b b == floored_overlap_ratio b b)%Q.
Proof.
  cbv zeta. repeat split; try reflexivity.
  intro H. vm_compute in H. discriminate H.
Qed.

(** C4, amended: the ratio is the vertical overlap over the smaller of the two
    heights, and over 1.0 when that height is zero.  The denominator is the
    one floored at 1.0 exactly when the smaller height is zero or at least
    one. *)
Theorem overlap_ratio_denominator (lb ib : box) :
  let m := Qmin (height lb) (height ib) in
  exists denom : Q,
    _overlap_ratio lb ib = (vertical_overlap lb ib / denom)%Q
    /\ ((m == 0 /\ denom = 1.0)%Q \/ (~ m == 0 /\ denom = m)%Q)
    /\ ((denom == Qmax 1 m)%Q <-> (m == 0 \/ 1 <= m)%Q).
Proof.
  intro m. exists (or_one m). split; [reflexivity|].
  unfold or_one. destruct (Qeq_bool m 0) eqn:E.
  - apply Qeq_bool_iff in E. split; [left; split; [exact E|reflexivity]|].
    split; intro H.
    + left. exact E.
    + rewrite E. reflexivity.
  - assert (Hne : ~ (m == 0)%Q).
    { intro H. apply Qeq_bool_iff in H. congruence. }
    split; [right; split; [exact Hne|reflexivity]|].
    split; intro H.
    + right. rewrite H. apply Q.le_max_l.
    + destruct H as [H|H]; [contradiction|].
      symmetry. apply Q.max_r. exact H.
Qed.

(** ** Line clustering *)

(** What the inner loop returns, from any state: either nothing in [rest]
    beat the ratio so far, or the winner is the first line of [rest] with the
    highest ratio. *)
Lemma best_line_spec (b : box) (rest : list line) :
  forall (k : nat) (matched : option nat) (best : Q) (m : option nat) (r : Q),
    best_line rest b k matched best = (m, r) ->
    (forall ln, In ln rest -> (_overlap_ratio (line_box ln) b <= r)%Q)
    /\ ((m = matched /\ r = best)
        \/ (exists j ln,
               m = Some (k + j) /\ nth_error rest j = Some ln
               /\ _overlap_ratio (line_box ln) b = r /\ (best < r)%Q
               /\ forall j' ln', j' < j -> nth_error rest j' = Some ln' ->
                                 (_overlap_ratio (line_box ln') b < r)%Q)).
Proof.
  induction rest as [|ln rest IH]; intros k matched best m r H; simpl in H.
  - inversion H; subst. split; [intros ? []|]. left. split; reflexivity.
  - destruct (Qltb best (_overlap_ratio (line_box ln) b)) eqn:E.
    + apply Qltb_lt in E.
      destruct (IH _ _ _ _ _ H) as [Hall Hcase]. split.
      * intros ln' [<-|Hin]; [|apply Hall, Hin].
        destruct Hcase as [[_ ->]|(j & ln' & _ & _ & _ & Hlt & _)].
        -- apply Qle_refl.
        -- apply Qlt_le_weak, Hlt.
      * right. destruct Hcase as [[-> ->]|(j & ln' & -> & Hn & Hr & Hlt & Hbefore)].
        -- exists 0, ln. rewrite Nat.add_0_r. repeat split; try assumption.
           intros j' ln' Hj. inversion Hj.
        -- exists (S j), ln'. rewrite Nat.add_succ_r. repeat split; try assumption.
           ++ eapply Qlt_trans; eassumption.
           ++ intros [|j'] ln'' Hj Hn'; simpl in Hn'.
              ** inversion Hn'; subst. exact Hlt.
              ** eapply Hbefore; [|exact Hn']. lia.
    + apply Qltb_ge in E.
      destruct (IH _ _ _ _ _ H) as [Hall Hcase]. split.
      * intros ln' [<-|Hin]; [|apply Hall, Hin].
        destruct Hcase as [[_ ->]|(j & ln' & _ & _ & _ & Hlt & _)].
        -- exact E.
        -- eapply Qle_trans; [exact E|]. apply Qlt_le_weak, Hlt.
      * destruct Hcase as [[-> ->]|(j & ln' & -> & Hn & Hr & Hlt & Hbefore)].
        -- left. split; reflexivity.
        -- right. exists (S j), ln'. rewrite Nat.add_succ_r.
           repeat split; try assumption.
           intros [|j'] ln'' Hj Hn'; simpl in Hn'.
           ++ inversion Hn'; subst. eapply Qle_lt_trans; eassumption.
           ++ eapply Hbefore; [|exact Hn']. lia.
Qed.

(** The body of the loop follows the placement policy, for the threshold
    the pipeline uses. *)
Lemma place_placed (lines : list line) (it : item) :
  placed 0.5 lines it (place 0.5 lines it).
Proof.
  unfold place.
  destruct (best_line lines (item_box it) 0 None 0.0%Q) as [m r] eqn:E.
  destruct (best_line_spec _ _ _ _ _ _ _ E) as [Hall Hcase].
  assert (Hnew : (r < 0.5)%Q ->
                 placed 0.5 lines it (lines ++ [new_line it])).
  { intro Hr. right. split; [|reflexivity].
    intros ln Hin. eapply Qle_lt_trans; [apply Hall, Hin|exact Hr]. }
  destruct Hcase as [[-> ->]|(j & ln & -> & Hn & Hr & Hlt & Hbefore)].
  - apply Hnew. reflexivity.
  - simpl. destruct (Qle_bool 0.5 r) eqn:Ele.
    + apply Qle_bool_iff in Ele. left. exists j, ln.
      unfold ratio_of. rewrite Hr. repeat split; try assumption.
    + apply Hnew. apply Qnot_le_lt. intro Hle.
      apply Qle_bool_iff in Hle. congruence.
Qed.

Lemma cluster_loop_clustered (order : list item) :
  forall lines, clustered 0.5 lines order (fold_left (place 0.5) order lines).
Proof.
  induction order as [|it rest IH]; intro lines; simpl.
  - constructor.
  - econstructor; [apply place_placed|apply IH].
Qed.

(** The tokens of the lines, as one list. *)
Lemma update_nth_absorb_items (it : item) (lines : list line) :
  forall i ln, nth_error lines i = Some ln ->
    Permutation (flat_map items (update_nth i (fun l => absorb l it) lines))
                (it :: flat_map items lines).
Proof.
  induction lines as [|l lines IH]; intros [|i] ln H; simpl in *; try discriminate.
  - change (it :: items l ++ flat_map items lines)
      with ((it :: items l) ++ flat_map items lines).
    apply Permutation_app_tail.
    apply Permutation_sym, Permutation_cons_append.
  - eapply perm_trans; [apply Permutation_app_head, (IH _ _ H)|].
    apply Permutation_sym, Permutation_middle.
Qed.

Lemma placed_items (thresh : Q) (lines lines' : list line) (it : item) :
  placed thresh lines it lines' ->
  Permutation (flat_map items lines') (it :: flat_map items lines).
Proof.
  intros [(i & ln & Hn & _ & _ & _ & ->)|[_ ->]].
  - eapply update_nth_absorb_items, Hn.
  - rewrite flat_map_app. apply Permutation_sym. simpl.
    apply Permutation_cons_append.
Qed.

Lemma update_nth_Forall {A : Type} (P : A -> Prop) (f : A -> A) (l : list A) :
  (forall x, P (f x)) -> Forall P l -> forall i, Forall P (update_nth i f l).
Proof.
  intros Hf Hl. induction Hl as [|x l Hx Hl IH]; intros [|i]; simpl;
    constructor; auto.
Qed.

Lemma placed_nonempty (thresh : Q) (lines lines' : list line) (it : item) :
  placed thresh lines it lines' ->
  Forall (fun ln => items ln <> []) lines ->
  Forall (fun ln => items ln <> []) lines'.
Proof.
  intros [(i & ln & _ & _ & _ & _ & ->)|[_ ->]] Hall.
  - apply update_nth_Forall; [|exact Hall].
    intros x. simpl. intro H. apply app_eq_nil in H. destruct H; discriminate.
  - apply Forall_app. split; [exact Hall|].
    constructor; [discriminate|constructor].
Qed.

Lemma clustered_items (thresh : Q) (lines lines' : list line) (order : list item) :
  clustered thresh lines order lines' ->
  Permutation (flat_map items lines') (order ++ flat_map items lines).
Proof.
  induction 1 as [lines|lines lines' lines'' it rest Hp _ IH]; simpl.
  - apply Permutation_refl.
  - eapply perm_trans; [exact IH|].
    eapply perm_trans; [apply Permutation_app_head, (placed_items _ _ _ _ Hp)|].
    apply Permutation_sym, Permutation_middle.
Qed.

Lemma clustered_nonempty (thresh : Q) (lines lines' : list line) (order : list item) :
  clustered thresh lines order lines' ->
  Forall (fun ln => items ln <> []) lines ->
  Forall (fun ln => items ln <> []) lines'.
Proof.
  induction 1 as [lines|lines lines' lines'' it rest Hp _ IH]; intro Hall.
  - exact Hall.
  - apply IH. eapply placed_nonempty; eassumption.
Qed.

Lemma sort_line_items_flat (lines : list line) :
  Permutation (flat_map items (map sort_line_items lines)) (flat_map items lines).
Proof.
  induction lines as [|ln lines IH]; simpl.
  - apply perm_nil.
  - apply Permutation_app; [|exact IH].
    apply Permutation_sym, sorted_by_perm.
Qed.

Lemma sort_line_items_nonempty (ln : line) :
  items ln <> [] -> items (sort_line_items ln) <> [].
Proof.
  simpl. intros Hne Hnil. apply Hne.
  apply Permutation_nil. rewrite <- Hnil. apply Permutation_sym, sorted_by_perm.
Qed.

(** C10: the lines hold the tokens given, each once, and no line is empty. *)
Theorem cluster_partitions_tokens (tokens : list item) :
  Permutation (flat_map items (_group_items_into_lines tokens 0.5)) tokens
  /\ Forall (fun ln => items ln <> []) (_group_items_into_lines tokens 0.5).
Proof.
  unfold _group_items_into_lines, cluster_loop.
  pose proof (cluster_loop_clustered (sorted_by item_ltb tokens) []) as Hc.
  set (lines := fold_left (place 0.5) (sorted_by item_ltb tokens) []) in *.
  split.
  - eapply perm_trans.
    { apply Permutation_flat_map, Permutation_sym, sorted_by_perm. }
    eapply perm_trans; [apply sort_line_items_flat|].
    eapply perm_trans; [apply (clustered_items _ _ _ _ Hc)|].
    simpl. rewrite app_nil_r. apply Permutation_sym, sorted_by_perm.
  - eapply Permutation_Forall; [apply sorted_by_perm|].
    apply Forall_map.
    eapply Forall_impl; [|apply (clustered_nonempty _ _ _ _ Hc); constructor].
    intros ln. apply sort_line_items_nonempty.
Qed.


(** ** De-duplication *)

Lemma str_eqb_eq (a b : str) : str_eqb a b = true <-> a = b.
Proof.
  unfold str_eqb. destruct (list_eq_dec ascii_dec a b); split; congruence.
Qed.

Lemma key_eqb_eq (k1 k2 : dedupe_key) : key_eqb k1 k2 = true <-> k1 = k2.
Proof.
  destruct k1 as [[[[v1 a1] b1] c1] d1], k2 as [[[[v2 a2] b2] c2] d2].
  unfold key_eqb. rewrite !andb_true_iff, str_eqb_eq, !Z.eqb_eq.
  split.
  - intros [[[[-> ->] ->] ->] ->]. reflexivity.
  - intro H. inversion H. repeat split; reflexivity.
Qed.

Lemma filter_filter {A : Type} (f g : A -> bool) (l : list A) :
  filter f (filter g l) = filter (fun x => g x && f x) l.
Proof.
  induction l as [|x l IH]; simpl; [reflexivity|].
  destruct (g x); simpl; [destruct (f x)|]; rewrite IH; reflexivity.
Qed.

Lemma dedupe_loop_keep_first (results : list result) :
  forall seen,
    dedupe_loop results seen
    = filter (fun x => negb (existsb (key_eqb (result_key x)) seen))
             (keep_first results).
Proof.
  induction results as [|r rest IH]; intro seen; [reflexivity|].
  cbn [dedupe_loop keep_first filter].
  destruct (existsb (key_eqb (result_key r)) seen) eqn:E; cbn [negb].
  - rewrite IH, filter_filter. apply filter_ext. intro x.
    destruct (key_eqb (result_key x) (result_key r)) eqn:Ex; [|reflexivity].
    apply key_eqb_eq in Ex. rewrite Ex, E. reflexivity.
  - rewrite IH, filter_filter. f_equal. apply filter_ext. intro x.
    cbn [existsb]. rewrite negb_orb. reflexivity.
Qed.

Lemma dedupe_keep_first (results : list result) :
  _dedupe_results results = keep_first results.
Proof.
  unfold _dedupe_results. rewrite dedupe_loop_keep_first. simpl.
  induction (keep_first results) as [|x l IH]; simpl; [reflexivity|].
  f_equal. exact IH.
Qed.

Lemma in_map_filter {A B : Type} (k : A -> B) (p : A -> bool) (l : list A) (b : B) :
  In b (map k (filter p l)) -> In b (map k l).
Proof.
  rewrite !in_map_iff. intros (x & Hx & Hin). apply filter_In in Hin.
  exists x. tauto.
Qed.

Lemma NoDup_map_filter {A B : Type} (k : A -> B) (p : A -> bool) (l : list A) :
  NoDup (map k l) -> NoDup (map k (filter p l)).
Proof.
  induction l as [|x l IH]; simpl; intro H; [constructor|].
  inversion H as [|? ? Hnot Hnd]; subst.
  destruct (p x); simpl; [|apply IH, Hnd].
  constructor; [|apply IH, Hnd].
  intro Hin. apply Hnot. eapply in_map_filter, Hin.
Qed.

Lemma keep_first_NoDup (results : list result) :
  NoDup (map result_key (keep_first results)).
Proof.
  induction results as [|r rest IH]; cbn [keep_first map]; constructor.
  - rewrite in_map_iff. intros (x & Hk & Hin).
    apply filter_In in Hin. destruct Hin as [_ Hne].
    apply key_eqb_eq in Hk. rewrite Hk in Hne. discriminate Hne.
  - apply NoDup_map_filter, IH.
Qed.



(** ** The validity filter of the locator *)

Lemma is_valid_entity_scored (t : entity_type) (v : str) :
  is_valid_entity t v = true -> fst (score_entity t v) = true.
Proof.
  destruct t; simpl.
  - trivial.
  - unfold is_valid_iban, score_iban.
    destruct (IBAN_REGEX_match (normalize_iban v)); simpl; [trivial|discriminate].
  - unfold is_valid_phone, score_phone.
    destruct (existsb is_alpha (normalize_phone v)); [discriminate|].
    destruct (_ || _); [discriminate|].
    destruct (PHONE_REGEX_match (normalize_phone v)); simpl; [|discriminate].
    intros _. destruct (_ && _); reflexivity.
  - unfold is_valid_email, score_email. intros ->. reflexivity.
Qed.

Lemma is_valid_email_scored (v : str) :
  is_valid_email v = fst (score_email v).
Proof.
  unfold is_valid_email, score_email.
  destruct (EMAIL_REGEX_match (normalize_email v)); [reflexivity|].
  destruct (email_candidates (normalize_email v)); reflexivity.
Qed.

(** C5, as the specification words it, fails: an IBAN of the right format
    whose checksum fails is scored valid, with 0.7, above the threshold of
    the pipeline, and is dropped all the same when [require_valid] is set;
    it is kept when the flag is not set. *)
Lemma require_valid_drops_scored_valid_iban :
  let v := L "DE89370400440532013001" in
  let tokens :=
    [ {| text := v; conf := 1;
         item_box := {| min_x := 0; max_x := 220; min_y := 0; max_y := 10;
                        height := 10 |} |} ] in
  let offsets := snd (_line_text_and_offsets tokens) in
  let m := {| raw := v; normalized := v; span := (0, 22) |} in
  score_entity Iban v = (true, 0.7%Q)
  /\ locate_match tokens offsets Iban (Some 0.5%Q) true m = None
  /\ locate_match tokens offsets Iban (Some 0.5%Q) false m <> None.
Proof.
  cbv zeta. split; [vm_compute; reflexivity|].
  split; [vm_compute; reflexivity|].
  vm_compute. discriminate.
Qed.

(** C5, amended: a match is dropped exactly when its score is under the
    minimum given, or [require_valid] is set and the strict test
    [is_valid_entity] rejects the value, or its span touches no token.  The
    strict test implies the validity the scorer reports and is the same for
    dates and addresses; for an IBAN it asks for the checksum as well. *)
Theorem require_valid_uses_strict_validity
  (tokens : list item) (offsets : list (nat * nat * nat)) (t : entity_type)
  (min_score : option Q) (require_valid : bool) (m : found) :
  let v := normalized m in
  (locate_match tokens offsets t min_score require_valid m = None <->
     (exists ms, min_score = Some ms /\ (snd (score_entity t v) < ms)%Q)
     \/ (require_valid = true /\ is_valid_entity t v = false)
     \/ selected_tokens tokens offsets (fst (span m)) (snd (span m)) = [])
  /\ (is_valid_entity t v = true -> fst (score_entity t v) = true)
  /\ is_valid_entity Date v = fst (score_entity Date v)
  /\ is_valid_entity Email v = fst (score_entity Email v)
  /\ is_valid_entity Iban v
     = fst (score_entity Iban v) && iban_checksum_ok (normalize_iban v).
Proof.
  intro v. split; [|split; [apply is_valid_entity_scored|]].
  - unfold locate_match. fold v.
    destruct (score_entity t v) as [is_match score]. simpl snd.
    destruct (span m) as [start end_]. simpl fst. simpl snd.
    destruct min_score as [ms|].
    + destruct (Qltb score ms) eqn:E.
      * split; [|reflexivity]. intros _. left. exists ms.
        split; [reflexivity|]. apply Qltb_lt, E.
      * apply Qltb_ge in E.
        destruct require_valid, (is_valid_entity t v); simpl;
          destruct (selected_tokens tokens offsets start end_) eqn:Es;
          split; try reflexivity; try discriminate; auto;
          intros [(ms' & Hms & Hlt)|[[? ?]|?]]; try discriminate;
          inversion Hms; subst; exfalso; exact (Qlt_not_le _ _ Hlt E).
    + destruct require_valid, (is_valid_entity t v); simpl;
        destruct (selected_tokens tokens offsets start end_) eqn:Es;
        split; try reflexivity; try discriminate; auto;
        intros [(ms' & Hms & Hlt)|[[? ?]|?]]; discriminate.
  - split; [reflexivity|]. split; [apply is_valid_email_scored|].
    simpl. unfold is_valid_iban, score_iban.
    destruct (IBAN_REGEX_match (normalize_iban v)); reflexivity.
Qed.

(** ** The IBAN scorer *)

Ltac each_char c := destruct c as [[] [] [] [] [] [] [] []].

Lemma upper_char_fixed (c : ascii) : upper_char (upper_char c) = upper_char c.
Proof. each_char c; reflexivity. Qed.

Lemma upper_char_space (c : ascii) : is_space (upper_char c) = is_space c.
Proof. each_char c; reflexivity. Qed.

Lemma newline_is_space (c : ascii) : is_char "010" c = true -> is_space c = true.
Proof. each_char c; try discriminate; reflexivity. Qed.

Lemma letter_O_not_space (c : ascii) : is_char "O" c = true -> is_space c = false.
Proof. each_char c; try discriminate; reflexivity. Qed.

Lemma settled_replace_O (c : ascii) :
  settled c -> settled (if is_char "O" c then "0"%char else c)
  /\ is_char "O" (if is_char "O" c then "0"%char else c) = false.
Proof.
  intros Hc. destruct (is_char "O" c) eqn:E.
  - split; [split|]; reflexivity.
  - split; [exact Hc|exact E].
Qed.

Lemma settled_fixed (t : str) :
  Forall settled t ->
  filter (fun c => negb (is_space c)) (upper t) = t.
Proof.
  induction 1 as [|c t [Hu Hs] _ IH]; simpl; [reflexivity|].
  rewrite Hu, Hs. simpl. f_equal. exact IH.
Qed.

Lemma upper_filter_settled (t : str) :
  Forall settled (filter (fun c => negb (is_space c)) (upper t)).
Proof.
  induction t as [|c t IH]; simpl; [constructor|].
  destruct (is_space (upper_char c)) eqn:E; simpl; [exact IH|].
  constructor; [|exact IH].
  split; [apply upper_char_fixed|exact E].
Qed.

(** The last step of [normalize_iban], on a string already cleaned. *)
Lemma normalize_iban_cases (t : str) :
  let c := filter (fun c => negb (is_space c)) (upper t) in
  Forall settled (normalize_iban t)
  /\ (length (normalize_iban t) < 4
      \/ exists a b x y rest,
           normalize_iban t = a :: b :: x :: y :: rest
           /\ is_char "O" x = false /\ is_char "O" y = false).
Proof.
  intro c. unfold normalize_iban. fold c.
  pose proof (upper_filter_settled t) as Hs. fold c in Hs.
  destruct c as [|a [|b [|x [|y rest]]]];
    try (split; [exact Hs|left; simpl; lia]).
  cbn [length Nat.leb firstn skipn contains existsb replace_char map app].
  inversion Hs as [|? ? Ha Hs1]; subst.
  inversion Hs1 as [|? ? Hb Hs2]; subst.
  inversion Hs2 as [|? ? Hx Hs3]; subst.
  inversion Hs3 as [|? ? Hy Hrest]; subst.
  destruct (settled_replace_O x Hx) as [Hx' Hox].
  destruct (settled_replace_O y Hy) as [Hy' Hoy].
  destruct (is_char "O" x) eqn:Ex, (is_char "O" y) eqn:Ey; cbn [orb];
    (split; [repeat (constructor; try assumption)
            |right; do 5 eexists; split; [reflexivity|split; assumption]]).
Qed.

Lemma normalize_iban_settled_fixed (c : str) :
  Forall settled c ->
  (length c < 4
   \/ exists a b x y rest,
        c = a :: b :: x :: y :: rest
        /\ is_char "O" x = false /\ is_char "O" y = false) ->
  normalize_iban c = c.
Proof.
  intros Hs Hc. unfold normalize_iban. rewrite (settled_fixed c Hs).
  destruct Hc as [Hlt|(a & b & x & y & rest & -> & Hx & Hy)].
  - apply Nat.leb_gt in Hlt. rewrite Hlt. reflexivity.
  - cbn [length Nat.leb firstn skipn contains existsb].
    rewrite Hx, Hy. reflexivity.
Qed.

Lemma normalize_iban_idem (t : str) :
  normalize_iban (normalize_iban t) = normalize_iban t.
Proof.
  destruct (normalize_iban_cases t) as [Hs Hc].
  apply normalize_iban_settled_fixed; assumption.
Qed.

Lemma at_dollar_no_space {A : Type} (body : str -> option A) (t : str) :
  Forall (fun c => is_space c = false) t -> at_dollar body t = body t.
Proof.
  intro Hs. unfold at_dollar. destruct (body t); [reflexivity|].
  destruct (rev t) as [|c r] eqn:E; [reflexivity|].
  destruct (is_char "010" c) eqn:Ec; [|reflexivity].
  exfalso. apply newline_is_space in Ec.
  assert (Hin : In c t) by (apply in_rev; rewrite E; left; reflexivity).
  rewrite Forall_forall in Hs. rewrite (Hs c Hin) in Ec. discriminate.
Qed.

Lemma normalize_iban_no_space (t : str) :
  Forall (fun c => is_space c = false) (normalize_iban t).
Proof.
  destruct (normalize_iban_cases t) as [Hs _].
  eapply Forall_impl; [|exact Hs]. intros c [_ H]. exact H.
Qed.

(** A letter is written with two digits, worth [ord(letter) - 55]. *)
Lemma letter_digits (c : ascii) :
  is_upper c = true ->
  is_digit c = false
  /\ exists d1 d2,
       convert_char c = [d1; d2]
       /\ is_digit d1 = true /\ is_digit d2 = true
       /\ (int_of_char d1 * 10 + int_of_char d2 = Z.of_nat (ord c) - 55)%Z.
Proof.
  each_char c; try discriminate; intros _;
    (split; [reflexivity|do 2 eexists; repeat split]).
Qed.

Lemma converted_digits (t : str) :
  forallb is_upper_alnum t = true ->
  forallb is_digit (flat_map convert_char t) = true.
Proof.
  induction t as [|c t IH]; simpl; [reflexivity|].
  rewrite andb_true_iff. intros [Hc Ht].
  rewrite forallb_app, (IH Ht), andb_true_r.
  unfold is_upper_alnum in Hc. unfold convert_char at 1.
  destruct (is_digit c) eqn:Ed.
  - simpl. rewrite Ed. reflexivity.
  - rewrite orb_false_r in Hc.
    destruct (letter_digits c Hc) as (_ & d1 & d2 & Hconv & H1 & H2 & _).
    unfold convert_char in Hconv. rewrite Ed in Hconv. rewrite Hconv.
    simpl. rewrite H1, H2. reflexivity.
Qed.

(** Reducing digit by digit gives the remainder of the whole number. *)
Lemma remainder_loop (t : str) :
  forallb is_upper_alnum t = true ->
  forall acc n : Z,
    (acc = n mod 97)%Z ->
    fold_left (fun remainder ch => (remainder * 10 + int_of_char ch) mod 97)%Z
              (flat_map convert_char t) acc
    = (fold_left
         (fun acc c =>
            if is_digit c then acc * 10 + int_of_char c
            else acc * 100 + (Z.of_nat (ord c) - 55))%Z
         t n mod 97)%Z.
Proof.
  induction t as [|c t IH]; simpl; intros Hall acc n Hacc; [exact Hacc|].
  apply andb_true_iff in Hall. destruct Hall as [Hc Ht].
  rewrite fold_left_app. apply (IH Ht).
  unfold is_upper_alnum in Hc. unfold convert_char.
  destruct (is_digit c) eqn:Ed.
  - simpl. subst acc.
    rewrite Z.add_mod, Z.mul_mod, Z.mod_mod by lia.
    rewrite <- Z.mul_mod, <- Z.add_mod by lia. reflexivity.
  - rewrite orb_false_r in Hc.
    destruct (letter_digits c Hc) as (_ & d1 & d2 & Hconv & _ & _ & Hval).
    unfold convert_char in Hconv. rewrite Ed in Hconv. rewrite Hconv.
    simpl. subst acc. rewrite <- Hval.
    replace (n * 100 + (int_of_char d1 * 10 + int_of_char d2))%Z
      with ((n * 10 + int_of_char d1) * 10 + int_of_char d2)%Z by ring.
    set (u := (n * 10 + int_of_char d1)%Z).
    assert (Hu : ((n mod 97 * 10 + int_of_char d1) mod 97 = u mod 97)%Z).
    { unfold u. rewrite Z.add_mod, Z.mul_mod, Z.mod_mod by lia.
      rewrite <- Z.mul_mod, <- Z.add_mod by lia. reflexivity. }
    rewrite Hu.
    rewrite Z.add_mod, Z.mul_mod, Z.mod_mod by lia.
    rewrite <- Z.mul_mod, <- Z.add_mod by lia. reflexivity.
Qed.

Lemma iban_body_parts (c : str) :
  IBAN_REGEX_body c = Some tt ->
  forallb is_upper_alnum c = true /\ 15 <= length c <= 34.
Proof.
  unfold IBAN_REGEX_body.
  destruct c as [|a [|b [|x [|y rest]]]]; try discriminate.
  unfold guard. destruct (_ && _) eqn:E; [|discriminate]. intros _.
  rewrite !andb_true_iff in E.
  destruct E as [[[[[[Ha Hb] Hx] Hy] Hrest] Hlo] Hhi].
  apply Nat.leb_le in Hlo, Hhi.
  split; [|simpl; lia].
  cbn [forallb]. unfold is_upper_alnum at 1 2 3 4.
  rewrite Ha, Hb, Hx, Hy, Hrest. rewrite !orb_true_r. reflexivity.
Qed.

Lemma forallb_rotate (p : ascii -> bool) (c : str) (n : nat) :
  forallb p c = true -> forallb p (skipn n c ++ firstn n c) = true.
Proof.
  intro H. rewrite forallb_app.
  rewrite <- (firstn_skipn n c), forallb_app in H.
  apply andb_true_iff in H. destruct H as [H1 H2]. rewrite H1, H2. reflexivity.
Qed.

Lemma iban_checksum_ok_spec (s : str) :
  let c := normalize_iban s in
  IBAN_REGEX_match c = true ->
  iban_checksum_ok c = mod97_passes c
  /\ forallb is_digit (flat_map convert_char (skipn 4 c ++ firstn 4 c)) = true.
Proof.
  intros c H. unfold iban_checksum_ok. fold c.
  unfold c at 1 2 3. rewrite normalize_iban_idem. fold c.
  rewrite H. cbn [negb].
  unfold IBAN_REGEX_match in H.
  rewrite (at_dollar_no_space _ c (normalize_iban_no_space s)) in H.
  destruct (IBAN_REGEX_body c) as [[]|] eqn:E; [|discriminate].
  destruct (iban_body_parts c E) as [Hall _].
  pose proof (forallb_rotate _ c 4 Hall) as Hrot.
  split; [|apply converted_digits, Hrot].
  unfold mod97_passes, iso7064_number.
  rewrite (remainder_loop _ Hrot 0%Z 0%Z); reflexivity.
Qed.

(** C1: when the normalised string has the strict format, the scorer reports
    it valid; the score is 1.0 when the ISO 7064 check passes and 0.7 when it
    fails, so that a string of the right format with a correct checksum
    scores (true, 1.0). *)
Theorem score_iban_format_and_checksum (s : str) :
  IBAN_REGEX_match (normalize_iban s) = true ->
  score_iban s
  = (true, if mod97_passes (normalize_iban s) then 1.0%Q else 0.7%Q)
  /\ (mod97_passes (normalize_iban s) = true <-> score_iban s = (true, 1.0%Q))
  /\ (mod97_passes (normalize_iban s) = false <-> score_iban s = (true, 0.7%Q)).
Proof.
  intro H. destruct (iban_checksum_ok_spec s H) as [Hok _].
  unfold score_iban. rewrite H, Hok.
  destruct (mod97_passes (normalize_iban s));
    repeat split; intros; try reflexivity; try discriminate.
Qed.

Lemma score_iban_format_and_checksum_witness :
  IBAN_REGEX_match (normalize_iban (L "de89 3704 0044 0532 0130 00")) = true
  /\ score_iban (L "de89 3704 0044 0532 0130 00") = (true, 1.0%Q).
Proof.
  split; [vm_compute; reflexivity|].
  apply (score_iban_format_and_checksum (L "de89 3704 0044 0532 0130 00"));
    vm_compute; reflexivity.
Defined.

(** ** The e-mail scorer *)

(** C3, as the specification words it, fails: the address with a space for
    the dot of its domain is reported invalid, but its score is 0.0, not
    above 0.8. *)
Lemma space_for_dot_address_not_close :
  let s := L "john.doe@example com" in
  fst (score_email s) = false
  /\ ~ (0.8 < snd (score_email s))%Q
  /\ ~ (exists sc, result_of Email (classify_text s) = Some (false, sc)
                   /\ (0.8 < sc)%Q).
Proof.
  cbv zeta. split; [vm_compute; reflexivity|]. split.
  - intro H. vm_compute in H. discriminate H.
  - intros (sc & Hr & Hsc). vm_compute in Hr. inversion Hr; subst.
    vm_compute in Hsc. discriminate Hsc.
Qed.

(** C3, amended: for that address the cleaned string is the input itself, no
    repair candidate is generated (each one keeps the space), and the scorer
    returns (false, 0.0), which is also the entry of [classify_text]. *)
Theorem score_email_space_domain :
  let s := L "john.doe@example com" in
  normalize_email s = s
  /\ email_candidates (normalize_email s) = []
  /\ score_email s = (false, 0.0%Q)
  /\ result_of Email (classify_text s) = Some (false, 0.0%Q).
Proof.
  cbv zeta. repeat split; vm_compute; reflexivity.
Qed.

(** C2, as the specification words it, fails: for [aaa_a] the nearest
    candidate is [a@a.aa], three edits away and six characters long, which
    gives one half, but the score is 5/9, reached by a longer candidate four
    edits away. *)
Lemma score_email_not_nearest_candidate :
  let s := L "aaa_a" in
  let cleaned := normalize_email s in
  EMAIL_REGEX_match cleaned = false
  /\ email_candidates cleaned <> []
  /\ (snd (score_email s) == 5 # 9)%Q
  /\ ~ nearest_candidate_score cleaned (email_candidates cleaned)
                               (snd (score_email s)).
Proof.
  cbv zeta. split; [vm_compute; reflexivity|].
  split; [vm_compute; discriminate|].
  split; [vm_compute; reflexivity|].
  intros (c & Hin & Hmin & Hsc).
  assert (Hnear : In (L "a@a.aa") (email_candidates (normalize_email (L "aaa_a")))).
  { vm_compute. left. reflexivity. }
  pose proof (Hmin _ Hnear) as Hle.
  assert (Hall : forallb
                   (fun c => (3 <? edit_distance (normalize_email (L "aaa_a")) c)
                             || str_eqb c (L "a@a.aa"))
                   (email_candidates (normalize_email (L "aaa_a"))) = true).
  { vm_compute. reflexivity. }
  rewrite forallb_forall in Hall. specialize (Hall c Hin).
  apply orb_true_iff in Hall. destruct Hall as [Hfar|Heq].
  - apply Nat.ltb_lt in Hfar.
    replace (edit_distance (normalize_email (L "aaa_a")) (L "a@a.aa")) with 3 in Hle
      by (vm_compute; reflexivity).
    lia.
  - unfold str_eqb in Heq. destruct (list_eq_dec ascii_dec c (L "a@a.aa")); [|discriminate].
    subst c. vm_compute in Hsc. discriminate Hsc.
Qed.

(** Every candidate kept has passed the strict grammar. *)
Lemma add_email_candidate_valid (cs : list str) (c : str) :
  Forall (fun x => EMAIL_REGEX_match x = true) cs ->
  Forall (fun x => EMAIL_REGEX_match x = true) (_add_email_candidate cs c).
Proof.
  intro H. unfold _add_email_candidate.
  destruct (EMAIL_REGEX_match c) eqn:E; [|exact H].
  apply Forall_forall. intros x Hin.
  apply set_add_elim in Hin. destruct Hin as [->|Hin]; [exact E|].
  rewrite Forall_forall in H. apply H, Hin.
Qed.

Lemma fold_add_candidates_valid {A : Type} (f : A -> str) (l : list A) :
  forall cs,
    Forall (fun x => EMAIL_REGEX_match x = true) cs ->
    Forall (fun x => EMAIL_REGEX_match x = true)
           (fold_left (fun cs a => _add_email_candidate cs (f a)) l cs).
Proof.
  induction l as [|a l IH]; intros cs H; simpl; [exact H|].
  apply IH, add_email_candidate_valid, H.
Qed.

Lemma add_domain_fixes_valid (cs : list str) (local domain : str) :
  Forall (fun x => EMAIL_REGEX_match x = true) cs ->
  Forall (fun x => EMAIL_REGEX_match x = true) (_add_domain_fixes cs local domain).
Proof.
  intro H. unfold _add_domain_fixes.
  destruct local as [|l0 local]; [exact H|].
  destruct domain as [|d0 domain]; [exact H|].
  destruct (contains "." (d0 :: domain)).
  - apply add_email_candidate_valid, H.
  - apply (fold_add_candidates_valid
             (fun tld => (l0 :: local) ++ "@"%char :: (d0 :: domain) ++ "."%char :: tld)).
    apply (fold_add_candidates_valid
             (fun i => (l0 :: local) ++ "@"%char :: firstn i (d0 :: domain)
                       ++ "."%char :: skipn i (d0 :: domain))).
    exact H.
Qed.

Lemma add_split_fixes_valid (cs : list str) (local domain : str) :
  Forall (fun x => EMAIL_REGEX_match x = true) cs ->
  Forall (fun x => EMAIL_REGEX_match x = true) (add_split_fixes cs local domain).
Proof.
  intro H. unfold add_split_fixes.
  destruct (contains "_" domain); repeat apply add_domain_fixes_valid; exact H.
Qed.

Lemma email_candidates_valid (t : str) :
  Forall (fun x => EMAIL_REGEX_match x = true) (email_candidates t).
Proof.
  unfold email_candidates.
  assert (H0 : Forall (fun x => EMAIL_REGEX_match x = true)
                      (_add_email_candidate [] t))
    by (apply add_email_candidate_valid; constructor).
  destruct (contains "@" t); [apply add_split_fixes_valid, H0|].
  revert H0. generalize (_add_email_candidate [] t).
  induction (seq 1 (length t - 1)) as [|i l IH]; intros cs H; simpl; [exact H|].
  apply IH, add_split_fixes_valid, H.
Qed.

Lemma email_match_nonempty (c : str) : EMAIL_REGEX_match c = true -> c <> [].
Proof. intros H ->. vm_compute in H. discriminate H. Qed.

Lemma closeness_of_candidate (cleaned c : str) :
  EMAIL_REGEX_match c = true ->
  clamp_score (closeness cleaned c) = candidate_closeness cleaned c.
Proof.
  intro H. apply email_match_nonempty in H.
  unfold closeness, candidate_closeness.
  replace (Nat.max (length c) 1) with (length c); [reflexivity|].
  destruct c; [contradiction|simpl; lia].
Qed.

Lemma clamp_score_mono (x y : Q) : (x <= y)%Q -> (clamp_score x <= clamp_score y)%Q.
Proof.
  intro H. unfold clamp_score.
  apply Q.max_le_compat_l, Q.min_le_compat_l, H.
Qed.

(** The loop over the candidates keeps the highest closeness seen, or the
    starting value when none is higher. *)
Lemma best_score_loop (f : str -> Q) (cs : list str) :
  forall b0,
    let r := fold_left (fun best c => if Qltb best (f c) then f c else best) cs b0 in
    (b0 <= r)%Q
    /\ (forall c, In c cs -> (f c <= r)%Q)
    /\ (r = b0 \/ exists c, In c cs /\ r = f c).
Proof.
  induction cs as [|c cs IH]; intros b0; simpl.
  - split; [apply Qle_refl|]. split; [intros ? []|left; reflexivity].
  - destruct (Qltb b0 (f c)) eqn:E.
    + apply Qltb_lt in E. destruct (IH (f c)) as (H1 & H2 & H3).
      split; [eapply Qle_trans; [apply Qlt_le_weak, E|exact H1]|].
      split.
      * intros c' [<-|Hin]; [exact H1|apply H2, Hin].
      * right. destruct H3 as [H3|(c' & Hin & H3)].
        -- exists c. split; [left; reflexivity|exact H3].
        -- exists c'. split; [right; exact Hin|exact H3].
    + apply Qltb_ge in E. destruct (IH b0) as (H1 & H2 & H3).
      split; [exact H1|]. split.
      * intros c' [<-|Hin]; [eapply Qle_trans; eassumption|apply H2, Hin].
      * destruct H3 as [H3|(c' & Hin & H3)]; [left; exact H3|].
        right. exists c'. split; [right; exact Hin|exact H3].
Qed.

(** C2, amended: when the cleaned string fails the grammar and there are
    candidates, the address is invalid and its score is the highest
    closeness among the candidates, the closeness of a candidate being one
    minus its edit distance over its length, clamped to [0, 1]. *)
Theorem score_email_best_closeness (s : str) :
  EMAIL_REGEX_match (normalize_email s) = false ->
  email_candidates (normalize_email s) <> [] ->
  fst (score_email s) = false
  /\ (exists c,
         In c (email_candidates (normalize_email s))
         /\ (snd (score_email s)
             == candidate_closeness (normalize_email s) c)%Q)
  /\ (forall c,
         In c (email_candidates (normalize_email s)) ->
         (candidate_closeness (normalize_email s) c <= snd (score_email s))%Q).
Proof.
  intros Hno Hne. unfold score_email. rewrite Hno.
  pose proof (email_candidates_valid (normalize_email s)) as Hvalid.
  rewrite Forall_forall in Hvalid.
  set (cleaned := normalize_email s) in *.
  destruct (email_candidates cleaned) as [|c0 cs] eqn:Ecs; [contradiction|].
  cbn [fst snd].
  destruct (best_score_loop (closeness cleaned) (c0 :: cs) 0.0%Q)
    as (H0 & Hall & Hhit).
  set (r := fold_left _ (c0 :: cs) 0.0%Q) in *.
  split; [reflexivity|]. split.
  - destruct Hhit as [Hr|(c & Hin & Hr)].
    + exists c0. split; [left; reflexivity|].
      rewrite <- (closeness_of_candidate cleaned c0)
        by (apply Hvalid; left; reflexivity).
      apply Qle_antisym.
      * rewrite Hr. unfold clamp_score. apply Q.le_max_l.
      * apply clamp_score_mono. apply Hall. left. reflexivity.
    + exists c. split; [exact Hin|].
      rewrite <- (closeness_of_candidate cleaned c) by (apply Hvalid, Hin).
      rewrite Hr. reflexivity.
  - intros c Hin.
    rewrite <- (closeness_of_candidate cleaned c) by (apply Hvalid, Hin).
    apply clamp_score_mono, Hall, Hin.
Qed.

Lemma score_email_best_closeness_witness :
  EMAIL_REGEX_match (normalize_email (L "a@b_c_de")) = false
  /\ forall c,
       In c (email_candidates (normalize_email (L "a@b_c_de"))) ->
       (candidate_closeness (normalize_email (L "a@b_c_de")) c
        <= snd (score_email (L "a@b_c_de")))%Q.
Proof.
  split; [vm_compute; reflexivity|].
  apply (score_email_best_closeness (L "a@b_c_de")).
  - vm_compute. reflexivity.
  - vm_compute. discriminate.
Defined.

(** ** The date scorer *)

Lemma take_drop_while (p : ascii -> bool) (t : str) :
  take_while p t ++ drop_while p t = t.
Proof.
  induction t as [|c t IH]; simpl; [reflexivity|].
  destruct (p c); simpl; [rewrite IH|]; reflexivity.
Qed.

Lemma take_while_all (p : ascii -> bool) (t : str) :
  forallb p (take_while p t) = true.
Proof.
  induction t as [|c t IH]; simpl; [reflexivity|].
  destruct (p c) eqn:E; simpl; [rewrite E, IH|]; reflexivity.
Qed.

Lemma take_while_app (p : ascii -> bool) (d : str) (s : ascii) (r : str) :
  forallb p d = true -> p s = false ->
  take_while p (d ++ s :: r) = d /\ drop_while p (d ++ s :: r) = s :: r.
Proof.
  intros Hd Hs. induction d as [|c d IH]; simpl in *.
  - rewrite Hs. split; reflexivity.
  - apply andb_true_iff in Hd. destruct Hd as [Hc Hd]. rewrite Hc.
    destruct (IH Hd) as [-> ->]. split; reflexivity.
Qed.

Lemma date_sep_not_digit (c : ascii) : is_date_sep c = true -> is_digit c = false.
Proof. each_char c; try discriminate; reflexivity. Qed.

Lemma newline_not_digit (c : ascii) : is_char "010" c = true -> is_digit c = false.
Proof. each_char c; try discriminate; reflexivity. Qed.

Lemma is_char_eq (x c : ascii) : is_char x c = true -> c = x.
Proof. apply Ascii.eqb_eq. Qed.

Lemma in_range_bounds (lo hi : nat) (c : ascii) :
  in_range lo hi c = true -> lo <= ord c <= hi.
Proof.
  unfold in_range. rewrite andb_true_iff, !Nat.leb_le. tauto.
Qed.

Lemma in_range_digit (lo hi : nat) (c : ascii) :
  48 <= lo -> hi <= 57 -> in_range lo hi c = true -> is_digit c = true.
Proof.
  intros Hlo Hhi H. apply in_range_bounds in H.
  unfold is_digit, in_range. apply andb_true_iff.
  rewrite !Nat.leb_le. lia.
Qed.

(** What the groups of the patterns hold. *)
Lemma day_group_value (d : str) :
  day_group d = true ->
  forallb is_digit d = true /\ 1 <= length d <= 2
  /\ (1 <= int_of_digits d <= 31)%Z.
Proof.
  unfold day_group, int_of_digits, int_of_char.
  destruct d as [|a [|b [|c d]]]; try discriminate; cbn [fold_left forallb length].
  - intro H. pose proof (in_range_digit 49 57 a ltac:(lia) ltac:(lia) H) as Hd.
    apply in_range_bounds in H. rewrite Hd. repeat split; try reflexivity; lia.
  - rewrite !orb_true_iff, !andb_true_iff, !orb_true_iff.
    intros [[[Ha Hb]|[Ha Hb]]|[Ha Hb]].
    + apply is_char_eq in Ha. subst a.
      pose proof (in_range_digit 49 57 b ltac:(lia) ltac:(lia) Hb) as Hd.
      apply in_range_bounds in Hb. rewrite Hd.
      change (ord "0") with 48. repeat split; try reflexivity; lia.
    + rewrite Hb. apply in_range_bounds in Hb.
      destruct Ha as [Ha|Ha]; apply is_char_eq in Ha; subst a;
        [change (ord "1") with 49|change (ord "2") with 50];
        repeat split; try reflexivity; lia.
    + apply is_char_eq in Ha. subst a.
      destruct Hb as [Hb|Hb]; apply is_char_eq in Hb; subst b;
        repeat split; try reflexivity; try (simpl; lia); vm_compute; discriminate.
Qed.

Lemma month_group_value (d : str) :
  month_group d = true ->
  forallb is_digit d = true /\ 1 <= length d <= 2
  /\ (1 <= int_of_digits d <= 12)%Z.
Proof.
  unfold month_group, int_of_digits, int_of_char.
  destruct d as [|a [|b [|c d]]]; try discriminate; cbn [fold_left forallb length].
  - intro H. pose proof (in_range_digit 49 57 a ltac:(lia) ltac:(lia) H) as Hd.
    apply in_range_bounds in H. rewrite Hd. repeat split; try reflexivity; lia.
  - rewrite !orb_true_iff, !andb_true_iff.
    intros [[Ha Hb]|[Ha Hb]]; apply is_char_eq in Ha; subst a.
    + pose proof (in_range_digit 49 57 b ltac:(lia) ltac:(lia) Hb) as Hd.
      apply in_range_bounds in Hb. rewrite Hd.
      change (ord "0") with 48. repeat split; try reflexivity; lia.
    + pose proof (in_range_digit 48 50 b ltac:(lia) ltac:(lia) Hb) as Hd.
      apply in_range_bounds in Hb. rewrite Hd.
      change (ord "1") with 49. repeat split; try reflexivity; lia.
Qed.

Lemma year24_group_digits (y : str) :
  year24_group y = true ->
  forallb is_digit y = true /\ (length y = 2 \/ length y = 4).
Proof.
  unfold year24_group. rewrite andb_true_iff, orb_true_iff, !Nat.eqb_eq. tauto.
Qed.

Lemma year4_group_digits (y : str) :
  year4_group y = true -> forallb is_digit y = true /\ length y = 4.
Proof.
  unfold year4_group. rewrite andb_true_iff, Nat.eqb_eq. tauto.
Qed.

(** No newline is left by [normalize_spaces], so a final [$] is the end of
    the string. *)
Lemma replace_double_space_step (c d : ascii) (r : str) :
  replace_double_space (c :: d :: r)
  = if is_char " " c && is_char " " d
    then " "%char :: replace_double_space r
    else c :: replace_double_space (d :: r).
Proof. reflexivity. Qed.

Lemma has_double_space_step (c d : ascii) (r : str) :
  has_double_space (c :: d :: r)
  = (is_char " " c && is_char " " d) || has_double_space (d :: r).
Proof. reflexivity. Qed.

Lemma replace_double_space_Forall (P : ascii -> Prop) (n : nat) :
  P " "%char ->
  forall t, length t <= n -> Forall P t -> Forall P (replace_double_space t).
Proof.
  intro Hsp. induction n as [|n IH]; intros t Hn Ht.
  - destruct t; [constructor|simpl in Hn; lia].
  - destruct t as [|c [|d r]]; try assumption.
    rewrite replace_double_space_step.
    inversion Ht as [|? ? Hc Ht']; subst.
    destruct (is_char " " c && is_char " " d).
    + constructor; [exact Hsp|]. apply IH; [cbn [length] in *; lia|].
      inversion Ht'; assumption.
    + constructor; [exact Hc|]. apply IH; [cbn [length] in *; lia|exact Ht'].
Qed.

Lemma collapse_loop_Forall (P : ascii -> Prop) (fuel : nat) :
  P " "%char -> forall t, Forall P t -> Forall P (collapse_loop fuel t).
Proof.
  intro Hsp. induction fuel as [|f IH]; intros t Ht; simpl; [exact Ht|].
  destruct (has_double_space t); [|exact Ht].
  apply IH. eapply replace_double_space_Forall; eauto.
Qed.

Lemma drop_while_Forall (P : ascii -> Prop) (p : ascii -> bool) (t : str) :
  Forall P t -> Forall P (drop_while p t).
Proof.
  induction 1 as [|c t Hc Ht IH]; simpl; [constructor|].
  destruct (p c); [exact IH|constructor; assumption].
Qed.

Lemma strip_Forall (P : ascii -> Prop) (t : str) :
  Forall P t -> Forall P (strip t).
Proof.
  intro H. unfold strip, rstrip, lstrip.
  apply Forall_rev, drop_while_Forall, Forall_rev, drop_while_Forall, H.
Qed.

Lemma replace_char_Forall (P : ascii -> Prop) (old new : ascii) (t : str) :
  P new -> Forall P t -> Forall P (replace_char old new t).
Proof.
  intros Hnew Ht. unfold replace_char. apply Forall_map.
  eapply Forall_impl; [|exact Ht]. intros c Hc.
  destruct (is_char old c); assumption.
Qed.

Lemma replace_char_gone (old new : ascii) (t : str) :
  is_char old new = false ->
  Forall (fun c => is_char old c = false) (replace_char old new t).
Proof.
  intro Hn. unfold replace_char. apply Forall_map, Forall_forall.
  intros c _. destruct (is_char old c) eqn:E; assumption.
Qed.

Lemma normalize_spaces_no_newline (s : str) :
  Forall (fun c => is_char "010" c = false) (normalize_spaces s).
Proof.
  unfold normalize_spaces.
  apply strip_Forall, collapse_loop_Forall; [reflexivity|].
  apply replace_char_gone. reflexivity.
Qed.

Lemma at_dollar_no_newline {A : Type} (body : str -> option A) (t : str) :
  Forall (fun c => is_char "010" c = false) t -> at_dollar body t = body t.
Proof.
  intro Hs. unfold at_dollar. destruct (body t); [reflexivity|].
  destruct (rev t) as [|c r] eqn:E; [reflexivity|].
  destruct (is_char "010" c) eqn:Ec; [|reflexivity].
  exfalso.
  assert (Hin : In c t) by (apply in_rev; rewrite E; left; reflexivity).
  rewrite Forall_forall in Hs. rewrite (Hs c Hin) in Ec. discriminate.
Qed.

(** The frame of the date patterns, read both ways. *)
Lemma date_frame_some (g1 g2 g3 : str -> bool) (t p1 p2 p3 : str) :
  date_frame g1 g2 g3 t = Some (p1, p2, p3) ->
  exists s1 s2,
    t = p1 ++ s1 :: p2 ++ s2 :: p3
    /\ is_date_sep s1 = true /\ is_date_sep s2 = true
    /\ g1 p1 = true /\ g2 p2 = true /\ g3 p3 = true.
Proof.
  unfold date_frame.
  destruct (drop_while is_digit t) as [|s1 r1] eqn:E1; [discriminate|].
  destruct (drop_while is_digit r1) as [|s2 r2] eqn:E2; [discriminate|].
  destruct (_ && _) eqn:E; [|discriminate].
  intro H. inversion H; subst. clear H.
  rewrite !andb_true_iff in E. destruct E as [[[[Hs1 Hs2] H1] H2] H3].
  exists s1, s2. repeat split; try assumption.
  rewrite <- E2, take_drop_while, <- E1, take_drop_while. reflexivity.
Qed.

Lemma date_frame_complete (g1 g2 g3 : str -> bool) (p1 p2 p3 : str)
  (s1 s2 : ascii) :
  forallb is_digit p1 = true -> forallb is_digit p2 = true ->
  is_date_sep s1 = true -> is_date_sep s2 = true ->
  date_frame g1 g2 g3 (p1 ++ s1 :: p2 ++ s2 :: p3)
  = if g1 p1 && g2 p2 && g3 p3 then Some (p1, p2, p3) else None.
Proof.
  intros H1 H2 Hs1 Hs2. unfold date_frame.
  destruct (take_while_app is_digit p1 s1 (p2 ++ s2 :: p3) H1
              (date_sep_not_digit _ Hs1)) as [-> ->].
  destruct (take_while_app is_digit p2 s2 p3 H2
              (date_sep_not_digit _ Hs2)) as [-> ->].
  rewrite Hs1, Hs2. reflexivity.
Qed.

Lemma day_group_not_year (y : str) : length y = 4 -> day_group y = false.
Proof.
  destruct y as [|a [|b [|c [|d [|e y]]]]]; simpl; try discriminate.
  reflexivity.
Qed.

Lemma date_match_scored (cleaned d m y : str) :
  Forall (fun c => is_char "010" c = false) cleaned ->
  date_match cleaned d m y ->
  (1 <= int_of_digits m <= 12)%Z /\ (1 <= int_of_digits d <= 31)%Z
  /\ score_date_loop DATE_REGEXES cleaned
     = Some (true,
             if ((1900 <=? int_of_digits y) && (int_of_digits y <=? 2100))%Z
             then 1.0%Q else 0.85%Q).
Proof.
  intros Hnl Hm.
  assert (Hranges :
            month_group m = true -> day_group d = true ->
            ((1 <=? int_of_digits m) && (int_of_digits m <=? 12)
             && (1 <=? int_of_digits d) && (int_of_digits d <=? 31))%Z = true
            /\ (1 <= int_of_digits m <= 12)%Z /\ (1 <= int_of_digits d <= 31)%Z).
  { intros Hmg Hdg.
    destruct (month_group_value m Hmg) as (_ & _ & Hmv).
    destruct (day_group_value d Hdg) as (_ & _ & Hdv).
    split; [|split; assumption].
    rewrite !andb_true_iff, !Z.leb_le. lia. }
  unfold DATE_REGEXES, score_date_loop.
  rewrite !(at_dollar_no_newline _ cleaned Hnl).
  destruct Hm as [d m y s1 s2 -> Hs1 Hs2 Hd Hmo Hy|d m y s1 s2 -> Hs1 Hs2 Hy Hmo Hd];
    destruct (Hranges Hmo Hd) as (Hr & Hrm & Hrd);
    destruct (day_group_value d Hd) as (Hdd & Hdl & _);
    destruct (month_group_value m Hmo) as (Hmd & _ & _).
  - destruct (year24_group_digits y Hy) as [Hyd _].
    rewrite (date_frame_complete _ _ _ d m y s1 s2 Hdd Hmd Hs1 Hs2).
    rewrite Hd, Hmo, Hy. cbn [andb].
    replace (length d =? 4) with false by (symmetry; apply Nat.eqb_neq; lia).
    rewrite Hr. cbn [andb]. split; [exact Hrm|split; [exact Hrd|]].
    destruct ((1900 <=? int_of_digits y) && (int_of_digits y <=? 2100))%Z;
      reflexivity.
  - destruct (year4_group_digits y Hy) as [Hyd Hyl].
    rewrite (date_frame_complete _ _ _ y m d s1 s2 Hyd Hmd Hs1 Hs2).
    rewrite (day_group_not_year y Hyl). cbn [andb].
    rewrite (date_frame_complete _ _ _ y m d s1 s2 Hyd Hmd Hs1 Hs2).
    rewrite Hd, Hmo, Hy. cbn [andb].
    replace (length y =? 4) with true by (symmetry; apply Nat.eqb_eq; exact Hyl).
    rewrite Hr. cbn [andb]. split; [exact Hrm|split; [exact Hrd|]].
    destruct ((1900 <=? int_of_digits y) && (int_of_digits y <=? 2100))%Z;
      reflexivity.
Qed.

Lemma date_no_match (cleaned : str) :
  Forall (fun c => is_char "010" c = false) cleaned ->
  (forall d m y, ~ date_match cleaned d m y) ->
  score_date_loop DATE_REGEXES cleaned = None.
Proof.
  intros Hnl Hno. unfold DATE_REGEXES, score_date_loop.
  rewrite !(at_dollar_no_newline _ cleaned Hnl).
  destruct (date_frame day_group month_group year24_group cleaned)
    as [[[p0 p1] p2]|] eqn:E0.
  { exfalso. apply date_frame_some in E0.
    destruct E0 as (s1 & s2 & Ht & Hs1 & Hs2 & H1 & H2 & H3).
    apply (Hno p0 p1 p2). eapply day_first; eassumption. }
  destruct (date_frame year4_group month_group day_group cleaned)
    as [[[p0 p1] p2]|] eqn:E1; [|reflexivity].
  exfalso. apply date_frame_some in E1.
  destruct E1 as (s1 & s2 & Ht & Hs1 & Hs2 & H1 & H2 & H3).
  apply (Hno p2 p1 p0). eapply year_first; eassumption.
Qed.

Lemma tails_suffix (t tail : str) :
  In tail (tails t) <-> exists pre, t = pre ++ tail.
Proof.
  induction t as [|c t IH]; simpl.
  - split.
    + intros [<-|[]]. exists []. reflexivity.
    + intros (pre & H). left. symmetry in H. apply app_eq_nil in H. symmetry. tauto.
  - split.
    + intros [<-|H]; [exists []; reflexivity|].
      apply IH in H. destruct H as (pre & ->). exists (c :: pre). reflexivity.
    + intros ([|x pre] & H); simpl in H.
      * left. exact H.
      * right. inversion H; subst. apply IH. exists pre. reflexivity.
Qed.

Lemma digit_run_bounds (lo hi : nat) (d : str) :
  digit_run lo hi d = true <->
  forallb is_digit d = true /\ lo <= length d <= hi.
Proof.
  unfold digit_run. rewrite !andb_true_iff, !Nat.leb_le. tauto.
Qed.

Lemma date_shape_here_spec (t : str) :
  date_shape_here t = true <->
  exists d1 s1 d2 s2 d3 post,
    t = d1 ++ s1 :: d2 ++ s2 :: d3 ++ post
    /\ is_date_sep s1 = true /\ is_date_sep s2 = true
    /\ digit_run 1 4 d1 = true /\ digit_run 1 2 d2 = true
    /\ digit_run 1 4 d3 = true.
Proof.
  split.
  - unfold date_shape_here.
    destruct (drop_while is_digit t) as [|s1 r1] eqn:E1; [discriminate|].
    destruct (drop_while is_digit r1) as [|s2 [|c r2]] eqn:E2; try discriminate.
    rewrite !andb_true_iff, !Nat.leb_le.
    intros [[[[[[Hs1 Hs2] H1] H2] H3] H4] Hc].
    exists (take_while is_digit t), s1, (take_while is_digit r1), s2, [c], r2.
    repeat split; try assumption.
    + simpl. rewrite <- E2, take_drop_while, <- E1, take_drop_while. reflexivity.
    + apply digit_run_bounds. split; [apply take_while_all|lia].
    + apply digit_run_bounds. split; [apply take_while_all|lia].
    + apply digit_run_bounds. simpl. rewrite Hc. split; [reflexivity|lia].
  - intros (d1 & s1 & d2 & s2 & d3 & post & -> & Hs1 & Hs2 & H1 & H2 & H3).
    apply digit_run_bounds in H1, H2, H3.
    destruct H1 as [H1 L1], H2 as [H2 L2], H3 as [H3 L3].
    unfold date_shape_here.
    destruct (take_while_app is_digit d1 s1 (d2 ++ s2 :: d3 ++ post) H1
                (date_sep_not_digit _ Hs1)) as [-> ->].
    destruct (take_while_app is_digit d2 s2 (d3 ++ post) H2
                (date_sep_not_digit _ Hs2)) as [-> ->].
    destruct d3 as [|c d3]; [simpl in L3; lia|].
    simpl in H3. apply andb_true_iff in H3. destruct H3 as [Hc _].
    cbn [app]. rewrite Hs1, Hs2, Hc.
    rewrite !andb_true_iff, !Nat.leb_le. repeat split; lia.
Qed.

Lemma has_date_shape_search (t : str) :
  existsb date_shape_here (tails t) = true <-> has_date_shape t.
Proof.
  rewrite existsb_exists. unfold has_date_shape. split.
  - intros (tail & Hin & Hs). apply tails_suffix in Hin.
    destruct Hin as (pre & ->). apply date_shape_here_spec in Hs.
    destruct Hs as (d1 & s1 & d2 & s2 & d3 & post & -> & H).
    exists pre, d1, s1, d2, s2, d3, post. split; [reflexivity|exact H].
  - intros (pre & d1 & s1 & d2 & s2 & d3 & post & -> & H).
    exists (d1 ++ s1 :: d2 ++ s2 :: d3 ++ post). split.
    + apply tails_suffix. exists pre. reflexivity.
    + apply date_shape_here_spec.
      exists d1, s1, d2, s2, d3, post. split; [reflexivity|exact H].
Qed.

Lemma date_partial (cleaned : str) :
  score_date_loop DATE_REGEXES cleaned = None ->
  forall s, normalize_spaces s = cleaned ->
    fst (score_date s) = false /\ date_partial_score cleaned (snd (score_date s)).
Proof.
  intros Hnone s Hs. unfold score_date. rewrite Hs, Hnone. cbn [fst snd].
  split; [reflexivity|].
  exists (existsb date_shape_here (tails cleaned)),
         (existsb is_date_sep cleaned),
         (3 <=? length (findall_digits [] cleaned)),
         (existsb (fun n => length n =? 4) (findall_digits [] cleaned)).
  split; [apply has_date_shape_search|].
  split; [apply existsb_exists|].
  split; [apply Nat.leb_le|].
  split.
  - rewrite existsb_exists. split; intros (n & Hin & Hn); exists n;
      (split; [exact Hin|]); apply Nat.eqb_eq; exact Hn.
  - destruct (existsb date_shape_here (tails cleaned)),
             (existsb is_date_sep cleaned),
             (3 <=? length (findall_digits [] cleaned)),
             (existsb (fun n => length n =? 4) (findall_digits [] cleaned));
      vm_compute; reflexivity.
Qed.

(** C8, as the specification words it, fails: [32/13/2024] has the layout of
    day, month and year that the specification describes, with day and month
    out of range, and the scorer reports it invalid, with score 1.0. *)
Lemma score_date_layout_out_of_range :
  let s := L "32/13/2024" in
  date_layout (normalize_spaces s) = true
  /\ score_date s = (false, 1.0%Q)
  /\ fst (score_date s) <> true
  /\ ~ (snd (score_date s) == 0.85)%Q.
Proof.
  cbv zeta. split; [vm_compute; reflexivity|].
  split; [vm_compute; reflexivity|].
  split; [vm_compute; discriminate|].
  intro H. vm_compute in H. discriminate H.
Qed.

(** C8, amended: the strict grammar holds the ranges of day and month.  A
    string whose cleaned form matches it is valid, its month is in 1-12 and
    its day in 1-31, and its score is 1.0 when the year is in 1900-2100 and
    0.85 otherwise; any other string is invalid and gets the partial score:
    0.4 for a substring of the shape of a date, 0.2 for a separator, 0.2 for
    three runs of digits, 0.2 for a run of four digits, clamped. *)
Theorem score_date_cases (s : str) :
  (forall d m y,
      date_match (normalize_spaces s) d m y ->
      (1 <= int_of_digits m <= 12)%Z /\ (1 <= int_of_digits d <= 31)%Z
      /\ score_date s
         = (true,
            if ((1900 <=? int_of_digits y) && (int_of_digits y <=? 2100))%Z
            then 1.0%Q else 0.85%Q))
  /\ ((forall d m y, ~ date_match (normalize_spaces s) d m y) ->
      fst (score_date s) = false
      /\ date_partial_score (normalize_spaces s) (snd (score_date s))).
Proof.
  pose proof (normalize_spaces_no_newline s) as Hnl. split.
  - intros d m y Hm.
    destruct (date_match_scored _ d m y Hnl Hm) as (Hmo & Hd & Hsc).
    split; [exact Hmo|]. split; [exact Hd|].
    unfold score_date. rewrite Hsc. reflexivity.
  - intro Hno. apply date_partial; [|reflexivity].
    apply date_no_match; assumption.
Qed.

(** ** Idempotence of the normalisers *)

(** *** Neighbours *)

Lemma free_of_nil (R : ascii -> ascii -> bool) : free_of R [].
Proof. intros [|x pre] c d post H; discriminate H. Qed.

Lemma free_of_one (R : ascii -> ascii -> bool) (c : ascii) : free_of R [c].
Proof.
  intros [|x [|y pre]] a b post H; discriminate H.
Qed.

Lemma free_of_cons (R : ascii -> ascii -> bool) (c : ascii) (t : str) :
  (forall d r, t = d :: r -> R c d = false) -> free_of R t ->
  free_of R (c :: t).
Proof.
  intros Hhd Ht [|x pre] a b post H; simpl in H; inversion H; subst.
  - eapply Hhd. reflexivity.
  - eapply Ht. reflexivity.
Qed.

Lemma free_of_tail (R : ascii -> ascii -> bool) (c : ascii) (t : str) :
  free_of R (c :: t) -> free_of R t.
Proof.
  intros H pre a b post ->. apply (H (c :: pre) a b post). reflexivity.
Qed.

Lemma free_of_head (R : ascii -> ascii -> bool) (c d : ascii) (t : str) :
  free_of R (c :: d :: t) -> R c d = false.
Proof. intro H. apply (H [] c d t). reflexivity. Qed.

Lemma free_of_suffix (R : ascii -> ascii -> bool) (a t : str) :
  free_of R (a ++ t) -> free_of R t.
Proof.
  intros H pre c d post ->. apply (H (a ++ pre) c d post).
  rewrite <- app_assoc. reflexivity.
Qed.

Lemma free_of_rev (R : ascii -> ascii -> bool) (t : str) :
  (forall c d, R c d = R d c) -> free_of R t -> free_of R (rev t).
Proof.
  intros Hsym H pre c d post E.
  rewrite Hsym. apply (H (rev post) d c (rev pre)).
  rewrite <- (rev_involutive t), E.
  rewrite rev_app_distr. simpl. rewrite <- !app_assoc. reflexivity.
Qed.


Lemma double_space_sym (c d : ascii) : double_space c d = double_space d c.
Proof. unfold double_space. apply andb_comm. Qed.

Lemma has_double_space_free (t : str) :
  has_double_space t = false <-> free_of double_space t.
Proof.
  induction t as [|c r IH]; [split; [intros _; apply free_of_nil|reflexivity]|].
  destruct r as [|d r'].
  - split; [intros _; apply free_of_one|reflexivity].
  - rewrite has_double_space_step, orb_false_iff, IH. split.
    + intros [Hcd Hr]. apply free_of_cons; [|exact Hr].
      intros d0 r0 E. inversion E; subst. exact Hcd.
    + intro H. split; [exact (free_of_head double_space c d r' H)
                      |eapply free_of_tail, H].
Qed.

(** *** [normalize_spaces] *)

Lemma replace_double_space_length (n : nat) :
  forall t, length t <= n ->
    length (replace_double_space t) <= length t
    /\ (has_double_space t = true -> length (replace_double_space t) < length t).
Proof.
  induction n as [|n IH]; intros t Hn.
  - destruct t; [|simpl in Hn; lia]. split; [reflexivity|discriminate].
  - destruct t as [|c [|d r]]; try (split; [reflexivity|discriminate]).
    rewrite replace_double_space_step, has_double_space_step.
    cbn [length] in Hn.
    destruct (is_char " " c && is_char " " d); cbn [orb length].
    + destruct (IH r ltac:(lia)) as [Hle _]. split; [lia|intros _; lia].
    + destruct (IH (d :: r) ltac:(cbn [length]; lia)) as [Hle Hlt].
      cbn [length] in *. split; [lia|]. intro H. specialize (Hlt H). lia.
Qed.

(** The fuel [len(text)] is enough: the loop stops with no pair of spaces
    left. *)
Lemma collapse_loop_done (fuel : nat) :
  forall t, length t <= fuel -> has_double_space (collapse_loop fuel t) = false.
Proof.
  induction fuel as [|f IH]; intros t Hn.
  - destruct t; [reflexivity|simpl in Hn; lia].
  - simpl. destruct (has_double_space t) eqn:E; [|exact E].
    apply IH.
    destruct (replace_double_space_length (length t) t (le_n _)) as [_ Hlt].
    specialize (Hlt E). lia.
Qed.

Lemma collapse_loop_fixed (fuel : nat) (t : str) :
  has_double_space t = false -> collapse_loop fuel t = t.
Proof. intro H. destruct fuel; simpl; [|rewrite H]; reflexivity. Qed.

Lemma drop_while_hd (t : str) : hd_space (drop_while is_space t) = false.
Proof.
  induction t as [|c t IH]; simpl; [reflexivity|].
  destruct (is_space c) eqn:E; [exact IH|simpl; exact E].
Qed.

Lemma drop_while_fixed (t : str) : hd_space t = false -> drop_while is_space t = t.
Proof. destruct t as [|c t]; simpl; [reflexivity|intros ->; reflexivity]. Qed.

Lemma drop_while_snoc (a : str) (c : ascii) :
  is_space c = false ->
  drop_while is_space (a ++ [c]) = drop_while is_space a ++ [c].
Proof.
  intro Hc. induction a as [|x a IH]; simpl.
  - rewrite Hc. reflexivity.
  - destruct (is_space x); [exact IH|reflexivity].
Qed.

Lemma strip_edges (t : str) : edges_clean (strip t).
Proof.
  unfold strip, rstrip, lstrip, edges_clean.
  pose proof (drop_while_hd t) as Hu.
  split; [|rewrite rev_involutive; apply drop_while_hd].
  destruct (drop_while is_space t) as [|c u]; [reflexivity|].
  simpl in Hu. simpl rev. rewrite (drop_while_snoc _ c Hu).
  rewrite rev_app_distr. simpl. exact Hu.
Qed.

Lemma strip_fixed (t : str) : edges_clean t -> strip t = t.
Proof.
  intros [H1 H2]. unfold strip, rstrip, lstrip.
  rewrite (drop_while_fixed t H1), (drop_while_fixed (rev t) H2).
  apply rev_involutive.
Qed.

Lemma replace_char_fixed (old new : ascii) (t : str) :
  Forall (fun c => is_char old c = false) t -> replace_char old new t = t.
Proof.
  induction 1 as [|c t Hc _ IH]; simpl; [reflexivity|].
  rewrite Hc. f_equal. exact IH.
Qed.

Lemma normalize_spaces_fixed (t : str) : spaces_normal t -> normalize_spaces t = t.
Proof.
  intros (Hctl & Hds & Hedges). unfold normalize_spaces.
  rewrite (replace_char_fixed "009" " " t)
    by (eapply Forall_impl; [|exact Hctl]; intros c (H & _ & _); exact H).
  rewrite (replace_char_fixed "013" " " t)
    by (eapply Forall_impl; [|exact Hctl]; intros c (_ & H & _); exact H).
  rewrite (replace_char_fixed "010" " " t)
    by (eapply Forall_impl; [|exact Hctl]; intros c (_ & _ & H); exact H).
  rewrite collapse_loop_fixed by (apply has_double_space_free, Hds).
  apply strip_fixed, Hedges.
Qed.

Lemma strip_free_of (R : ascii -> ascii -> bool) (t : str) :
  (forall c d, R c d = R d c) -> free_of R t -> free_of R (strip t).
Proof.
  intros Hsym H. unfold strip, rstrip, lstrip.
  apply free_of_rev; [exact Hsym|].
  assert (Hl : free_of R (drop_while is_space t)).
  { apply (free_of_suffix R (take_while is_space t)).
    rewrite take_drop_while. exact H. }
  apply (free_of_suffix R (take_while is_space (rev (drop_while is_space t)))).
  rewrite take_drop_while. apply free_of_rev; assumption.
Qed.

Lemma normalize_spaces_normal (s : str) : spaces_normal (normalize_spaces s).
Proof.
  unfold normalize_spaces.
  set (u := replace_char "010" " " (replace_char "013" " " (replace_char "009" " " s))).
  split; [|split].
  - apply strip_Forall, collapse_loop_Forall; [repeat split|].
    unfold u.
    assert (H1 : Forall (fun c => is_char "009" c = false)
                        (replace_char "009" " " s))
      by (apply replace_char_gone; reflexivity).
    assert (H2 : Forall (fun c => is_char "009" c = false /\ is_char "013" c = false)
                        (replace_char "013" " " (replace_char "009" " " s))).
    { apply Forall_forall. intros c Hin. split.
      - revert c Hin. apply Forall_forall.
        apply replace_char_Forall; [reflexivity|exact H1].
      - revert c Hin. apply Forall_forall.
        apply replace_char_gone. reflexivity. }
    assert (H3 : Forall (fun c => is_char "010" c = false)
                        (replace_char "010" " "
                           (replace_char "013" " " (replace_char "009" " " s))))
      by (apply replace_char_gone; reflexivity).
    assert (H4 : Forall (fun c => is_char "009" c = false /\ is_char "013" c = false)
                        (replace_char "010" " "
                           (replace_char "013" " " (replace_char "009" " " s))))
      by (apply replace_char_Forall; [split; reflexivity|exact H2]).
    rewrite Forall_forall in H3, H4.
    apply Forall_forall. intros c Hin. unfold no_ctl.
    specialize (H3 c Hin). specialize (H4 c Hin). tauto.
  - apply strip_free_of; [apply double_space_sym|].
    apply has_double_space_free, collapse_loop_done, le_n.
  - apply strip_edges.
Qed.

Lemma normalize_spaces_idem (s : str) :
  normalize_spaces (normalize_spaces s) = normalize_spaces s.
Proof. apply normalize_spaces_fixed, normalize_spaces_normal. Qed.

(** *** Removing the white space around the characters of a class *)

Section SubAround.
Variable p : ascii -> bool.
Hypothesis p_not_space : forall c, p c = true -> is_space c = false.

Lemma sep_ahead_sub (t : str) :
  sep_ahead p (sub_around p false t) = sep_ahead p t.
Proof.
  induction t as [|c r IH]; simpl; [reflexivity|].
  destruct (p c) eqn:Ep.
  - simpl. rewrite (p_not_space c Ep). exact Ep.
  - destruct (is_space c) eqn:Es.
    + destruct (sep_ahead p r) eqn:Ea; simpl; [exact IH|].
      rewrite Es. exact IH.
    + simpl. rewrite Es. exact Ep.
Qed.

Lemma sub_after_hd (t : str) : hd_space (sub_around p true t) = false.
Proof.
  induction t as [|c r IH]; simpl; [reflexivity|].
  destruct (p c) eqn:Ep; [simpl; apply p_not_space, Ep|].
  destruct (is_space c) eqn:Es; [exact IH|simpl; exact Es].
Qed.

Lemma sub_ahead_hd (t : str) (b : bool) :
  sep_ahead p t = true -> hd_space (sub_around p b t) = false.
Proof.
  induction t as [|c r IH]; simpl; [discriminate|].
  destruct (is_space c) eqn:Es.
  - intro Ha. destruct (p c) eqn:Ep.
    + rewrite (p_not_space c Ep) in Es. discriminate.
    + rewrite Ha, orb_true_r. apply IH, Ha.
  - intros ->. simpl. exact Es.
Qed.

Lemma sub_around_idem (t : str) :
  forall b, sub_around p b (sub_around p b t) = sub_around p b t.
Proof.
  induction t as [|c r IH]; intro b; simpl; [reflexivity|].
  destruct (p c) eqn:Ep.
  - simpl. rewrite Ep, IH. reflexivity.
  - destruct (is_space c) eqn:Es.
    + destruct b; simpl; [apply IH|].
      destruct (sep_ahead p r) eqn:Ea; [apply IH|].
      simpl. rewrite Ep, Es, sep_ahead_sub, Ea, IH. reflexivity.
    + simpl. rewrite Ep, Es, IH. reflexivity.
Qed.

(** The output has no white space next to a character of the class. *)
Lemma sub_around_glue_free (t : str) :
  forall b, free_of (glued p) (sub_around p b t).
Proof.
  induction t as [|c r IH]; intro b; simpl; [apply free_of_nil|].
  destruct (p c) eqn:Ep.
  - apply free_of_cons; [|apply IH].
    intros d o E. unfold glued. rewrite (p_not_space c Ep), Ep. simpl.
    pose proof (sub_after_hd r) as H. rewrite E in H. exact H.
  - destruct (is_space c) eqn:Es.
    + destruct (b || sep_ahead p r) eqn:Eb; [apply IH|].
      apply orb_false_iff in Eb. destruct Eb as [-> Ea].
      apply free_of_cons; [|apply IH].
      intros d o E. unfold glued. rewrite Ep, Es. simpl.
      rewrite orb_false_r.
      pose proof (sep_ahead_sub r) as H. rewrite E, Ea in H. simpl in H.
      destruct (p d) eqn:Ed; [|reflexivity].
      rewrite (p_not_space d Ed) in H. exact H.
    + apply free_of_cons; [|apply IH].
      intros d o E. unfold glued. rewrite Ep, Es. reflexivity.
Qed.

Lemma glue_free_no_sep_ahead (r : str) :
  forall c, is_space c = true -> free_of (glued p) (c :: r) ->
            sep_ahead p r = false.
Proof.
  induction r as [|d r IH]; intros c Hc Hfree; simpl; [reflexivity|].
  destruct (is_space d) eqn:Ed.
  - apply (IH d Ed). eapply free_of_tail, Hfree.
  - pose proof (free_of_head _ _ _ _ Hfree) as H. unfold glued in H.
    rewrite Hc in H. simpl in H. apply orb_false_iff in H. tauto.
Qed.

(** A string with no such white space is left as it is. *)
Lemma sub_around_fixed (t : str) :
  forall b, free_of (glued p) t -> (b = true -> hd_space t = false) ->
            sub_around p b t = t.
Proof.
  induction t as [|c r IH]; intros b Hfree Hb; simpl; [reflexivity|].
  destruct (p c) eqn:Ep.
  - f_equal. apply IH; [eapply free_of_tail, Hfree|].
    intros _. destruct r as [|d r']; [reflexivity|].
    pose proof (free_of_head _ _ _ _ Hfree) as H. unfold glued in H.
    rewrite Ep in H. simpl in H. apply orb_false_iff in H. tauto.
  - destruct (is_space c) eqn:Es.
    + destruct b; [specialize (Hb eq_refl); simpl in Hb; congruence|].
      rewrite (glue_free_no_sep_ahead r c Es Hfree). simpl.
      f_equal. apply IH; [eapply free_of_tail, Hfree|discriminate].
    + f_equal. apply IH; [eapply free_of_tail, Hfree|discriminate].
Qed.

(** What the scan keeps. *)
Lemma sub_around_Forall (P : ascii -> Prop) (t : str) :
  forall b, Forall P t -> Forall P (sub_around p b t).
Proof.
  induction t as [|c r IH]; intros b H; simpl; [constructor|].
  inversion H as [|? ? Hc Hr]; subst.
  destruct (p c); [constructor; auto|].
  destruct (is_space c); [|constructor; auto].
  destruct (b || sep_ahead p r); [auto|constructor; auto].
Qed.

Lemma sub_around_hd (t : str) (b : bool) :
  hd_space t = false -> hd_space (sub_around p b t) = false.
Proof.
  destruct t as [|c r]; simpl; [reflexivity|]. intro Hc. rewrite Hc.
  destruct (p c); simpl; exact Hc.
Qed.

Lemma sub_around_last (t : str) (z : ascii) :
  is_space z = false ->
  forall b, exists w, sub_around p b (t ++ [z]) = w ++ [z].
Proof.
  intro Hz. induction t as [|c r IH]; intro b; simpl.
  - rewrite Hz. exists []. destruct (p z); reflexivity.
  - destruct (p c).
    + destruct (IH true) as (w & ->). exists (c :: w). reflexivity.
    + destruct (is_space c).
      * destruct (b || sep_ahead p (r ++ [z])).
        -- apply IH.
        -- destruct (IH false) as (w & ->). exists (c :: w). reflexivity.
      * destruct (IH false) as (w & ->). exists (c :: w). reflexivity.
Qed.

Lemma sub_around_edges (t : str) (b : bool) :
  edges_clean t -> edges_clean (sub_around p b t).
Proof.
  intros [Hh Hl]. split; [apply sub_around_hd, Hh|].
  destruct (rev t) as [|z r] eqn:E.
  - apply (f_equal (@rev ascii)) in E. rewrite rev_involutive in E.
    subst t. reflexivity.
  - apply (f_equal (@rev ascii)) in E. rewrite rev_involutive in E.
    simpl in E. subst t. simpl in Hl.
    destruct (sub_around_last (rev r) z Hl b) as (w & ->).
    rewrite rev_app_distr. simpl. exact Hl.
Qed.

(** Neighbours that were in order stay in order, when only white space
    can be out of order. *)
Lemma sub_around_head_ok (R : ascii -> ascii -> bool) (r : str) (b : bool)
  (c : ascii) :
  (forall x y, R x y = true -> is_space x = true \/ is_space y = true) ->
  (forall d r', r = d :: r' -> R c d = false) ->
  (is_space c = true -> b = false /\ sep_ahead p r = false) ->
  forall d o, sub_around p b r = d :: o -> R c d = false.
Proof.
  intros HR Horig Hkept d o E.
  destruct r as [|x r']; simpl in E; [discriminate|].
  destruct (p x) eqn:Ep.
  { inversion E; subst. eapply Horig. reflexivity. }
  destruct (is_space x) eqn:Es.
  2:{ inversion E; subst. eapply Horig. reflexivity. }
  destruct (b || sep_ahead p r') eqn:Eb.
  2:{ inversion E; subst. eapply Horig. reflexivity. }
  assert (Hc : is_space c = false).
  { destruct (is_space c) eqn:Ec; [|reflexivity].
    destruct (Hkept eq_refl) as [-> Ha]. simpl in Ha. rewrite Es in Ha.
    simpl in Eb. congruence. }
  assert (Hd : is_space d = false).
  { destruct b.
    - pose proof (sub_after_hd r') as H. rewrite E in H. exact H.
    - simpl in Eb. pose proof (sub_ahead_hd r' false Eb) as H.
      rewrite E in H. exact H. }
  destruct (R c d) eqn:ER; [|reflexivity].
  destruct (HR c d ER); congruence.
Qed.

Lemma sub_around_free_of (R : ascii -> ascii -> bool) (t : str) :
  (forall x y, R x y = true -> is_space x = true \/ is_space y = true) ->
  forall b, free_of R t -> free_of R (sub_around p b t).
Proof.
  intro HR. induction t as [|c r IH]; intros b Hfree; simpl; [apply free_of_nil|].
  pose proof (free_of_tail _ _ _ Hfree) as Hr.
  assert (Horig : forall d r', r = d :: r' -> R c d = false).
  { intros d r' ->. eapply free_of_head, Hfree. }
  destruct (p c) eqn:Ep.
  - apply free_of_cons; [|apply IH, Hr].
    apply (sub_around_head_ok R r true c HR Horig).
    intro Hc. rewrite (p_not_space c Ep) in Hc. discriminate.
  - destruct (is_space c) eqn:Es.
    + destruct (b || sep_ahead p r) eqn:Eb; [apply IH, Hr|].
      apply orb_false_iff in Eb. destruct Eb as [-> Ea].
      apply free_of_cons; [|apply IH, Hr].
      apply (sub_around_head_ok R r false c HR Horig). intros _. tauto.
    + apply free_of_cons; [|apply IH, Hr].
      apply (sub_around_head_ok R r false c HR Horig).
      intro Hc. congruence.
Qed.

Lemma sub_around_spaces_normal (t : str) :
  spaces_normal t -> spaces_normal (sub_around p false t).
Proof.
  intros (Hctl & Hds & Hedges). split; [|split].
  - apply sub_around_Forall, Hctl.
  - apply sub_around_free_of; [|exact Hds].
    intros x y H. left. unfold double_space in H.
    apply andb_true_iff in H. destruct H as [H _].
    apply is_char_eq in H. subst x. reflexivity.
  - apply sub_around_edges, Hedges.
Qed.
End SubAround.

Lemma glued_space_side (q : ascii -> bool) (x y : ascii) :
  glued q x y = true -> is_space x = true \/ is_space y = true.
Proof.
  unfold glued. rewrite orb_true_iff, !andb_true_iff. tauto.
Qed.

Lemma date_sep_not_space (c : ascii) : is_date_sep c = true -> is_space c = false.
Proof. each_char c; try discriminate; reflexivity. Qed.

Lemma normalize_date_token_idem (s : str) :
  normalize_date_token (normalize_date_token s) = normalize_date_token s.
Proof.
  unfold normalize_date_token.
  rewrite normalize_spaces_fixed.
  - apply sub_around_idem, date_sep_not_space.
  - apply sub_around_spaces_normal;
      [apply date_sep_not_space|apply normalize_spaces_normal].
Qed.

(** *** Runs of white space *)

Lemma sub_ws_runs_hd (t : str) : hd_space (sub_ws_runs true t) = false.
Proof.
  induction t as [|c r IH]; simpl; [reflexivity|].
  destruct (is_space c) eqn:Es; [exact IH|simpl; exact Es].
Qed.

Lemma sub_ws_runs_only_spaces (t : str) :
  forall b, only_spaces (sub_ws_runs b t).
Proof.
  induction t as [|c r IH]; intro b; simpl; [constructor|].
  destruct (is_space c) eqn:Es.
  - destruct b; [apply IH|]. constructor; [reflexivity|apply IH].
  - constructor; [congruence|apply IH].
Qed.

Lemma sub_ws_runs_pair_free (t : str) :
  forall b, free_of space_pair (sub_ws_runs b t).
Proof.
  induction t as [|c r IH]; intro b; simpl; [apply free_of_nil|].
  destruct (is_space c) eqn:Es.
  - destruct b; [apply IH|]. apply free_of_cons; [|apply IH].
    intros d o E. pose proof (sub_ws_runs_hd r) as H. rewrite E in H.
    unfold space_pair. simpl in H. rewrite H. apply andb_false_r.
  - apply free_of_cons; [|apply IH].
    intros d o E. unfold space_pair. rewrite Es. reflexivity.
Qed.

Lemma sub_ws_runs_fixed (t : str) :
  forall b, only_spaces t -> free_of space_pair t ->
            (b = true -> hd_space t = false) ->
            sub_ws_runs b t = t.
Proof.
  induction t as [|c r IH]; intros b Honly Hfree Hb; simpl; [reflexivity|].
  inversion Honly as [|? ? Hc Hr]; subst.
  pose proof (free_of_tail _ _ _ Hfree) as Hfr.
  destruct (is_space c) eqn:Es.
  - destruct b; [specialize (Hb eq_refl); simpl in Hb; congruence|].
    rewrite <- (Hc eq_refl). f_equal. apply IH; try assumption.
    intros _. destruct r as [|d r']; [reflexivity|].
    pose proof (free_of_head _ _ _ _ Hfree) as H. unfold space_pair in H.
    rewrite Es in H. exact H.
  - f_equal. apply IH; try assumption. discriminate.
Qed.

Lemma sub_ws_runs_last (t : str) (z : ascii) :
  is_space z = false ->
  forall b, exists w, sub_ws_runs b (t ++ [z]) = w ++ [z].
Proof.
  intro Hz. induction t as [|c r IH]; intro b; simpl.
  - rewrite Hz. exists []. reflexivity.
  - destruct (is_space c).
    + destruct b; [apply IH|].
      destruct (IH true) as (w & ->). exists (" "%char :: w). reflexivity.
    + destruct (IH false) as (w & ->). exists (c :: w). reflexivity.
Qed.

Lemma sub_ws_runs_edges (t : str) :
  edges_clean t -> edges_clean (sub_ws_runs false t).
Proof.
  intros [Hh Hl]. split.
  - destruct t as [|c r]; [reflexivity|]. simpl in *. rewrite Hh. exact Hh.
  - destruct (rev t) as [|z r] eqn:E.
    + apply (f_equal (@rev ascii)) in E. rewrite rev_involutive in E.
      subst t. reflexivity.
    + apply (f_equal (@rev ascii)) in E. rewrite rev_involutive in E.
      simpl in E. subst t. simpl in Hl.
      destruct (sub_ws_runs_last (rev r) z Hl false) as (w & ->).
      rewrite rev_app_distr. simpl. exact Hl.
Qed.

Lemma only_spaces_no_ctl (t : str) : only_spaces t -> Forall no_ctl t.
Proof.
  intro H. eapply Forall_impl; [|exact H]. intros c Hc. unfold no_ctl.
  repeat split; (destruct (is_char _ c) eqn:E; [|reflexivity];
                 apply is_char_eq in E; subst c;
                 specialize (Hc eq_refl); discriminate Hc).
Qed.

Lemma space_pair_free_double (t : str) :
  free_of space_pair t -> free_of double_space t.
Proof.
  intros H pre c d post E. specialize (H pre c d post E).
  unfold space_pair in H. unfold double_space.
  destruct (is_char " " c) eqn:Ec; [|reflexivity].
  destruct (is_char " " d) eqn:Ed; [|reflexivity].
  apply is_char_eq in Ec, Ed. subst. discriminate H.
Qed.

Lemma normalize_phone_idem (s : str) :
  normalize_phone (normalize_phone s) = normalize_phone s.
Proof.
  unfold normalize_phone.
  pose proof (normalize_spaces_normal s) as (_ & _ & Hedges).
  set (t := normalize_spaces s) in *.
  rewrite normalize_spaces_fixed.
  - apply sub_ws_runs_fixed;
      [apply sub_ws_runs_only_spaces|apply sub_ws_runs_pair_free|discriminate].
  - split; [|split].
    + apply only_spaces_no_ctl, sub_ws_runs_only_spaces.
    + apply space_pair_free_double, sub_ws_runs_pair_free.
    + apply sub_ws_runs_edges, Hedges.
Qed.

(** *** The e-mail normaliser *)

Lemma free_of_subst (R : ascii -> ascii -> bool) (x y : ascii) (b : str) :
  forall a,
    free_of R (a ++ x :: b) ->
    (forall pre c, a = pre ++ [c] -> R c y = false) ->
    (forall d post, b = d :: post -> R y d = false) ->
    free_of R (a ++ y :: b).
Proof.
  induction a as [|c a IH]; intros Hfree Hleft Hright; simpl in *.
  - apply free_of_cons; [exact Hright|eapply free_of_tail, Hfree].
  - apply free_of_cons.
    + intros d r E. destruct a as [|e a']; simpl in E; inversion E; subst.
      * apply (Hleft [] c). reflexivity.
      * eapply free_of_head, Hfree.
    + apply IH; [eapply free_of_tail, Hfree| |exact Hright].
      intros pre c' ->. apply (Hleft (c :: pre) c'). reflexivity.
Qed.

Lemma forallb_rev (p : ascii -> bool) (t : str) :
  forallb p t = true -> forallb p (rev t) = true.
Proof.
  rewrite !forallb_forall. intros H c Hin. apply H, in_rev, Hin.
Qed.

Lemma sub_trailing_underscore_cases (t : str) :
  sub_trailing_underscore t = t
  \/ exists a b,
       t = a ++ "_"%char :: b
       /\ sub_trailing_underscore t = a ++ "."%char :: b
       /\ forallb is_alpha b = true.
Proof.
  unfold sub_trailing_underscore.
  pose proof (take_drop_while is_alpha (rev t)) as Hsplit.
  pose proof (take_while_all is_alpha (rev t)) as Htld.
  remember (take_while is_alpha (rev t)) as tld eqn:Etld. clear Etld.
  destruct (drop_while is_alpha (rev t)) as [|u r1]; [left; reflexivity|].
  destruct (drop_while is_domain_char r1) as [|x [|l rest]];
    try (left; reflexivity).
  destruct (_ && _) eqn:E; [|left; reflexivity].
  right. rewrite !andb_true_iff in E.
  destruct E as [[[[Hu _] _] _] _]. apply is_char_eq in Hu. subst u.
  exists (rev r1), (rev tld).
  assert (Ht : t = rev r1 ++ "_"%char :: rev tld).
  { rewrite <- (rev_involutive t), <- Hsplit, rev_app_distr. simpl.
    rewrite <- app_assoc. reflexivity. }
  split; [exact Ht|]. split.
  - rewrite rev_app_distr. simpl. rewrite <- app_assoc. reflexivity.
  - apply forallb_rev, Htld.
Qed.

Lemma sub_trailing_underscore_fixed (a b : str) :
  forallb is_alpha b = true ->
  sub_trailing_underscore (a ++ "."%char :: b) = a ++ "."%char :: b.
Proof.
  intro Hb. unfold sub_trailing_underscore.
  rewrite rev_app_distr. simpl rev. rewrite <- app_assoc. simpl app.
  destruct (take_while_app is_alpha (rev b) "." (rev a) (forallb_rev _ _ Hb)
              eq_refl) as [-> ->].
  destruct (drop_while is_domain_char (rev a)) as [|x [|l rest]]; reflexivity.
Qed.

Lemma hd_space_app (a : str) (x y : ascii) (b : str) :
  is_space x = is_space y ->
  hd_space (a ++ y :: b) = hd_space (a ++ x :: b).
Proof. intro H. destruct a; simpl; [symmetry; exact H|reflexivity]. Qed.

Lemma glued_dot_other (q : ascii -> bool) (c : ascii) :
  q "."%char = false ->
  glued q c "." = false /\ glued q "." c = false.
Proof.
  intro Hq. unfold glued. rewrite Hq. simpl.
  rewrite !andb_false_r. split; reflexivity.
Qed.

Lemma email_normal_underscore (a b : str) :
  email_normal (a ++ "_"%char :: b) -> email_normal (a ++ "."%char :: b).
Proof.
  intros ((Hctl & Hds & Hh & Hl) & Hat & Hdot & Hus).
  assert (Hleft : forall pre c, a = pre ++ [c] -> is_space c = false).
  { intros pre c ->.
    pose proof (Hus pre c "_"%char b) as H.
    rewrite <- app_assoc in H. specialize (H eq_refl).
    unfold glued in H. apply orb_false_iff in H. destruct H as [H _].
    simpl in H. rewrite andb_true_r in H. exact H. }
  assert (Hright : forall d post, b = d :: post -> is_space d = false).
  { intros d post ->.
    pose proof (Hus a "_"%char d post eq_refl) as H.
    unfold glued in H. apply orb_false_iff in H. destruct H as [_ H].
    exact H. }
  split; [split; [|split; [|split]]|split; [|split]].
  - apply Forall_app in Hctl. destruct Hctl as [Ha Hb].
    apply Forall_app. split; [exact Ha|].
    inversion Hb; subst. constructor; [repeat split|assumption].
  - apply (free_of_subst double_space "_" "." b a Hds).
    + intros pre c _. unfold double_space. apply andb_false_r.
    + intros d post _. reflexivity.
  - rewrite (hd_space_app a "_" "." b eq_refl). exact Hh.
  - rewrite rev_app_distr in *. simpl in *. rewrite <- app_assoc in *.
    simpl in *. rewrite (hd_space_app (rev b) "_" "." (rev a) eq_refl). exact Hl.
  - apply (free_of_subst _ "_" "." b a Hat).
    + intros pre c _. apply glued_dot_other. reflexivity.
    + intros d post _. apply glued_dot_other. reflexivity.
  - apply (free_of_subst _ "_" "." b a Hdot).
    + intros pre c E. unfold glued. rewrite (Hleft pre c E).
      change (is_space ".") with false. rewrite andb_false_r. reflexivity.
    + intros d post E. unfold glued. rewrite (Hright d post E).
      change (is_space ".") with false. rewrite andb_false_r. reflexivity.
  - apply (free_of_subst _ "_" "." b a Hus).
    + intros pre c _. apply glued_dot_other. reflexivity.
    + intros d post _. apply glued_dot_other. reflexivity.
Qed.

Lemma is_char_not_space (x : ascii) :
  is_space x = false -> forall c, is_char x c = true -> is_space c = false.
Proof. intros Hx c Hc. apply is_char_eq in Hc. subst c. exact Hx. Qed.

Lemma email_scans_normal (s : str) :
  email_normal
    (sub_around (is_char "_") false
       (sub_around (is_char ".") false
          (sub_around (is_char "@") false (normalize_spaces s)))).
Proof.
  pose proof (is_char_not_space "@" eq_refl) as Pat.
  pose proof (is_char_not_space "." eq_refl) as Pdot.
  pose proof (is_char_not_space "_" eq_refl) as Pus.
  split; [|split; [|split]].
  - repeat (apply sub_around_spaces_normal; [assumption|]).
    apply normalize_spaces_normal.
  - do 2 (apply sub_around_free_of; [assumption|apply glued_space_side|]).
    apply sub_around_glue_free, Pat.
  - apply sub_around_free_of; [assumption|apply glued_space_side|].
    apply sub_around_glue_free, Pdot.
  - apply sub_around_glue_free, Pus.
Qed.

Lemma email_normal_scans_fixed (t : str) :
  email_normal t ->
  sub_around (is_char "_") false
    (sub_around (is_char ".") false
       (sub_around (is_char "@") false (normalize_spaces t))) = t.
Proof.
  intros (Hsn & Hat & Hdot & Hus).
  rewrite (normalize_spaces_fixed t Hsn).
  rewrite (sub_around_fixed (is_char "@") t false Hat) by discriminate.
  rewrite (sub_around_fixed (is_char ".") t false Hdot) by discriminate.
  apply sub_around_fixed; [exact Hus|discriminate].
Qed.

Lemma normalize_email_idem (s : str) :
  normalize_email (normalize_email s) = normalize_email s.
Proof.
  unfold normalize_email.
  pose proof (email_scans_normal s) as Hn.
  set (t := sub_around (is_char "_") false _) in *.
  destruct (sub_trailing_underscore_cases t) as [E|(a & b & Et & E & Hb)].
  - rewrite E. rewrite (email_normal_scans_fixed t Hn). exact E.
  - rewrite E. rewrite Et in Hn.
    rewrite (email_normal_scans_fixed _ (email_normal_underscore a b Hn)).
    apply sub_trailing_underscore_fixed, Hb.
Qed.

(** C7: each normaliser, applied to its own result, leaves it unchanged. *)
Theorem normalize_idempotent (t : entity_type) (s : str) :
  normalize t (normalize t s) = normalize t s.
Proof.
  destruct t; simpl.
  - apply normalize_date_token_idem.
  - apply normalize_iban_idem.
  - apply normalize_phone_idem.
  - apply normalize_email_idem.
Qed.

(** * Further properties *)

(** ** The edit distance *)

Lemma lev_nil_r (a : str) : lev a [] = length a.
Proof. destruct a; reflexivity. Qed.

Lemma lev_cons (x y : ascii) (a b : str) :
  lev (x :: a) (y :: b)
  = Nat.min (Nat.min (lev a (y :: b) + 1) (lev (x :: a) b + 1))
            (lev a b + (if Ascii.eqb x y then 0 else 1)).
Proof. reflexivity. Qed.

Lemma lev_refl (a : str) : lev a a = 0.
Proof.
  induction a as [|x a IH]; [reflexivity|].
  rewrite lev_cons, IH, Ascii.eqb_refl. lia.
Qed.

Lemma lev_aligned (a : str) : forall b, aligned a b (lev a b).
Proof.
  induction a as [|x a IHa]; intro b.
  - simpl. induction b as [|y b IHb]; simpl; constructor. exact IHb.
  - induction b as [|y b IHb].
    + rewrite lev_nil_r. simpl. constructor.
      specialize (IHa []). rewrite lev_nil_r in IHa. exact IHa.
    + rewrite lev_cons.
      destruct (Nat.min_spec (Nat.min (lev a (y :: b) + 1) (lev (x :: a) b + 1))
                  (lev a b + (if Ascii.eqb x y then 0 else 1))) as [[_ ->]|[_ ->]].
      * destruct (Nat.min_spec (lev a (y :: b) + 1) (lev (x :: a) b + 1))
          as [[_ ->]|[_ ->]]; rewrite Nat.add_1_r.
        -- apply aligned_delete, IHa.
        -- apply aligned_insert, IHb.
      * destruct (Ascii.eqb x y) eqn:E.
        -- apply Ascii.eqb_eq in E. subst y. rewrite Nat.add_0_r.
           apply aligned_keep, IHa.
        -- rewrite Nat.add_1_r. apply aligned_subst, IHa.
Qed.

Lemma lev_delete (x : ascii) (a b : str) : lev (x :: a) b <= lev a b + 1.
Proof.
  destruct b as [|y b]; [rewrite !lev_nil_r; simpl; lia|].
  rewrite lev_cons. lia.
Qed.

Lemma lev_insert (y : ascii) (a b : str) : lev a (y :: b) <= lev a b + 1.
Proof.
  destruct a as [|x a]; [simpl; lia|].
  rewrite lev_cons. lia.
Qed.

Lemma lev_least (a b : str) (n : nat) : aligned a b n -> lev a b <= n.
Proof.
  induction 1 as [|x a b n _ IH|x y a b n _ IH|x a b n _ IH|y a b n _ IH].
  - reflexivity.
  - rewrite lev_cons, Ascii.eqb_refl. lia.
  - rewrite lev_cons. destruct (Ascii.eqb x y); lia.
  - pose proof (lev_delete x a b). lia.
  - pose proof (lev_insert y a b). lia.
Qed.

(** Alignments read from the other end. *)
Lemma aligned_snoc_keep (x : ascii) (a b : str) (n : nat) :
  aligned a b n -> aligned (a ++ [x]) (b ++ [x]) n.
Proof.
  induction 1; simpl; try (constructor; assumption).
  apply aligned_keep, aligned_nil.
Qed.

Lemma aligned_snoc_subst (x y : ascii) (a b : str) (n : nat) :
  aligned a b n -> aligned (a ++ [x]) (b ++ [y]) (S n).
Proof.
  induction 1; simpl; try (constructor; assumption).
  apply aligned_subst, aligned_nil.
Qed.

Lemma aligned_snoc_delete (x : ascii) (a b : str) (n : nat) :
  aligned a b n -> aligned (a ++ [x]) b (S n).
Proof.
  induction 1; simpl; try (constructor; assumption).
  apply aligned_delete, aligned_nil.
Qed.

Lemma aligned_snoc_insert (y : ascii) (a b : str) (n : nat) :
  aligned a b n -> aligned a (b ++ [y]) (S n).
Proof.
  induction 1; simpl; try (constructor; assumption).
  apply aligned_insert, aligned_nil.
Qed.

Lemma aligned_rev (a b : str) (n : nat) :
  aligned a b n -> aligned (rev a) (rev b) n.
Proof.
  induction 1; simpl.
  - constructor.
  - apply aligned_snoc_keep; assumption.
  - apply aligned_snoc_subst; assumption.
  - apply aligned_snoc_delete; assumption.
  - apply aligned_snoc_insert; assumption.
Qed.

Lemma lev_rev (a b : str) : lev (rev a) (rev b) = lev a b.
Proof.
  apply Nat.le_antisymm.
  - apply lev_least, aligned_rev, lev_aligned.
  - apply lev_least.
    pose proof (aligned_rev _ _ _ (lev_aligned (rev a) (rev b))) as H.
    rewrite !rev_involutive in H. exact H.
Qed.

(** The rows of the table. *)
Lemma row_from_unfold (ra rb rest : str) :
  row_from ra rb rest
  = lev ra rb :: match rest with
                 | [] => []
                 | y :: rest' => row_from ra (y :: rb) rest'
                 end.
Proof. destruct rest; reflexivity. Qed.

Lemma row_zero (rest : str) :
  forall rb, row_from [] rb rest = seq (length rb) (S (length rest)).
Proof.
  induction rest as [|y rest IH]; intro rb; [reflexivity|].
  rewrite row_from_unfold, IH. reflexivity.
Qed.

Lemma dp_row_spec (ai : ascii) (ra : str) (rest : str) :
  forall rb,
    dp_row ai rest (row_from ra rb rest) (lev (ai :: ra) rb)
    = tl (row_from (ai :: ra) rb rest).
Proof.
  induction rest as [|y rest IH]; intro rb; [reflexivity|].
  rewrite (row_from_unfold ra rb), (row_from_unfold (ai :: ra) rb).
  rewrite (row_from_unfold ra (y :: rb)).
  cbn [dp_row tl].
  rewrite <- (row_from_unfold ra (y :: rb)).
  rewrite <- lev_cons, IH.
  rewrite (row_from_unfold (ai :: ra) (y :: rb)). reflexivity.
Qed.

Lemma dp_rows_spec (b : str) (a : str) :
  forall ra,
    dp_rows a b (length ra) (row_from ra [] b) = row_from (rev a ++ ra) [] b.
Proof.
  induction a as [|ai a IH]; intro ra; [reflexivity|].
  cbn [dp_rows].
  replace (S (length ra) :: dp_row ai b (row_from ra [] b) (S (length ra)))
    with (row_from (ai :: ra) [] b).
  - change (S (length ra)) with (length (ai :: ra)). rewrite IH.
    simpl. rewrite <- app_assoc. reflexivity.
  - pose proof (dp_row_spec ai ra b []) as H.
    change (lev (ai :: ra) []) with (S (length ra)) in H. rewrite H.
    rewrite (row_from_unfold (ai :: ra) []). reflexivity.
Qed.

Lemma row_last (ra : str) (rest : str) :
  forall rb d, last (row_from ra rb rest) d = lev ra (rev rest ++ rb).
Proof.
  induction rest as [|y rest IH]; intros rb d; [reflexivity|].
  rewrite row_from_unfold.
  change (last (lev ra rb :: row_from ra (y :: rb) rest) d)
    with (match row_from ra (y :: rb) rest with
          | [] => lev ra rb
          | _ :: _ => last (row_from ra (y :: rb) rest) d
          end).
  rewrite (row_from_unfold ra (y :: rb)) at 1.
  rewrite IH. simpl. rewrite <- app_assoc. reflexivity.
Qed.

Lemma edit_distance_lev (a b : str) : edit_distance a b = lev a b.
Proof.
  rewrite <- lev_rev. unfold edit_distance.
  destruct (str_eqb a b) eqn:E.
  - apply str_eqb_eq in E. subst b. symmetry. apply lev_refl.
  - destruct a as [|x a]; [simpl; rewrite length_rev; reflexivity|].
    destruct b as [|y b]; [rewrite lev_nil_r, length_rev; reflexivity|].
    pose proof (row_zero (y :: b) []) as Hz.
    pose proof (dp_rows_spec (y :: b) (x :: a) []) as Hr.
    rewrite Hz in Hr. cbn [length] in Hr. cbn [length]. rewrite Hr.
    rewrite row_last, !app_nil_r. reflexivity.
Qed.

Lemma edit_distance_aligned_least (a b : str) :
  aligned a b (edit_distance a b)
  /\ forall n, aligned a b n -> edit_distance a b <= n.
Proof.
  rewrite edit_distance_lev. split; [apply lev_aligned|].
  intros n. apply lev_least.
Qed.

(** X1: [edit_distance] is the Levenshtein distance: there is an alignment
    of the two strings with that many edits, and none with fewer. *)
Theorem edit_distance_least_alignment (a b : str) :
  aligned a b (edit_distance a b)
  /\ forall n, aligned a b n -> edit_distance a b <= n.
Proof. exact (edit_distance_aligned_least a b). Qed.

Lemma aligned_sym (a b : str) (n : nat) : aligned a b n -> aligned b a n.
Proof. induction 1; constructor; assumption. Qed.

Lemma aligned_zero (a b : str) (n : nat) : aligned a b n -> n = 0 -> a = b.
Proof.
  induction 1 as [|x a b n _ IH| | |]; intro Hn; try discriminate.
  - reflexivity.
  - f_equal. apply IH, Hn.
Qed.

Lemma aligned_lengths (a b : str) (n : nat) :
  aligned a b n -> length a <= length b + n /\ length b <= length a + n.
Proof. induction 1; simpl; lia. Qed.

Lemma lev_upper (a : str) : forall b, lev a b <= Nat.max (length a) (length b).
Proof.
  induction a as [|x a IH]; intro b; [simpl; lia|].
  destruct b as [|y b]; [rewrite lev_nil_r; lia|].
  rewrite lev_cons. specialize (IH b). simpl length.
  destruct (Ascii.eqb x y); lia.
Qed.

Lemma edit_distance_zero_iff_sym (a b : str) :
  (edit_distance a b = 0 <-> a = b)
  /\ edit_distance a b = edit_distance b a.
Proof.
  split.
  - split.
    + intro H. destruct (edit_distance_aligned_least a b) as [Ha _].
      eapply aligned_zero; eassumption.
    + intros ->. rewrite edit_distance_lev. apply lev_refl.
  - apply Nat.le_antisymm.
    + apply edit_distance_aligned_least, aligned_sym,
        edit_distance_aligned_least.
    + apply edit_distance_aligned_least, aligned_sym,
        edit_distance_aligned_least.
Qed.

(** X2: the edit distance is zero exactly between equal strings, and it
    does not depend on the order of its arguments. *)
Theorem edit_distance_zero_sym (a b : str) :
  (edit_distance a b = 0 <-> a = b)
  /\ edit_distance a b = edit_distance b a.
Proof. exact (edit_distance_zero_iff_sym a b). Qed.

(** X3: the edit distance is at least the difference of the two lengths and
    at most the greater of them. *)
Theorem edit_distance_bounds (a b : str) :
  length a - length b <= edit_distance a b
  /\ length b - length a <= edit_distance a b
  /\ edit_distance a b <= Nat.max (length a) (length b).
Proof.
  destruct (edit_distance_aligned_least a b) as [Ha _].
  apply aligned_lengths in Ha.
  rewrite edit_distance_lev in *. pose proof (lev_upper a b). lia.
Qed.

(** ** The scorers *)

Lemma clamp_score_range (v : Q) : (0 <= clamp_score v <= 1)%Q.
Proof.
  unfold clamp_score. split.
  - eapply Qle_trans; [|apply Q.le_max_l]. discriminate.
  - apply Q.max_lub; [discriminate|].
    eapply Qle_trans; [apply Q.le_min_l|]. discriminate.
Qed.

Lemma score_date_loop_range (regexes : list (str -> option (str * str * str)))
  (cleaned : str) (r : bool * Q) :
  score_date_loop regexes cleaned = Some r -> (0 <= snd r <= 1)%Q.
Proof.
  induction regexes as [|regex rest IH]; simpl; [discriminate|].
  destruct (regex cleaned) as [[[p0 p1] p2]|]; [|exact IH].
  destruct (if (length p0 =? 4) then _ else _) as [[year month] day].
  destruct (_ && _)%bool; intro H; inversion H; subst; simpl;
    split; discriminate.
Qed.

(** X4: whatever the type and the text, the score lies between 0 and 1. *)
Theorem score_entity_range (t : entity_type) (text : str) :
  (0 <= snd (score_entity t text) <= 1)%Q.
Proof.
  destruct t; simpl.
  - unfold score_date.
    destruct (score_date_loop DATE_REGEXES (normalize_spaces text)) eqn:E.
    + eapply score_date_loop_range, E.
    + apply clamp_score_range.
  - unfold score_iban.
    destruct (IBAN_REGEX_match (normalize_iban text)).
    + simpl. destruct (iban_checksum_ok (normalize_iban text));
        split; discriminate.
    + apply clamp_score_range.
  - unfold score_phone.
    destruct (PHONE_REGEX_match (normalize_phone text)).
    + destruct (_ && _)%bool; simpl; split; discriminate.
    + apply clamp_score_range.
  - unfold score_email.
    destruct (EMAIL_REGEX_match (normalize_email text)).
    + simpl. split; discriminate.
    + destruct (email_candidates (normalize_email text)).
      * simpl. split; discriminate.
      * apply clamp_score_range.
Qed.

Lemma strict_iban_full_score (text : str) :
  is_valid_iban text = true <-> score_iban text = (true, 1.0%Q).
Proof.
  unfold is_valid_iban, score_iban.
  destruct (IBAN_REGEX_match (normalize_iban text)); simpl.
  - destruct (iban_checksum_ok (normalize_iban text)); split;
      intro H; try reflexivity; discriminate H.
  - split; intro H; discriminate H.
Qed.

Lemma strict_phone_full_score (text : str) :
  is_valid_phone text = true -> score_phone text = (true, 1.0%Q).
Proof.
  unfold is_valid_phone, score_phone.
  destruct (existsb is_alpha (normalize_phone text)); [discriminate|].
  destruct ((length (digits_only (normalize_phone text)) <? 7)
            || (15 <? length (digits_only (normalize_phone text)))) eqn:E;
    [discriminate|].
  destruct (PHONE_REGEX_match (normalize_phone text)); [|discriminate].
  intros _. apply orb_false_iff in E. destruct E as [E1 E2].
  apply Nat.ltb_ge in E1, E2.
  replace (7 <=? length (digits_only (normalize_phone text))) with true
    by (symmetry; apply Nat.leb_le; exact E1).
  replace (length (digits_only (normalize_phone text)) <=? 15) with true
    by (symmetry; apply Nat.leb_le; exact E2).
  reflexivity.
Qed.


(** X5: scoring or testing a value that its normaliser has already cleaned
    gives what the raw value gives, for IBANs, phone numbers and addresses;
    for dates this holds of [normalize_spaces], which is what the date
    scorer applies. *)
Theorem score_after_normalize (text : str) :
  score_entity Iban (normalize Iban text) = score_entity Iban text
  /\ score_entity Phone (normalize Phone text) = score_entity Phone text
  /\ score_entity Email (normalize Email text) = score_entity Email text
  /\ is_valid_entity Iban (normalize Iban text) = is_valid_entity Iban text
  /\ is_valid_entity Phone (normalize Phone text) = is_valid_entity Phone text
  /\ is_valid_entity Email (normalize Email text) = is_valid_entity Email text
  /\ score_date (normalize_spaces text) = score_date text.
Proof.
  simpl.
  unfold score_iban, score_phone, score_email, is_valid_iban, is_valid_phone,
    is_valid_email, score_date.
  rewrite normalize_iban_idem, normalize_phone_idem, normalize_email_idem,
    normalize_spaces_idem.
  repeat split; reflexivity.
Qed.

Lemma upper_filter_space (t : str) :
  upper (filter (fun c => negb (is_space c)) t)
  = filter (fun c => negb (is_space c)) (upper t).
Proof.
  induction t as [|c t IH]; simpl; [reflexivity|].
  rewrite upper_char_space.
  destruct (is_space c); simpl; rewrite IH; reflexivity.
Qed.

Lemma filter_idem {A : Type} (f : A -> bool) (l : list A) :
  filter f (filter f l) = filter f l.
Proof.
  induction l as [|x l IH]; simpl; [reflexivity|].
  destruct (f x) eqn:E; simpl; [rewrite E, IH|]; auto.
Qed.

Lemma normalize_iban_upper (t : str) : normalize_iban (upper t) = normalize_iban t.
Proof.
  unfold normalize_iban.
  replace (upper (upper t)) with (upper t); [reflexivity|].
  unfold upper. rewrite map_map. apply map_ext. intro c.
  symmetry. apply upper_char_fixed.
Qed.

Lemma normalize_iban_unspaced (t : str) :
  normalize_iban (filter (fun c => negb (is_space c)) t) = normalize_iban t.
Proof.
  unfold normalize_iban. rewrite upper_filter_space, filter_idem. reflexivity.
Qed.

(** X6: the IBAN scorer and the strict IBAN test ignore the case of the
    letters and any white space in the text. *)
Theorem score_iban_ignores_case_and_spaces (text : str) :
  score_iban (upper text) = score_iban text
  /\ score_iban (filter (fun c => negb (is_space c)) text) = score_iban text
  /\ is_valid_iban (upper text) = is_valid_iban text
  /\ is_valid_iban (filter (fun c => negb (is_space c)) text)
     = is_valid_iban text.
Proof.
  unfold score_iban, is_valid_iban.
  rewrite normalize_iban_upper, normalize_iban_unspaced.
  repeat split; reflexivity.
Qed.

Lemma iban_features_match (c : str) :
  Forall (fun ch => is_space ch = false) c ->
  starts_two_letters_two_digits c = true ->
  all_upper_alnum c = true ->
  15 <= length c -> length c <= 34 ->
  IBAN_REGEX_match c = true.
Proof.
  intros Hns H2 H4 Hlo Hhi.
  unfold IBAN_REGEX_match, all_upper_alnum in *.
  rewrite (at_dollar_no_space _ c Hns) in H4.
  rewrite (at_dollar_no_space _ c Hns).
  destruct c as [|a [|b [|x [|y rest]]]]; try discriminate.
  unfold starts_two_letters_two_digits in H2.
  cbv beta in H4. unfold guard in H4.
  destruct (negb (length (a :: b :: x :: y :: rest) =? 0)
            && forallb is_upper_alnum (a :: b :: x :: y :: rest)) eqn:E;
    [|cbn in H4; discriminate H4].
  apply andb_true_iff in E. destruct E as [_ E].
  cbn [forallb] in E. rewrite !andb_true_iff in E.
  destruct E as (_ & _ & _ & _ & Hrest).
  unfold IBAN_REGEX_body, guard. rewrite H2, Hrest. cbn [andb].
  cbn [length] in Hlo, Hhi.
  replace (11 <=? length rest) with true by (symmetry; apply Nat.leb_le; lia).
  replace (length rest <=? 30) with true by (symmetry; apply Nat.leb_le; lia).
  reflexivity.
Qed.

(** X7: a text whose normal form fails the strict IBAN format is reported
    invalid with a score of at most 0.9. *)
Theorem score_iban_partial_below_full (text : str) :
  IBAN_REGEX_match (normalize_iban text) = false ->
  fst (score_iban text) = false /\ (snd (score_iban text) <= 0.9)%Q.
Proof.
  intro Hno. unfold score_iban. rewrite Hno. cbn [fst snd].
  split; [reflexivity|].
  pose proof (iban_features_match (normalize_iban text)
                (normalize_iban_no_space text)) as Hall.
  destruct (starts_two_letters (normalize_iban text)),
           (starts_two_letters_two_digits (normalize_iban text)),
           (all_upper_alnum (normalize_iban text)),
           ((12 <=? length (normalize_iban text))
            && (length (normalize_iban text) <=? 34)) eqn:E3,
           (15 <=? length (normalize_iban text)) eqn:E5;
    try (vm_compute; discriminate);
    (exfalso; apply andb_true_iff in E3; destruct E3 as [_ E3];
     apply Nat.leb_le in E3, E5;
     rewrite (Hall eq_refl eq_refl E5 E3) in Hno; discriminate Hno).
Qed.

Lemma score_iban_partial_below_full_witness :
  IBAN_REGEX_match (normalize_iban (L "DE12ABCDEFGH")) = false
  /\ (snd (score_iban (L "DE12ABCDEFGH")) <= 0.9)%Q.
Proof.
  split; [vm_compute; reflexivity|].
  apply (score_iban_partial_below_full (L "DE12ABCDEFGH")).
  vm_compute. reflexivity.
Defined.

Lemma closeness_below_one (cleaned c : str) :
  cleaned <> c -> c <> [] -> (closeness cleaned c < 1)%Q.
Proof.
  intros Hne Hc. unfold closeness.
  assert (Hd : 0 < edit_distance cleaned c).
  { destruct (edit_distance cleaned c) eqn:E; [|lia].
    apply edit_distance_zero_iff_sym in E. contradiction. }
  assert (Hl : 0 < Nat.max (length c) 1) by lia.
  set (d := edit_distance cleaned c) in *.
  set (n := Nat.max (length c) 1) in *.
  assert (Hq : (0 < inject_Z (Z.of_nat d) / inject_Z (Z.of_nat n))%Q).
  { apply Qlt_shift_div_l.
    - change 0%Q with (inject_Z 0). rewrite <- Zlt_Qlt. lia.
    - rewrite Qmult_0_l. change 0%Q with (inject_Z 0).
      rewrite <- Zlt_Qlt. lia. }
  apply Qlt_minus_iff.
  setoid_replace (1 + - (1.0 - inject_Z (Z.of_nat d) / inject_Z (Z.of_nat n)))%Q
    with (inject_Z (Z.of_nat d) / inject_Z (Z.of_nat n))%Q; [exact Hq|].
  setoid_replace 1.0%Q with 1%Q by reflexivity. ring.
Qed.

(** X8: an address whose normal form fails the strict grammar is reported
    invalid and its score stays strictly under 1, the score of a valid
    address. *)
Theorem score_email_invalid_below_one (text : str) :
  EMAIL_REGEX_match (normalize_email text) = false ->
  fst (score_email text) = false /\ (snd (score_email text) < 1)%Q.
Proof.
  intro Hno. unfold score_email. rewrite Hno.
  pose proof (email_candidates_valid (normalize_email text)) as Hvalid.
  rewrite Forall_forall in Hvalid.
  set (cleaned := normalize_email text) in *.
  destruct (email_candidates cleaned) as [|c0 cs] eqn:Ecs.
  - split; [reflexivity|]. reflexivity.
  - cbn [fst snd]. split; [reflexivity|].
    destruct (best_score_loop (closeness cleaned) (c0 :: cs) 0.0%Q)
      as (_ & _ & Hhit).
    set (r := fold_left _ (c0 :: cs) 0.0%Q) in *.
    assert (Hr : (r < 1)%Q).
    { destruct Hhit as [->|(c & Hin & ->)]; [reflexivity|].
      apply closeness_below_one.
      - intros ->. rewrite (Hvalid c Hin) in Hno. discriminate.
      - apply email_match_nonempty, Hvalid, Hin. }
    unfold clamp_score. apply Q.max_lub_lt; [reflexivity|].
    eapply Qle_lt_trans; [apply Q.le_min_r|exact Hr].
Qed.

Lemma score_email_invalid_below_one_witness :
  EMAIL_REGEX_match (normalize_email (L "john.doe@examplecom")) = false
  /\ (snd (score_email (L "john.doe@examplecom")) < 1)%Q.
Proof.
  split; [vm_compute; reflexivity|].
  apply (score_email_invalid_below_one (L "john.doe@examplecom")).
  vm_compute. reflexivity.
Defined.

(** The first of the highest, as [max] with a key picks it. *)
Lemma first_max_fold {A : Type} (key : A -> Q) (l : list A) :
  forall b0 r,
    fold_left (fun b x => if Qltb (key b) (key x) then x else b) l b0 = r ->
    (key b0 <= key r)%Q
    /\ (forall x, In x l -> (key x <= key r)%Q)
    /\ (r = b0
        \/ exists pre post,
             l = pre ++ r :: post
             /\ (key b0 < key r)%Q
             /\ forall x, In x pre -> (key x < key r)%Q).
Proof.
  induction l as [|x l IH]; intros b0 r H; simpl in H.
  - subst r. split; [apply Qle_refl|]. split; [intros ? []|left; reflexivity].
  - destruct (Qltb (key b0) (key x)) eqn:E.
    + apply Qltb_lt in E. destruct (IH _ _ H) as (H1 & H2 & H3).
      split; [eapply Qle_trans; [apply Qlt_le_weak, E|exact H1]|].
      split; [intros y [<-|Hy]; [exact H1|apply H2, Hy]|].
      right. destruct H3 as [->|(pre & post & -> & Hlt & Hpre)].
      * exists [], l. split; [reflexivity|]. split; [exact E|intros ? []].
      * exists (x :: pre), post. split; [reflexivity|].
        split; [eapply Qlt_trans; eassumption|].
        intros y [<-|Hy]; [exact Hlt|apply Hpre, Hy].
    + apply Qltb_ge in E. destruct (IH _ _ H) as (H1 & H2 & H3).
      split; [exact H1|].
      split; [intros y [<-|Hy]; [eapply Qle_trans; eassumption|apply H2, Hy]|].
      destruct H3 as [->|(pre & post & -> & Hlt & Hpre)]; [left; reflexivity|].
      right. exists (x :: pre), post. split; [reflexivity|].
      split; [exact Hlt|].
      intros y [<-|Hy]; [eapply Qle_lt_trans; eassumption|apply Hpre, Hy].
Qed.

(** X9: [classify_text] lists the four types in the order date, IBAN,
    phone, address; the best score is the highest of the four, and the best
    type is the first one in that order to reach it. *)
Theorem classify_text_first_best (text : str) :
  let c := classify_text text in
  map fst (results c) = [Date; Iban; Phone; Email]
  /\ (forall t r, In (t, r) (results c) ->
                  r = score_entity t text /\ (snd r <= best_score c)%Q)
  /\ exists pre r post,
       results c = pre ++ (best c, r) :: post
       /\ snd r = best_score c
       /\ forall x, In x pre -> (snd (snd x) < best_score c)%Q.
Proof.
  intro c. split; [reflexivity|].
  set (l := [(Date, score_date text); (Iban, score_iban text);
             (Phone, score_phone text); (Email, score_email text)]).
  set (key := fun x : entity_type * (bool * Q) => snd (snd x)).
  set (bt := fold_left (fun b x => if Qltb (key b) (key x) then x else b) l
                       (Date, score_date text)).
  pose proof (first_max_fold key l (Date, score_date text) bt eq_refl)
    as (_ & Hall & Hfirst).
  assert (Hbest : best c = fst bt) by reflexivity.
  assert (Hscore : best_score c = snd (snd bt)) by reflexivity.
  assert (Hres : results c = l) by reflexivity.
  rewrite Hres, Hscore, Hbest. split.
  - intros t r Hin. split.
    + simpl in Hin.
      destruct Hin as [H|[H|[H|[H|[]]]]]; inversion H; reflexivity.
    + apply (Hall (t, r) Hin).
  - destruct Hfirst as [Hd|(pre & post & Hl & _ & Hpre)].
    + exists [], (score_date text),
             [(Iban, score_iban text); (Phone, score_phone text);
              (Email, score_email text)].
      rewrite Hd. split; [reflexivity|]. split; [reflexivity|intros ? []].
    + exists pre, (snd bt), post. split; [|split; [reflexivity|exact Hpre]].
      rewrite Hl. destruct bt; reflexivity.
Qed.

(** ** Boxes *)

Lemma min_of_le (rest : list Q) :
  forall first,
    (min_of first rest <= first)%Q
    /\ (forall x, In x rest -> (min_of first rest <= x)%Q)
    /\ In (min_of first rest) (first :: rest).
Proof.
  unfold min_of. induction rest as [|y rest IH]; intro first; simpl.
  - split; [apply Qle_refl|]. split; [intros ? []|left; reflexivity].
  - destruct (IH (Qmin first y)) as (H1 & H2 & H3).
    split; [eapply Qle_trans; [exact H1|apply Q.le_min_l]|].
    split.
    + intros x [<-|Hx]; [eapply Qle_trans; [exact H1|apply Q.le_min_r]|].
      apply H2, Hx.
    + destruct H3 as [H3|H3]; [|right; right; exact H3].
      rewrite <- H3. unfold Qmin, GenericMinMax.gmin.
      destruct (first ?= y)%Q; auto.
Qed.

Lemma max_of_ge (rest : list Q) :
  forall first,
    (first <= max_of first rest)%Q
    /\ (forall x, In x rest -> (x <= max_of first rest)%Q)
    /\ In (max_of first rest) (first :: rest).
Proof.
  unfold max_of. induction rest as [|y rest IH]; intro first; simpl.
  - split; [apply Qle_refl|]. split; [intros ? []|left; reflexivity].
  - destruct (IH (Qmax first y)) as (H1 & H2 & H3).
    split; [eapply Qle_trans; [apply Q.le_max_l|exact H1]|].
    split.
    + intros x [<-|Hx]; [eapply Qle_trans; [apply Q.le_max_r|exact H1]|].
      apply H2, Hx.
    + destruct H3 as [H3|H3]; [|right; right; exact H3].
      rewrite <- H3. unfold Qmax, GenericMinMax.gmax.
      destruct (first ?= y)%Q; auto.
Qed.

(** X10: the box [_bbox_metrics] builds from a polygon holds every point of
    the polygon, its corners are coordinates of points of the polygon, and
    its height is the difference of its vertical bounds, which is not
    negative. *)
Theorem bbox_metrics_bounds (pt : Q * Q) (bbox : list (Q * Q)) :
  let b := _bbox_metrics pt bbox in
  (forall p, In p (pt :: bbox) ->
             (min_x b <= fst p <= max_x b)%Q /\ (min_y b <= snd p <= max_y b)%Q)
  /\ In (min_x b) (map fst (pt :: bbox)) /\ In (max_x b) (map fst (pt :: bbox))
  /\ In (min_y b) (map snd (pt :: bbox)) /\ In (max_y b) (map snd (pt :: bbox))
  /\ height b = (max_y b - min_y b)%Q
  /\ (0 <= height b)%Q.
Proof.
  intro b. unfold b, _bbox_metrics. cbn [min_x max_x min_y max_y height].
  destruct (min_of_le (map fst bbox) (fst pt)) as (Hx1 & Hx2 & Hx3).
  destruct (max_of_ge (map fst bbox) (fst pt)) as (Hx4 & Hx5 & Hx6).
  destruct (min_of_le (map snd bbox) (snd pt)) as (Hy1 & Hy2 & Hy3).
  destruct (max_of_ge (map snd bbox) (snd pt)) as (Hy4 & Hy5 & Hy6).
  split; [|repeat split; try assumption].
  - intros p [<-|Hp]; [repeat split; assumption|].
    repeat split;
      [apply Hx2|apply Hx5|apply Hy2|apply Hy5]; apply in_map, Hp.
  - unfold Qminus. rewrite <- Qle_minus_iff. eapply Qle_trans; eassumption.
Qed.

Lemma merge_boxes_covers (token : item) (tokens : list item) :
  let m := _merge_boxes token tokens in
  (forall t, In t (token :: tokens) ->
             (m_min_x m <= min_x (item_box t))%Q
             /\ (max_x (item_box t) <= m_max_x m)%Q
             /\ (m_min_y m <= min_y (item_box t))%Q
             /\ (max_y (item_box t) <= m_max_y m)%Q)
  /\ In (m_min_x m) (map (fun t => min_x (item_box t)) (token :: tokens))
  /\ In (m_min_y m) (map (fun t => min_y (item_box t)) (token :: tokens))
  /\ In (m_max_x m) (map (fun t => max_x (item_box t)) (token :: tokens))
  /\ In (m_max_y m) (map (fun t => max_y (item_box t)) (token :: tokens)).
Proof.
  intro m. unfold m, _merge_boxes. cbn [m_min_x m_min_y m_max_x m_max_y].
  destruct (min_of_le (map (fun t => min_x (item_box t)) tokens)
              (min_x (item_box token))) as (Hx1 & Hx2 & Hx3).
  destruct (max_of_ge (map (fun t => max_x (item_box t)) tokens)
              (max_x (item_box token))) as (Hx4 & Hx5 & Hx6).
  destruct (min_of_le (map (fun t => min_y (item_box t)) tokens)
              (min_y (item_box token))) as (Hy1 & Hy2 & Hy3).
  destruct (max_of_ge (map (fun t => max_y (item_box t)) tokens)
              (max_y (item_box token))) as (Hy4 & Hy5 & Hy6).
  split; [|repeat split; assumption].
  intros t [<-|Ht]; [repeat split; assumption|].
  repeat split.
  - apply Hx2, (in_map (fun t => min_x (item_box t))), Ht.
  - apply Hx5, (in_map (fun t => max_x (item_box t))), Ht.
  - apply Hy2, (in_map (fun t => min_y (item_box t))), Ht.
  - apply Hy5, (in_map (fun t => max_y (item_box t))), Ht.
Qed.

(** X11: the box [_merge_boxes] returns holds the box of every token merged,
    and each of its four bounds is the bound of one of those tokens. *)
Theorem merge_boxes_union (token : item) (tokens : list item) :
  let m := _merge_boxes token tokens in
  (forall t, In t (token :: tokens) ->
             (m_min_x m <= min_x (item_box t))%Q
             /\ (max_x (item_box t) <= m_max_x m)%Q
             /\ (m_min_y m <= min_y (item_box t))%Q
             /\ (max_y (item_box t) <= m_max_y m)%Q)
  /\ In (m_min_x m) (map (fun t => min_x (item_box t)) (token :: tokens))
  /\ In (m_min_y m) (map (fun t => min_y (item_box t)) (token :: tokens))
  /\ In (m_max_x m) (map (fun t => max_x (item_box t)) (token :: tokens))
  /\ In (m_max_y m) (map (fun t => max_y (item_box t)) (token :: tokens)).
Proof. exact (merge_boxes_covers token tokens). Qed.

(** ** Lines and their boxes *)

Lemma inside_refl (b : box) : inside b b.
Proof. repeat split; apply Qle_refl. Qed.

Lemma absorb_covers (ln : line) (it : item) :
  covers_items ln -> covers_items (absorb ln it).
Proof.
  intro H. unfold covers_items, absorb. cbn [items line_box].
  apply Forall_app. split.
  - eapply Forall_impl; [|exact H].
    intros x (H1 & H2 & H3 & H4). unfold inside.
    cbn [min_x max_x min_y max_y]. repeat split.
    + eapply Qle_trans; [apply Q.le_min_l|exact H1].
    + eapply Qle_trans; [exact H2|apply Q.le_max_l].
    + eapply Qle_trans; [apply Q.le_min_l|exact H3].
    + eapply Qle_trans; [exact H4|apply Q.le_max_l].
  - constructor; [|constructor]. unfold inside.
    cbn [min_x max_x min_y max_y]. repeat split;
      first [apply Q.le_min_r|apply Q.le_max_r].
Qed.

Lemma placed_covers (thresh : Q) (lines lines' : list line) (it : item) :
  placed thresh lines it lines' ->
  Forall covers_items lines -> Forall covers_items lines'.
Proof.
  intros [(i & ln & _ & _ & _ & _ & ->)|[_ ->]] Hall.
  - revert i. induction Hall as [|l ls Hl Hls IH]; intros [|i]; simpl;
      constructor; auto. apply absorb_covers, Hl.
  - apply Forall_app. split; [exact Hall|].
    constructor; [|constructor].
    unfold covers_items, new_line. cbn [items line_box].
    constructor; [apply inside_refl|constructor].
Qed.

Lemma clustered_covers (thresh : Q) (lines lines' : list line)
  (order : list item) :
  clustered thresh lines order lines' ->
  Forall covers_items lines -> Forall covers_items lines'.
Proof.
  induction 1 as [lines|lines lines' lines'' it rest Hp _ IH]; intro Hall.
  - exact Hall.
  - apply IH. eapply placed_covers; eassumption.
Qed.

(** X12: in the lines the clustering returns, the box of a line holds the
    box of each of its tokens. *)
Theorem cluster_line_box_covers (tokens : list item) :
  Forall covers_items (_group_items_into_lines tokens 0.5).
Proof.
  unfold _group_items_into_lines.
  eapply Permutation_Forall; [apply sorted_by_perm|].
  apply Forall_map.
  pose proof (clustered_covers _ _ _ _
                (cluster_loop_clustered (sorted_by item_ltb tokens) [])
                (Forall_nil _)) as H.
  eapply Forall_impl; [|exact H].
  intros ln Hln. unfold covers_items, sort_line_items in *.
  cbn [items line_box].
  eapply Permutation_Forall; [apply sorted_by_perm|exact Hln].
Qed.

Lemma apart_ratio_zero (a b : box) :
  vertically_apart a b -> (_overlap_ratio a b == 0)%Q.
Proof.
  intro H. unfold _overlap_ratio.
  assert (Hov : (Qmax 0.0 (Qmin (max_y a) (max_y b) - Qmax (min_y a) (min_y b))
                 == 0)%Q).
  { apply Qle_antisym.
    - apply Q.max_lub; [discriminate|].
      assert (Hle : (Qmin (max_y a) (max_y b) <= Qmax (min_y a) (min_y b))%Q).
      { destruct H as [H|H].
        + eapply Qle_trans; [apply Q.le_min_l|].
          eapply Qle_trans; [exact H|apply Q.le_max_r].
        + eapply Qle_trans; [apply Q.le_min_r|].
          eapply Qle_trans; [exact H|apply Q.le_max_l]. }
      apply (proj1 (Qplus_le_l _ _ (Qmax (min_y a) (min_y b)))).
      setoid_replace (Qmin (max_y a) (max_y b) - Qmax (min_y a) (min_y b)
                      + Qmax (min_y a) (min_y b))%Q
        with (Qmin (max_y a) (max_y b)) by ring.
      rewrite Qplus_0_l. exact Hle.
    - eapply Qle_trans; [|apply Q.le_max_l]. discriminate. }
  rewrite Hov. unfold Qdiv. apply Qmult_0_l.
Qed.

(** X13: a token that shares no vertical extent with any line so far opens
    a line of its own. *)
Theorem place_apart_opens_line (lines : list line) (it : item) :
  (forall ln, In ln lines -> vertically_apart (line_box ln) (item_box it)) ->
  place 0.5 lines it = lines ++ [new_line it].
Proof.
  intro Hap.
  destruct (place_placed lines it)
    as [(i & ln & Hn & Hth & _ & _ & _)|[_ H]]; [|exact H].
  exfalso. apply nth_error_In in Hn.
  pose proof (apart_ratio_zero _ _ (Hap ln Hn)) as Hz.
  unfold ratio_of in Hth. rewrite Hz in Hth. apply Hth. reflexivity.
Qed.

Lemma place_apart_opens_line_witness :
  let a := {| text := L "a"; conf := 1;
              item_box := {| min_x := 0; max_x := 10; min_y := 0; max_y := 10;
                             height := 10 |} |} in
  let b := {| text := L "b"; conf := 1;
              item_box := {| min_x := 0; max_x := 10; min_y := 20; max_y := 30;
                             height := 10 |} |} in
  place 0.5 [new_line a] b = [new_line a; new_line b].
Proof.
  cbv zeta. apply (place_apart_opens_line [new_line _] _).
  intros ln [<-|[]]. left. vm_compute. discriminate.
Defined.

(** ** The text of a line and the tokens of a span *)

Lemma concat_spaced (tokens : list item) :
  concat (flat_map (fun t => [L " "; text t]) tokens)
  = match tokens with
    | [] => []
    | _ :: _ => " "%char :: join_spaces (map text tokens)
    end.
Proof.
  induction tokens as [|t rest IH]; [reflexivity|].
  cbn [flat_map app concat map join_spaces]. rewrite IH.
  destruct rest; reflexivity.
Qed.

Lemma line_text_loop_spaced (tokens : list item) :
  forall idx pos p parts offsets,
    line_text_loop tokens idx pos (p :: parts) offsets
    = ((p :: parts) ++ flat_map (fun t => [L " "; text t]) tokens,
       offsets ++ offsets_from tokens idx (pos + 1)).
Proof.
  induction tokens as [|t rest IH]; intros idx pos p parts offsets.
  - simpl. rewrite !app_nil_r. reflexivity.
  - cbn [line_text_loop].
    destruct ((p :: parts) ++ [L " "]) as [|p' parts'] eqn:E;
      [destruct parts; discriminate E|].
    destruct (parts' ++ [text t]) as [|q parts''] eqn:E2;
      [destruct parts'; discriminate E2|].
    change ((p' :: parts') ++ [text t]) with (p' :: parts' ++ [text t]).
    rewrite E2, IH. rewrite <- E2.
    change (p' :: parts' ++ [text t]) with ((p' :: parts') ++ [text t]).
    rewrite <- E. cbn [flat_map offsets_from].
    rewrite <- !app_assoc. reflexivity.
Qed.

Lemma line_text_and_offsets_spec (tokens : list item) :
  _line_text_and_offsets tokens
  = (join_spaces (map text tokens), offsets_from tokens 0 0).
Proof.
  unfold _line_text_and_offsets.
  destruct tokens as [|t rest]; [reflexivity|].
  cbn [line_text_loop app].
  rewrite line_text_loop_spaced.
  rewrite concat_app, concat_spaced.
  cbn [app concat offsets_from map join_spaces]. rewrite app_nil_r.
  destruct rest; reflexivity.
Qed.

Lemma offsets_from_next (t : item) (rest : list item) (idx pos k : nat) :
  nth_error (offsets_from (t :: rest) idx pos) (S k)
  = nth_error (offsets_from rest (S idx) (pos + length (text t) + 1)) k.
Proof. reflexivity. Qed.

Lemma offsets_from_slices (tokens : list item) :
  forall idx pre k tok,
    nth_error tokens k = Some tok ->
    exists start,
      nth_error (offsets_from tokens idx (length pre)) k
      = Some (start, start + length (text tok), idx + k)
      /\ slice (pre ++ join_spaces (map text tokens))
               start (start + length (text tok))
         = text tok.
Proof.
  induction tokens as [|t rest IH]; intros idx pre k tok Hk;
    [destruct k; discriminate Hk|].
  destruct k as [|k].
  - inversion Hk; subst. exists (length pre).
    rewrite Nat.add_0_r. split; [reflexivity|].
    unfold slice.
    replace (length pre + length (text tok) - length pre)
      with (length (text tok)) by lia.
    rewrite skipn_app, skipn_all, Nat.sub_diag. cbn [skipn app join_spaces map].
    rewrite firstn_app, firstn_all, Nat.sub_diag. cbn [firstn].
    apply app_nil_r.
  - cbn [nth_error] in Hk.
    destruct rest as [|t2 rest']; [destruct k; discriminate Hk|].
    destruct (IH (S idx) (pre ++ text t ++ [" "%char]) k tok Hk)
      as (start & H1 & H2).
    exists start. split.
    + rewrite offsets_from_next.
      replace (length (pre ++ text t ++ [" "%char]))
        with (length pre + length (text t) + 1) in H1
        by (rewrite !length_app; cbn [length]; lia).
      replace (idx + S k) with (S idx + k) by lia. exact H1.
    + replace (pre ++ join_spaces (map text (t :: t2 :: rest')))
        with ((pre ++ text t ++ [" "%char])
              ++ join_spaces (map text (t2 :: rest'))); [exact H2|].
      cbn [map join_spaces]. rewrite <- !app_assoc. reflexivity.
Qed.

(** X14: the offsets [_line_text_and_offsets] records are those of the
    tokens in the text it builds: there is one triple for each token, in
    order and with the index of the token, its end is its start plus the
    length of the token, and the text between the two is the text of the
    token. *)
Theorem line_text_offsets_roundtrip (tokens : list item) :
  let '(line_text, offsets) := _line_text_and_offsets tokens in
  line_text = join_spaces (map text tokens)
  /\ length offsets = length tokens
  /\ forall k tok,
       nth_error tokens k = Some tok ->
       exists start,
         nth_error offsets k = Some (start, start + length (text tok), k)
         /\ slice line_text start (start + length (text tok)) = text tok.
Proof.
  rewrite line_text_and_offsets_spec.
  split; [reflexivity|]. split.
  - generalize 0 at 1. generalize 0.
    induction tokens as [|t rest IH]; intros pos idx; simpl; [reflexivity|].
    rewrite IH. reflexivity.
  - intros k tok Hk.
    destruct (offsets_from_slices tokens 0 [] k tok Hk) as (start & H1 & H2).
    exists start. split; [exact H1|exact H2].
Qed.

Lemma selected_from (rest : list item) :
  forall pre idx pos s e,
    idx = length pre ->
    flat_map (fun i => option_list (nth_error (pre ++ rest) i))
             (_token_indices_for_span (offsets_from rest idx pos) s e)
    = map fst (filter (fun p => meets_span s e (snd p))
                      (combine rest (offsets_from rest idx pos))).
Proof.
  induction rest as [|t rest IH]; intros pre idx pos s e Hidx; [reflexivity|].
  unfold _token_indices_for_span in *.
  cbn [offsets_from combine filter snd meets_span].
  specialize (IH (pre ++ [t]) (S idx) (pos + length (text t) + 1) s e).
  rewrite <- app_assoc in IH. cbn [app] in IH.
  rewrite length_app in IH. cbn [length] in IH.
  specialize (IH ltac:(lia)).
  destruct ((s <? pos + length (text t)) && (pos <? e)).
  - cbn [map flat_map snd fst]. rewrite IH.
    subst idx. rewrite nth_error_app2, Nat.sub_diag by lia. reflexivity.
  - exact IH.
Qed.

Lemma selected_count (rest : list item) :
  forall idx pos s e,
    length (filter (fun p => meets_span s e (snd p))
                   (combine rest (offsets_from rest idx pos)))
    = length (_token_indices_for_span (offsets_from rest idx pos) s e).
Proof.
  induction rest as [|t rest IH]; intros idx pos s e; [reflexivity|].
  specialize (IH (S idx) (pos + length (text t) + 1) s e).
  unfold _token_indices_for_span in *.
  cbn [offsets_from combine filter snd meets_span].
  destruct ((s <? pos + length (text t)) && (pos <? e));
    cbn [length map]; rewrite IH; reflexivity.
Qed.

(** X15: the tokens selected for a span are the tokens of the line whose
    range of characters meets the span, in the order of the line; no index
    falls outside the line. *)
Theorem selected_tokens_meet_span (tokens : list item) (start end_ : nat) :
  let offsets := snd (_line_text_and_offsets tokens) in
  selected_tokens tokens offsets start end_
  = map fst (filter (fun p => meets_span start end_ (snd p))
                    (combine tokens offsets))
  /\ length (selected_tokens tokens offsets start end_)
     = length (_token_indices_for_span offsets start end_).
Proof.
  rewrite line_text_and_offsets_spec. cbn [snd].
  pose proof (selected_from tokens [] 0 0 start end_ eq_refl) as H.
  cbn [app] in H. unfold selected_tokens. split; [exact H|].
  rewrite H, length_map. apply selected_count.
Qed.

(** ** De-duplication and the located entities *)

Lemma keep_first_subset (results : list result) (r : result) :
  In r (keep_first results) -> In r results.
Proof.
  induction results as [|x rest IH]; cbn [keep_first]; [intros []|].
  intros [->|Hin]; [left; reflexivity|].
  right. apply IH. apply filter_In in Hin. tauto.
Qed.

Lemma keep_first_fixed (results : list result) :
  NoDup (map result_key results) -> keep_first results = results.
Proof.
  induction results as [|r rest IH]; cbn [keep_first map]; [reflexivity|].
  intro H. inversion H as [|? ? Hnot Hnd]; subst.
  rewrite (IH Hnd). f_equal.
  apply forallb_filter_id. apply forallb_forall. intros x Hx.
  destruct (key_eqb (result_key x) (result_key r)) eqn:E; [|reflexivity].
  apply key_eqb_eq in E. exfalso. apply Hnot. rewrite <- E.
  apply in_map, Hx.
Qed.

(** X16: de-duplication only drops entries: what it returns are entries of
    its input, with no key twice, and applying it again changes nothing. *)
Theorem dedupe_results_idempotent (results : list result) :
  _dedupe_results (_dedupe_results results) = _dedupe_results results
  /\ NoDup (map result_key (_dedupe_results results))
  /\ forall r, In r (_dedupe_results results) -> In r results.
Proof.
  rewrite !dedupe_keep_first.
  split; [apply keep_first_fixed, keep_first_NoDup|].
  split; [apply keep_first_NoDup|apply keep_first_subset].
Qed.

Lemma locate_match_some (tokens : list item) (offsets : list (nat * nat * nat))
  (t : entity_type) (min_score : option Q) (require_valid : bool)
  (m : found) (r : result) :
  locate_match tokens offsets t min_score require_valid m = Some r ->
  value r = normalized m /\ r_raw r = raw m /\ r_type r = t
  /\ (r_match r, r_score r) = score_entity t (normalized m)
  /\ (forall ms, min_score = Some ms -> (ms <= r_score r)%Q)
  /\ (require_valid = true -> is_valid_entity t (normalized m) = true)
  /\ exists tok others,
       selected_tokens tokens offsets (fst (span m)) (snd (span m))
       = tok :: others
       /\ r_box r = _merge_boxes tok others.
Proof.
  unfold locate_match.
  destruct (score_entity t (normalized m)) as [is_match score].
  destruct (match min_score with Some ms => Qltb score ms | None => false end)
    eqn:Ems; [discriminate|].
  destruct (require_valid && negb (is_valid_entity t (normalized m))) eqn:Erv;
    [discriminate|].
  destruct (span m) as [start end_]. cbn [fst snd].
  destruct (selected_tokens tokens offsets start end_) as [|tok others] eqn:Es;
    [discriminate|].
  intro H. inversion H; subst. clear H. cbn [value r_raw r_type r_match r_score r_box].
  repeat split.
  - intros ms ->. apply Qltb_ge, Ems.
  - intros ->. cbn [andb] in Erv. apply negb_false_iff in Erv. exact Erv.
  - exists tok, others. split; reflexivity.
Qed.

Lemma located_from_match
  (find_matches_for_type : str -> entity_type -> list found)
  (lines : list line) (t : entity_type) (min_score : option Q)
  (require_valid : bool) (r : result) :
  In r (_locate_entities_in_lines find_matches_for_type lines t min_score
                                  require_valid) ->
  exists ln m,
    In ln lines
    /\ In m (find_matches_for_type
               (fst (_line_text_and_offsets (items ln))) t)
    /\ value r = normalized m /\ r_raw r = raw m /\ r_type r = t
    /\ (r_match r, r_score r) = score_entity t (normalized m)
    /\ (forall ms, min_score = Some ms -> (ms <= r_score r)%Q)
    /\ (require_valid = true -> is_valid_entity t (normalized m) = true)
    /\ exists tok others,
         selected_tokens (items ln) (snd (_line_text_and_offsets (items ln)))
                         (fst (span m)) (snd (span m))
         = tok :: others
         /\ r_box r = _merge_boxes tok others.
Proof.
  unfold _locate_entities_in_lines. intro Hin.
  apply (Permutation_in _ (Permutation_sym (sorted_by_perm result_ltb _))) in Hin.
  rewrite dedupe_keep_first in Hin. apply keep_first_subset in Hin.
  unfold located in Hin. apply in_flat_map in Hin.
  destruct Hin as (ln & Hln & Hin). unfold locate_line in Hin.
  destruct (_line_text_and_offsets (items ln)) as [line_text offsets] eqn:E.
  apply in_flat_map in Hin. destruct Hin as (m & Hm & Hin).
  destruct (locate_match (items ln) offsets t min_score require_valid m)
    as [r'|] eqn:El; [|destruct Hin].
  destruct Hin as [->|[]].
  exists ln, m. rewrite E. split; [exact Hln|]. split; [exact Hm|].
  cbn [fst snd]. apply (locate_match_some _ _ _ _ _ _ _ El).
Qed.

(** X17: whatever the matcher, every entity the locator returns comes from a
    match in the text of one of the lines: it has the type asked for, the
    normalised value and the raw text of the match, the validity and the
    score the scorer gives that value, a score not under the minimum when
    one is given, a strictly valid value when [require_valid] is set, and
    the merged box of the tokens its span touches, of which there is at
    least one. *)
Theorem located_entities_sound
  (find_matches_for_type : str -> entity_type -> list found)
  (lines : list line) (t : entity_type) (min_score : option Q)
  (require_valid : bool) (r : result) :
  In r (_locate_entities_in_lines find_matches_for_type lines t min_score
                                  require_valid) ->
  exists ln m,
    In ln lines
    /\ In m (find_matches_for_type
               (fst (_line_text_and_offsets (items ln))) t)
    /\ value r = normalized m /\ r_raw r = raw m /\ r_type r = t
    /\ (r_match r, r_score r) = score_entity t (normalized m)
    /\ (forall ms, min_score = Some ms -> (ms <= r_score r)%Q)
    /\ (require_valid = true -> is_valid_entity t (normalized m) = true)
    /\ exists tok others,
         selected_tokens (items ln) (snd (_line_text_and_offsets (items ln)))
                         (fst (span m)) (snd (span m))
         = tok :: others
         /\ r_box r = _merge_boxes tok others.
Proof. exact (located_from_match find_matches_for_type lines t min_score require_valid r). Qed.

Lemma located_entities_sound_witness :
  let v := L "DE89370400440532013000" in
  let ln := new_line {| text := v; conf := 1;
                        item_box := {| min_x := 0; max_x := 220; min_y := 0;
                                       max_y := 10; height := 10 |} |} in
  let fm := fun (_ : str) (_ : entity_type) =>
              [ {| raw := v; normalized := v; span := (0, 22) |} ] in
  let r := {| value := v; r_raw := v;
              r_box := {| m_min_x := 0; m_min_y := 0; m_max_x := 220;
                          m_max_y := 10 |};
              r_conf := 1; r_score := 1.0; r_match := true;
              r_type := Iban |} in
  In r (_locate_entities_in_lines fm [ln] Iban (Some 0.5%Q) true)
  /\ exists ln' m, In ln' [ln] /\ In m (fm [] Iban) /\ value r = normalized m.
Proof.
  cbv zeta.
  match goal with |- ?A /\ _ => assert (Hr : A) end.
  { vm_compute. left. reflexivity. }
  split; [exact Hr|].
  destruct (located_entities_sound _ _ _ _ _ _ Hr)
    as (ln' & m & H1 & H2 & H3 & _).
  exists ln', m. split; [exact H1|]. split; [exact H2|exact H3].
Defined.

(** ** The matcher *)

Section MatcherFacts.
Variable finditer : search_pattern -> str -> list (str * (nat * nat)).

Lemma kept_match_normalized (text : str) (t : entity_type) (m : found) :
  In m (find_matches_for_type finditer text t) ->
  normalized m = normalize t (raw m)
  /\ (exists regex, In (raw m, span m) (finditer regex text))
  /\ (t = Iban -> 12 <= length (normalized m) <= 34)
  /\ (t = Phone ->
      7 <= length (digits_only (normalized m)) <= 15
      /\ existsb is_alpha (normalized m) = false).
Proof.
  destruct t; cbn [find_matches_for_type normalize]; intro Hin.
  - apply in_flat_map in Hin. destruct Hin as (regex & _ & Hin).
    apply in_map_iff in Hin. destruct Hin as ([r sp] & <- & Hin).
    cbn. repeat split; try discriminate. exists regex. exact Hin.
  - apply in_flat_map in Hin. destruct Hin as ([r sp] & Hin & Hm).
    cbn [fst snd] in Hm.
    destruct ((12 <=? length (normalize_iban r))
              && (length (normalize_iban r) <=? 34)) eqn:E; [|destruct Hm].
    destruct Hm as [<-|[]]. cbn [raw normalized span].
    apply andb_true_iff in E. destruct E as [E1 E2].
    apply Nat.leb_le in E1, E2.
    repeat split; try discriminate; try assumption.
    exists IBAN_FIND_REGEX. exact Hin.
  - apply in_flat_map in Hin. destruct Hin as ([r sp] & Hin & Hm).
    cbn [fst snd] in Hm.
    destruct ((length (digits_only (normalize_phone r)) <? 7)
              || (15 <? length (digits_only (normalize_phone r)))) eqn:E;
      [destruct Hm|].
    destruct (existsb is_alpha (normalize_phone r)) eqn:Ea; [destruct Hm|].
    destruct (negb (has_phone_punct (normalize_phone r))
              && (10 <? length (digits_only (normalize_phone r))));
      [destruct Hm|].
    destruct Hm as [<-|[]]. cbn [raw normalized span].
    apply orb_false_iff in E. destruct E as [E1 E2].
    apply Nat.ltb_ge in E1, E2.
    repeat split; try discriminate; try assumption.
    exists PHONE_FIND_REGEX. exact Hin.
  - apply in_map_iff in Hin. destruct Hin as ([r sp] & <- & Hin).
    cbn. repeat split; try discriminate. exists EMAIL_FIND_REGEX. exact Hin.
Qed.

(** X18: whatever the regex engine returns, each match the matcher keeps
    has the raw text and the span of a match of the engine and, as its
    normalised value, what the normaliser of the type makes of that raw
    text; a kept IBAN has 12 to 34 characters and a kept phone number 7 to 15
    digits and no letter. *)
Theorem find_matches_normalized (text : str) (t : entity_type) (m : found) :
  In m (find_matches_for_type finditer text t) ->
  normalized m = normalize t (raw m)
  /\ (exists regex, In (raw m, span m) (finditer regex text))
  /\ (t = Iban -> 12 <= length (normalized m) <= 34)
  /\ (t = Phone ->
      7 <= length (digits_only (normalized m)) <= 15
      /\ existsb is_alpha (normalized m) = false).
Proof. exact (kept_match_normalized text t m). Qed.

(** X19: a phone number the matcher keeps never scores under 0.6, the
    minimum the pipeline asks of phone numbers, and when the scorer reports
    it valid its score is 1.0, never 0.8. *)
Theorem phone_matches_pass_threshold (text : str) (m : found) :
  In m (find_matches_for_type finditer text Phone) ->
  (0.6 <= snd (score_entity Phone (normalized m)))%Q
  /\ (fst (score_entity Phone (normalized m)) = true ->
      score_entity Phone (normalized m) = (true, 1.0%Q)).
Proof.
  intro Hin.
  destruct (kept_match_normalized text Phone m Hin) as (Hn & _ & _ & Hp).
  destruct (Hp eq_refl) as [[Hlo Hhi] _].
  cbn [score_entity normalize] in *. unfold score_phone.
  rewrite Hn, normalize_phone_idem. rewrite <- Hn.
  replace (7 <=? length (digits_only (normalized m))) with true
    by (symmetry; apply Nat.leb_le; exact Hlo).
  replace (length (digits_only (normalized m)) <=? 15) with true
    by (symmetry; apply Nat.leb_le; exact Hhi).
  destruct (PHONE_REGEX_match (normalized m)); cbn [andb fst snd].
  - split; [vm_compute; discriminate|reflexivity].
  - split; [|intro H; simpl in H; discriminate H].
    clear Hp.
    destruct (existsb _ (normalized m)), (starts_plus_digit (normalized m));
      vm_compute; discriminate.
Qed.

Lemma unique_values_spec (matches : list found) :
  forall seen,
    NoDup (unique_values matches seen)
    /\ forall v, In v (unique_values matches seen) <->
                 (~ In v seen /\ exists m, In m matches /\ normalized m = v).
Proof.
  induction matches as [|m rest IH]; intro seen; cbn [unique_values].
  - split; [constructor|]. intro v. split; [intros []|].
    intros (_ & m & [] & _).
  - destruct (existsb (str_eqb (normalized m)) seen) eqn:E.
    + destruct (IH seen) as [Hnd Hin]. split; [exact Hnd|].
      apply existsb_exists in E. destruct E as (s & Hs & Es).
      apply str_eqb_eq in Es. subst s.
      intro v. rewrite Hin. split.
      * intros (Hv & m' & Hm' & <-). split; [exact Hv|].
        exists m'. split; [right; exact Hm'|reflexivity].
      * intros (Hv & m' & [<-|Hm'] & <-); [contradiction|].
        split; [exact Hv|]. exists m'. split; [exact Hm'|reflexivity].
    + destruct (IH (normalized m :: seen)) as [Hnd Hin].
      assert (Hnot : ~ In (normalized m) seen).
      { intro H. assert (existsb (str_eqb (normalized m)) seen = true).
        { apply existsb_exists. exists (normalized m).
          split; [exact H|apply str_eqb_eq; reflexivity]. }
        congruence. }
      split.
      * constructor; [|exact Hnd]. rewrite Hin. intros [H _].
        apply H. left. reflexivity.
      * intro v. cbn [In]. rewrite Hin. cbn [In]. split.
        -- intros [<-|(Hv & m' & Hm' & <-)].
           ++ split; [exact Hnot|]. exists m. split; [left|]; reflexivity.
           ++ split; [tauto|]. exists m'. split; [right; exact Hm'|reflexivity].
        -- intros (Hv & m' & [<-|Hm'] & <-); [left; reflexivity|].
           destruct (str_dec (normalized m) (normalized m')) as [Heq|Hne];
             [left; exact Heq|].
           right. split; [tauto|]. exists m'. split; [exact Hm'|reflexivity].
Qed.

(** X20: [extract_entities] answers for the four types in the order date,
    IBAN, phone, address; the values of a type are the normalised values of
    its matches, each listed once. *)
Theorem extract_entities_unique (text : str) :
  map fst (extract_entities finditer text) = [Date; Iban; Phone; Email]
  /\ forall key values,
       In (key, values) (extract_entities finditer text) ->
       NoDup values
       /\ forall v, In v values <->
                    exists m, In m (find_matches_for_type finditer text key)
                              /\ normalized m = v.
Proof.
  split; [reflexivity|].
  intros key values Hin. unfold extract_entities in Hin.
  apply in_map_iff in Hin. destruct Hin as (k & Hk & _).
  inversion Hk; subst. clear Hk.
  destruct (unique_values_spec (find_matches_for_type finditer text key) [])
    as [Hnd Hv].
  split; [exact Hnd|]. intro v. rewrite Hv. split.
  - intros [_ H]. exact H.
  - intro H. split; [intros []|exact H].
Qed.
End MatcherFacts.

Lemma find_matches_normalized_witness :
  let v := L "+49 170 1234567" in
  let engine := fun (p : search_pattern) (_ : str) =>
                  match p with
                  | PHONE_FIND_REGEX => [(v, (0, 15))]
                  | _ => []
                  end in
  let m := {| raw := v; normalized := v; span := (0, 15) |} in
  In m (find_matches_for_type engine v Phone)
  /\ normalized m = normalize Phone (raw m)
  /\ 7 <= length (digits_only (normalized m)) <= 15.
Proof.
  cbv zeta.
  match goal with |- ?A /\ _ => assert (Hin : A) end.
  { vm_compute. left. reflexivity. }
  split; [exact Hin|].
  destruct (find_matches_normalized _ _ _ _ Hin) as (Hn & _ & _ & Hp).
  split; [exact Hn|]. exact (proj1 (Hp eq_refl)).
Defined.

Lemma phone_matches_pass_threshold_witness :
  let v := L "+49 170 1234567" in
  let engine := fun (p : search_pattern) (_ : str) =>
                  match p with
                  | PHONE_FIND_REGEX => [(v, (0, 15))]
                  | _ => []
                  end in
  let m := {| raw := v; normalized := v; span := (0, 15) |} in
  In m (find_matches_for_type engine v Phone)
  /\ (0.6 <= snd (score_entity Phone (normalized m)))%Q.
Proof.
  cbv zeta.
  match goal with |- ?A /\ _ => assert (Hin : A) end.
  { vm_compute. left. reflexivity. }
  split; [exact Hin|].
  exact (proj1 (phone_matches_pass_threshold _ _ _ Hin)).
Defined.

(** ** The boxes reported *)


Section ReportFacts.
Variable finditer : search_pattern -> str -> list (str * (nat * nat)).

End ReportFacts.


(** ** Clamping a rectangle *)

(** X22: in an image of at least one pixel each way, [_clamp_rect] returns a
    rectangle of at least one pixel each way that lies inside the image,
    and it returns a rectangle that already does unchanged. *)
Theorem clamp_rect_inside (x y w h width height : Z) :
  (1 <= width)%Z -> (1 <= height)%Z ->
  let '(x', y', w', h') := _clamp_rect x y w h width height in
  (0 <= x' /\ 1 <= w' /\ x' + w' <= width
   /\ 0 <= y' /\ 1 <= h' /\ y' + h' <= height)%Z
  /\ ((0 <= x /\ 1 <= w /\ x + w <= width
       /\ 0 <= y /\ 1 <= h /\ y + h <= height)%Z ->
      (x', y', w', h') = (x, y, w, h)).
Proof.
  intros Hw Hh. unfold _clamp_rect. split; [lia|].
  intros (H1 & H2 & H3 & H4 & H5 & H6).
  repeat f_equal; lia.
Qed.

Lemma clamp_rect_inside_witness :
  _clamp_rect (-5) 90 300 300 200 100 = (0, 90, 200, 10)%Z
  /\ (0 <= 0 /\ 1 <= 200 /\ 0 + 200 <= 200
      /\ 0 <= 90 /\ 1 <= 10 /\ 90 + 10 <= 100)%Z.
Proof.
  split; [reflexivity|].
  pose proof (clamp_rect_inside (-5) 90 300 300 200 100
                ltac:(lia) ltac:(lia)) as H.
  change (_clamp_rect (-5) 90 300 300 200 100) with (0, 90, 200, 10)%Z in H.
  exact (proj1 H).
Defined.

(** ** Normal forms *)

(** X23: the strings [normalize_spaces] leaves unchanged are exactly those
    with no tab, carriage return or newline, no two spaces in a row and no
    white space at either end, and every result is such a string. *)
Theorem normalize_spaces_normal_form (s : str) :
  spaces_normal (normalize_spaces s)
  /\ (normalize_spaces s = s <-> spaces_normal s).
Proof.
  split; [apply normalize_spaces_normal|]. split.
  - intro H. rewrite <- H. apply normalize_spaces_normal.
  - apply normalize_spaces_fixed.
Qed.

Lemma settled_not_lower (c : ascii) : upper_char c = c -> is_lower c = false.
Proof. each_char c; intro H; try reflexivity; discriminate H. Qed.

Lemma normalize_email_normal (s : str) : email_normal (normalize_email s).
Proof.
  unfold normalize_email.
  pose proof (email_scans_normal s) as Hn.
  set (t := sub_around (is_char "_") false _) in *.
  destruct (sub_trailing_underscore_cases t) as [->|(a & b & Et & -> & _)];
    [exact Hn|].
  rewrite Et in Hn. apply email_normal_underscore, Hn.
Qed.

(** X24: what the normalisers of the four types leave.  A date token is a
    normal form of [normalize_spaces] with no white space next to a
    separator; a phone number has single spaces as its only white space,
    never two in a row nor at an end; an address is a normal form of
    [normalize_spaces] with no white space next to [@], [.] or [_]; an IBAN
    has no white space and no lower-case letter, and when it has four
    characters or more, no letter O among its check digits. *)
Theorem normalize_normal_forms (s : str) :
  (spaces_normal (normalize Date s)
   /\ free_of (glued is_date_sep) (normalize Date s))
  /\ (only_spaces (normalize Phone s) /\ free_of space_pair (normalize Phone s)
      /\ edges_clean (normalize Phone s))
  /\ email_normal (normalize Email s)
  /\ (Forall (fun c => is_space c = false /\ is_lower c = false)
             (normalize Iban s)
      /\ (4 <= length (normalize Iban s) ->
          forall c, In c (firstn 2 (skipn 2 (normalize Iban s))) ->
                    is_char "O" c = false)).
Proof.
  cbn [normalize]. split; [|split; [|split]].
  - unfold normalize_date_token. split.
    + apply sub_around_spaces_normal;
        [apply date_sep_not_space|apply normalize_spaces_normal].
    + apply sub_around_glue_free, date_sep_not_space.
  - unfold normalize_phone. split; [apply sub_ws_runs_only_spaces|].
    split; [apply sub_ws_runs_pair_free|].
    apply sub_ws_runs_edges. apply normalize_spaces_normal.
  - apply normalize_email_normal.
  - destruct (normalize_iban_cases s) as [Hs Hc]. split.
    + eapply Forall_impl; [|exact Hs]. intros c [Hu Hsp].
      split; [exact Hsp|apply settled_not_lower, Hu].
    + intros Hlen c Hin.
      destruct Hc as [Hlt|(a & b & x & y & rest & E & Hx & Hy)]; [lia|].
      rewrite E in Hin. cbn [skipn firstn] in Hin.
      destruct Hin as [<-|[<-|[]]]; assumption.
Qed.

(** ** Addresses with a character no address can hold *)

Lemma alpha_local (c : ascii) : is_alpha c = true -> is_local_char c = true.
Proof. unfold is_local_char. intros ->. reflexivity. Qed.

Lemma domain_local (c : ascii) : is_domain_char c = true -> is_local_char c = true.
Proof.
  unfold is_domain_char, is_local_char.
  destruct (is_alpha c), (is_digit c), (is_char "." c), (is_char "-" c);
    simpl; try discriminate; intros _; rewrite ?orb_true_r; reflexivity.
Qed.

Lemma email_body_chars (x : str) :
  EMAIL_REGEX_body x = Some tt ->
  Forall (fun c => is_local_char c = true \/ is_char "@" c = true) x.
Proof.
  unfold EMAIL_REGEX_body.
  pose proof (take_drop_while is_local_char x) as Hx.
  pose proof (take_while_all is_local_char x) as Hloc.
  destruct (drop_while is_local_char x) as [|a rest]; [discriminate|].
  pose proof (take_drop_while is_alpha (rev rest)) as Hr.
  pose proof (take_while_all is_alpha (rev rest)) as Htld.
  destruct (drop_while is_alpha (rev rest)) as [|d dom]; [discriminate|].
  unfold guard. destruct (_ && _) eqn:E; [|discriminate]. intros _.
  rewrite !andb_true_iff in E.
  destruct E as [[[[[Ha _] Hd] _] _] Hdom].
  rewrite <- Hx. apply Forall_app. split.
  - apply Forall_forall. intros c Hc. left.
    rewrite forallb_forall in Hloc. apply Hloc, Hc.
  - constructor; [right; exact Ha|].
    apply Forall_forall. intros c Hc. left.
    apply in_rev in Hc. rewrite <- Hr in Hc.
    apply in_app_or in Hc. destruct Hc as [Hc|[<-|Hc]].
    + apply alpha_local. rewrite forallb_forall in Htld. apply Htld, Hc.
    + apply is_char_eq in Hd. subst d. reflexivity.
    + apply domain_local. rewrite forallb_forall in Hdom. apply Hdom, Hc.
Qed.

Lemma email_match_chars (x : str) (c : ascii) :
  EMAIL_REGEX_match x = true -> In c x ->
  is_local_char c = true \/ is_char "@" c = true \/ is_char "010" c = true.
Proof.
  unfold EMAIL_REGEX_match, at_dollar. intros H Hin.
  destruct (EMAIL_REGEX_body x) as [[]|] eqn:E.
  - pose proof (email_body_chars x E) as Hall. rewrite Forall_forall in Hall.
    destruct (Hall c Hin); tauto.
  - destruct (rev x) as [|z r] eqn:Er; [discriminate|].
    destruct (is_char "010" z) eqn:Ez; [|discriminate].
    destruct (EMAIL_REGEX_body (rev r)) as [[]|] eqn:E2; [|discriminate].
    pose proof (email_body_chars _ E2) as Hall. rewrite Forall_forall in Hall.
    apply in_rev in Hin. rewrite Er in Hin. destruct Hin as [<-|Hin].
    + tauto.
    + apply in_rev in Hin. destruct (Hall c Hin); tauto.
Qed.

Section ForeignChar.
Variable c : ascii.
Hypothesis c_foreign : foreign_char c.
Hypothesis c_not_newline : is_char "010" c = false.

Lemma foreign_no_match (x : str) : In c x -> EMAIL_REGEX_match x = false.
Proof.
  intro Hin. destruct (EMAIL_REGEX_match x) eqn:E; [|reflexivity].
  destruct c_foreign as [H1 H2].
  destruct (email_match_chars x c E Hin) as [H|[H|H]]; congruence.
Qed.

Lemma foreign_not_added (cs : list str) (x : str) :
  In c x -> _add_email_candidate cs x = cs.
Proof.
  intro Hin. unfold _add_email_candidate.
  rewrite (foreign_no_match x Hin). reflexivity.
Qed.

Lemma foreign_fold {A : Type} (f : A -> str) (l : list A) (cs : list str) :
  (forall a, In c (f a)) ->
  fold_left (fun cs a => _add_email_candidate cs (f a)) l cs = cs.
Proof.
  intro H. induction l as [|a l IH]; simpl; [reflexivity|].
  rewrite (foreign_not_added cs (f a) (H a)). exact IH.
Qed.

Lemma foreign_domain_fixes (cs : list str) (local domain : str) :
  In c local \/ In c domain -> _add_domain_fixes cs local domain = cs.
Proof.
  intro Hin. unfold _add_domain_fixes.
  destruct local as [|l0 local]; [reflexivity|].
  destruct domain as [|d0 domain]; [reflexivity|].
  set (lo := l0 :: local) in *. set (dom := d0 :: domain) in *.
  destruct (contains "." dom).
  - apply foreign_not_added. apply in_or_app.
    destruct Hin as [H|H]; [left; exact H|right; right; exact H].
  - rewrite (foreign_fold
               (fun i => lo ++ "@"%char :: firstn i dom ++ "."%char :: skipn i dom)).
    + apply (foreign_fold (fun tld => lo ++ "@"%char :: dom ++ "."%char :: tld)).
      intro tld. apply in_or_app.
      destruct Hin as [H|H]; [left; exact H|right; right].
      apply in_or_app. left. exact H.
    + intro i. apply in_or_app.
      destruct Hin as [H|H]; [left; exact H|right; right].
      rewrite <- (firstn_skipn i dom) in H.
      apply in_app_or in H. apply in_or_app.
      destruct H as [H|H]; [left; exact H|right; right; exact H].
Qed.

Lemma foreign_split_fixes (cs : list str) (local domain : str) :
  In c local \/ In c domain -> add_split_fixes cs local domain = cs.
Proof.
  intro Hin. unfold add_split_fixes.
  rewrite (foreign_domain_fixes cs local domain Hin).
  destruct (contains "_" domain); [|reflexivity].
  assert (Hus : is_char "_" c = false).
  { destruct c_foreign as [H _]. unfold is_local_char in H.
    destruct (is_char "_" c); [|reflexivity].
    destruct (is_alpha c), (is_digit c), (is_char "." c), (is_char "%" c),
      (is_char "+" c), (is_char "-" c); discriminate H. }
  assert (Hrep : In c local \/ In c (replace_char "_" "." domain)).
  { destruct Hin as [H|H]; [left; exact H|right].
    unfold replace_char. apply in_map_iff. exists c.
    rewrite Hus. split; [reflexivity|exact H]. }
  assert (Hdel : In c local \/ In c (delete_char "_" domain)).
  { destruct Hin as [H|H]; [left; exact H|right].
    unfold delete_char. apply filter_In. split; [exact H|].
    rewrite Hus. reflexivity. }
  rewrite (foreign_domain_fixes cs local _ Hrep).
  apply (foreign_domain_fixes cs local _ Hdel).
Qed.

Lemma foreign_no_candidates (t : str) : In c t -> email_candidates t = [].
Proof.
  intro Hin. unfold email_candidates.
  rewrite (foreign_not_added [] t Hin).
  destruct (contains "@" t).
  - apply foreign_split_fixes.
    pose proof (take_drop_while (fun x => negb (is_char "@" x)) t) as Ht.
    rewrite <- Ht in Hin. apply in_app_or in Hin.
    destruct Hin as [H|H]; [left; exact H|right].
    destruct (drop_while (fun x => negb (is_char "@" x)) t) as [|a r] eqn:E;
      [destruct H|].
    destruct H as [<-|H]; [|exact H].
    exfalso.
    assert (Ha : negb (is_char "@" a) = false).
    { clear -E. induction t as [|x t IH]; simpl in E; [discriminate|].
      destruct (negb (is_char "@" x)) eqn:Ex; [apply IH, E|].
      inversion E; subst. exact Ex. }
    destruct c_foreign as [_ H2]. rewrite H2 in Ha. discriminate Ha.
  - generalize (seq 1 (length t - 1)). intro l.
    induction l as [|i l IH]; simpl; [reflexivity|].
    rewrite foreign_split_fixes; [exact IH|].
    rewrite <- (firstn_skipn i t) in Hin. apply in_app_or in Hin. exact Hin.
Qed.
End ForeignChar.

(** X25: an address whose normal form holds a character that no address can
    hold, such as a space inside the domain, gets no repair candidate and the
    score 0.0. *)
Theorem score_email_foreign_char (s : str) (c : ascii) :
  In c (normalize_email s) -> foreign_char c ->
  email_candidates (normalize_email s) = []
  /\ score_email s = (false, 0.0%Q).
Proof.
  intros Hin Hc.
  assert (Hnl : is_char "010" c = false).
  { destruct (normalize_email_normal s) as ((Hctl & _) & _).
    rewrite Forall_forall in Hctl. apply (Hctl c Hin). }
  pose proof (foreign_no_candidates c Hc Hnl _ Hin) as Hnone.
  split; [exact Hnone|].
  unfold score_email.
  rewrite (foreign_no_match c Hc Hnl _ Hin), Hnone. reflexivity.
Qed.

Lemma score_email_foreign_char_witness :
  In " "%char (normalize_email (L "john.doe@example com"))
  /\ foreign_char " "
  /\ score_email (L "john.doe@example com") = (false, 0.0%Q).
Proof.
  assert (Hin : In " "%char (normalize_email (L "john.doe@example com"))).
  { vm_compute. do 16 right. left. reflexivity. }
  assert (Hc : foreign_char " ") by (split; reflexivity).
  split; [exact Hin|]. split; [exact Hc|].
  apply (score_email_foreign_char _ _ Hin Hc).
Defined.

(** ** Strict validity and the scorers *)

Lemma score_date_loop_match (regexes : list (str -> option (str * str * str)))
  (cleaned : str) (r : bool * Q) :
  score_date_loop regexes cleaned = Some r ->
  r = (true, 1.0%Q) \/ r = (true, 0.85%Q).
Proof.
  induction regexes as [|regex rest IH]; simpl; [discriminate|].
  destruct (regex cleaned) as [[[p0 p1] p2]|]; [|exact IH].
  destruct (if (length p0 =? 4) then _ else _) as [[year month] day].
  destruct (_ && _)%bool; intro H; inversion H; subst; [left|right]; reflexivity.
Qed.

(** X26: a value that passes the strict test of its type is reported as a
    match by the scorer of that type: with the score 1.0 for an IBAN, a phone
    number or an address, and with 1.0 or 0.85 for a date. *)
Theorem valid_entity_is_match (t : entity_type) (text : str) :
  is_valid_entity t text = true ->
  score_entity t text = (true, 1.0%Q)
  \/ (t = Date /\ score_entity t text = (true, 0.85%Q)).
Proof.
  destruct t; cbn [is_valid_entity score_entity]; intro H.
  - unfold is_valid_date in H. unfold score_date in *.
    destruct (score_date_loop DATE_REGEXES (normalize_spaces text)) eqn:E.
    + destruct (score_date_loop_match _ _ _ E) as [->| ->];
        [left; reflexivity|right; split; reflexivity].
    + discriminate H.
  - left. apply (proj1 (strict_iban_full_score text)), H.
  - left. apply (strict_phone_full_score text), H.
  - left. unfold is_valid_email in H. unfold score_email. rewrite H.
    reflexivity.
Qed.

Lemma valid_entity_is_match_witness :
  is_valid_entity Iban (L "de89 3704 0044 0532 0130 00") = true
  /\ score_entity Iban (L "de89 3704 0044 0532 0130 00") = (true, 1.0%Q).
Proof.
  assert (Hv : is_valid_entity Iban (L "de89 3704 0044 0532 0130 00") = true)
    by (vm_compute; reflexivity).
  split; [exact Hv|].
  destruct (valid_entity_is_match Iban _ Hv) as [H|[H _]];
    [exact H|discriminate H].
Defined.

(** ** The overlap ratio of measured boxes *)

Lemma or_one_pos (x : Q) : (0 <= x)%Q -> (0 < or_one x)%Q.
Proof.
  intro H. unfold or_one. destruct (Qeq_bool x 0) eqn:E.
  - reflexivity.
  - apply Qeq_bool_neq in E. apply Qle_lteq in H.
    destruct H as [H|H]; [exact H|]. exfalso. apply E. symmetry. exact H.
Qed.

Lemma measured_height_nonneg (b : box) : measured b -> (0 <= height b)%Q.
Proof.
  intros [Hh Hle]. rewrite Hh. lra.
Qed.

Lemma overlap_below_heights (a b : box) :
  measured a -> measured b ->
  (vertical_overlap a b <= Qmin (height a) (height b))%Q.
Proof.
  intros Ha Hb.
  pose proof (measured_height_nonneg a Ha) as Pa.
  pose proof (measured_height_nonneg b Hb) as Pb.
  destruct Ha as [Ha La], Hb as [Hb Lb].
  unfold vertical_overlap.
  assert (P0 : (0 <= Qmin (height a) (height b))%Q)
    by (apply Q.min_glb; assumption).
  apply Q.max_lub; [eapply Qle_trans; [|exact P0]; discriminate|].
  pose proof (Q.le_min_l (max_y a) (max_y b)).
  pose proof (Q.le_min_r (max_y a) (max_y b)).
  pose proof (Q.le_max_l (min_y a) (min_y b)).
  pose proof (Q.le_max_r (min_y a) (min_y b)).
  apply Q.min_glb; lra.
Qed.

(** X27: for two boxes whose height is the difference of their vertical
    bounds, as [_bbox_metrics] and the clustering build them, the overlap
    ratio lies between 0 and 1; and the ratio does not depend on which of the
    two boxes is the line. *)
Theorem overlap_ratio_unit (a b : box) :
  measured a -> measured b ->
  (0 <= _overlap_ratio a b <= 1)%Q
  /\ (_overlap_ratio a b == _overlap_ratio b a)%Q.
Proof.
  intros Ha Hb.
  pose proof (overlap_below_heights a b Ha Hb) as Hov.
  pose proof (measured_height_nonneg a Ha) as Pa.
  pose proof (measured_height_nonneg b Hb) as Pb.
  assert (P0 : (0 <= Qmin (height a) (height b))%Q)
    by (apply Q.min_glb; assumption).
  pose proof (or_one_pos _ P0) as Hd.
  change (_overlap_ratio a b)
    with (vertical_overlap a b / or_one (Qmin (height a) (height b)))%Q.
  change (_overlap_ratio b a)
    with (vertical_overlap b a / or_one (Qmin (height b) (height a)))%Q.
  assert (Hnn : (0 <= vertical_overlap a b)%Q).
  { unfold vertical_overlap. eapply Qle_trans; [|apply Q.le_max_l].
    discriminate. }
  split; [split|].
  - apply Qle_shift_div_l; [exact Hd|]. rewrite Qmult_0_l. exact Hnn.
  - apply Qle_shift_div_r; [exact Hd|]. rewrite Qmult_1_l.
    unfold or_one. destruct (Qeq_bool _ 0) eqn:E.
    + apply Qeq_bool_eq in E. rewrite E in Hov.
      eapply Qle_trans; [exact Hov|]. discriminate.
    + exact Hov.
  - assert (Hv : (vertical_overlap a b == vertical_overlap b a)%Q).
    { unfold vertical_overlap.
      rewrite (Q.min_comm (max_y a)), (Q.max_comm (min_y a)). reflexivity. }
    assert (Hm : (Qmin (height a) (height b) == Qmin (height b) (height a))%Q)
      by apply Q.min_comm.
    assert (Ho : (or_one (Qmin (height a) (height b))
                  == or_one (Qmin (height b) (height a)))%Q).
    { unfold or_one.
      destruct (Qeq_bool (Qmin (height a) (height b)) 0) eqn:E1;
        destruct (Qeq_bool (Qmin (height b) (height a)) 0) eqn:E2.
      - reflexivity.
      - apply Qeq_bool_eq in E1. apply Qeq_bool_neq in E2.
        exfalso. apply E2. rewrite <- Hm. exact E1.
      - apply Qeq_bool_eq in E2. apply Qeq_bool_neq in E1.
        exfalso. apply E1. rewrite Hm. exact E2.
      - exact Hm. }
    rewrite Hv, Ho. reflexivity.
Qed.

Lemma overlap_ratio_unit_witness :
  let a := {| min_x := 0; max_x := 10; min_y := 0; max_y := 10;
              height := 10 |} in
  let b := {| min_x := 12; max_x := 20; min_y := 4; max_y := 12;
              height := 8 |} in
  measured a /\ measured b /\ (0 <= _overlap_ratio a b <= 1)%Q.
Proof.
  cbv zeta.
  match goal with |- ?A /\ ?B /\ _ => assert (Ha : A); [|assert (Hb : B)] end.
  { split; vm_compute; [reflexivity|discriminate]. }
  { split; vm_compute; [reflexivity|discriminate]. }
  split; [exact Ha|]. split; [exact Hb|].
  exact (proj1 (overlap_ratio_unit _ _ Ha Hb)).
Defined.

Lemma absorb_measured (ln : line) (it : item) :
  measured (line_box ln) -> measured (item_box it) ->
  measured (line_box (absorb ln it)).
Proof.
  intros [_ Hl] [_ Hi]. unfold measured, absorb.
  cbn [line_box height max_y min_y]. split; [reflexivity|].
  eapply Qle_trans; [apply Q.le_min_l|].
  eapply Qle_trans; [exact Hl|apply Q.le_max_l].
Qed.

Lemma placed_measured (thresh : Q) (lines lines' : list line) (it : item) :
  placed thresh lines it lines' ->
  measured (item_box it) ->
  Forall (fun ln => measured (line_box ln)) lines ->
  Forall (fun ln => measured (line_box ln)) lines'.
Proof.
  intros [(i & ln & _ & _ & _ & _ & ->)|[_ ->]] Hit Hall.
  - revert i. induction Hall as [|l ls Hl Hls IH]; intros [|i]; simpl;
      constructor; auto. apply absorb_measured; assumption.
  - apply Forall_app. split; [exact Hall|].
    constructor; [exact Hit|constructor].
Qed.

Lemma clustered_measured (thresh : Q) (lines lines' : list line)
  (order : list item) :
  clustered thresh lines order lines' ->
  Forall (fun it => measured (item_box it)) order ->
  Forall (fun ln => measured (line_box ln)) lines ->
  Forall (fun ln => measured (line_box ln)) lines'.
Proof.
  induction 1 as [lines|lines lines' lines'' it rest Hp _ IH];
    intros Hord Hall.
  - exact Hall.
  - inversion Hord; subst. apply IH; [assumption|].
    eapply placed_measured; eassumption.
Qed.

(** X28: when the height of the box of every token is the difference of its
    vertical bounds and is not negative, as [_bbox_metrics] makes it, the
    same holds of the box of every line the clustering returns. *)
Theorem cluster_keeps_measured (tokens : list item) :
  Forall (fun it => measured (item_box it)) tokens ->
  Forall (fun ln => measured (line_box ln))
         (_group_items_into_lines tokens 0.5).
Proof.
  intro Hall. unfold _group_items_into_lines.
  eapply Permutation_Forall; [apply sorted_by_perm|].
  apply Forall_map.
  assert (Hord : Forall (fun it => measured (item_box it))
                        (sorted_by item_ltb tokens))
    by (eapply Permutation_Forall; [apply sorted_by_perm|exact Hall]).
  pose proof (clustered_measured _ _ _ _
                (cluster_loop_clustered (sorted_by item_ltb tokens) [])
                Hord (Forall_nil _)) as H.
  eapply Forall_impl; [|exact H].
  intros ln Hln. exact Hln.
Qed.

Lemma cluster_keeps_measured_witness :
  let tok := fun (t : str) (x y : Q) =>
               {| text := t; conf := 1;
                  item_box := _bbox_metrics (x, y)
                                [(x + 30, y); (x + 30, y + 10); (x, y + 10)]%Q |} in
  let tokens := [tok (L "a") 0%Q 0%Q; tok (L "b") 40%Q 2%Q; tok (L "c") 0%Q 30%Q] in
  Forall (fun it => measured (item_box it)) tokens
  /\ Forall (fun ln => measured (line_box ln))
            (_group_items_into_lines tokens 0.5).
Proof.
  cbv zeta.
  match goal with |- ?A /\ _ => assert (Hall : A) end.
  { repeat (apply Forall_cons; [split; vm_compute; [reflexivity|discriminate]|]).
    apply Forall_nil. }
  split; [exact Hall|]. exact (cluster_keeps_measured _ Hall).
Defined.
